(** * Verification of the [tensors] package (sharnoff/tensors)

    A shallow embedding of the shape [Interpreter] (doc.go), its errors
    (errors.go) and the traversal engine [generalMapApply] (mapapply.go),
    followed by the properties proved about them.

    Conventions of the embedding:
    - a Go [int] is a [Z] kept in the 64-bit two's complement range by [wrap];
    - a slice is a [list]; an in-place update of a slice argument is returned
      as the new contents of that slice;
    - a run-time panic (index out of range, division by zero, [panic(err)])
      is the outcome [Panic] of the [go] monad;
    - a Go [error] value is an [option error], [None] being [nil]. *)

From stdpp Require Import base tactics option list numbers strings relations.
From Stdlib Require Import ZArith Lia.

Local Open Scope Z_scope.

(** ** Machine integers *)

Definition int_bits : Z := 64.
Definition MinInt : Z := - 2 ^ (int_bits - 1).
Definition MaxInt : Z := 2 ^ (int_bits - 1) - 1.

(** Two's complement wrap-around of an arithmetic result. *)
Definition wrap (z : Z) : Z :=
  (z + 2 ^ (int_bits - 1)) `mod` 2 ^ int_bits - 2 ^ (int_bits - 1).

(** The values a variable of type [int] can hold. *)
Definition is_int (z : Z) : Prop := MinInt ≤ z ≤ MaxInt.

(** [len(s)] of a slice. *)
Definition len {A} (s : list A) : Z := Z.of_nat (length s).

(** ** Outcomes of a call: a result or a panic *)

Inductive go (A : Type) : Type :=
  | Return (a : A)
  | Panic.
Arguments Return {A} a.
Arguments Panic {A}.

#[global] Instance go_ret : MRet go := λ A a, Return a.
#[global] Instance go_bind : MBind go := λ A B f m,
  match m with
  | Return a => f a
  | Panic => Panic
  end.

(** [s[i]] read of a slice: out of range panics. *)
Definition index_get {A} (s : list A) (i : nat) : go A :=
  match s !! i with
  | Some x => Return x
  | None => Panic
  end.

(** [s[i] = x] write to a slice: out of range panics. *)
Definition index_set {A} (s : list A) (i : nat) (x : A) : go (list A) :=
  if decide (i < length s)%nat then Return (<[i := x]> s) else Panic.

(** [copy(dst, src)]: the first [min(len(dst), len(src))] elements. *)
Definition copy_slice {A} (dst src : list A) : list A :=
  take (length dst) src ++ drop (length src) dst.

(** ** errors.go *)

Inductive error : Type :=
  | Error (msg : string)
  | DimsValueError (dims : list Z) (index : Z)
  | LengthMismatchError (variant : string) (is_ shouldBe : Z)
  | PointOutOfBoundsError (point dims : list Z) (index : Z)
  | ForeignError (msg : string).
  (* [ForeignError]: an error value of a type declared outside the package,
     such as the ones a visitor may return. *)

Definition ErrZeroDims : error := Error "dims has len = 0".
Definition ErrZeroPoint : error := Error "point has len = 0".
Definition ErrIndexZero : error := Error "index is < 0".
Definition ErrIndexSize : error := Error "index is greater than Interpreter size".
Definition ErrChangeTooBig : error :=
  Error "magnitude of change is greater than Interpreter Size".
Definition ErrPointOutOfSync : error :=
  Error "increasing point failed while index was within bounds".
Definition ErrNilFunction : error := Error "given MapApply function is nil".

#[global] Instance error_eq_dec : EqDecision error.
Proof. solve_decision. Defined.

(** ** doc.go: the Interpreter *)

Record Interpreter : Type := mkInterpreter {
  Dims : list Z;
  Sizes : list Z;
}.

(** The zero value [Interpreter{}]. *)
Definition Interpreter_zero : Interpreter := mkInterpreter [] [].

(** [for i, d := range dims { if d <= 0 { ... i ... } }]: the first axis
    with a non-positive entry, counting from [i]. *)
Fixpoint dims_scan (i : nat) (ds : list Z) : option nat :=
  match ds with
  | [] => None
  | d :: ds' => if d <=? 0 then Some i else dims_scan (S i) ds'
  end.

(** [for i := 1; i < len(sizes); i++ { sizes[i] = sizes[i-1] * dims[i] }],
    with [n] iterations left. *)
Fixpoint sizes_loop (dims sizes : list Z) (n i : nat) : go (list Z) :=
  match n with
  | O => Return sizes
  | S n' =>
      s ← index_get sizes (i - 1);
      d ← index_get dims i;
      sizes' ← index_set sizes i (wrap (s * d));
      sizes_loop dims sizes' n' (S i)
  end.

Definition NewInterpreterSafe (dims : list Z) : go (Interpreter * option error) :=
  if decide (length dims = 0%nat) then
    Return (Interpreter_zero, Some ErrZeroDims)
  else
    match dims_scan 0 dims with
    | Some i => Return (Interpreter_zero, Some (DimsValueError dims (Z.of_nat i)))
    | None =>
        let sizes := replicate (length dims) 0 in
        d0 ← index_get dims 0;
        sizes ← index_set sizes 0 d0;
        sizes ← sizes_loop dims sizes (length sizes - 1) 1;
        Return (mkInterpreter dims sizes, None)
    end.

(** [NewInterpreter]: panics where [NewInterpreterSafe] returns an error. *)
Definition NewInterpreter (dims : list Z) : go Interpreter :=
  '(i, err) ← NewInterpreterSafe dims;
  match err with
  | Some _ => Panic
  | None => Return i
  end.

(** [for i, v := range point { if v < 0 || v >= in.Dims[i] { ... } }] over
    the remaining entries [rest], [i] being the axis of the first of them.
    [in.Dims[i]] is only read when [v < 0] is false. *)
Fixpoint CheckPoint_loop (i_ : Interpreter) (point : list Z) (i : nat)
    (rest : list Z) : go (option error) :=
  match rest with
  | [] => Return None
  | v :: rest' =>
      if v <? 0 then
        Return (Some (PointOutOfBoundsError point (Dims i_) (Z.of_nat i)))
      else
        d ← index_get (Dims i_) i;
        if v >=? d then
          Return (Some (PointOutOfBoundsError point (Dims i_) (Z.of_nat i)))
        else CheckPoint_loop i_ point (S i) rest'
  end.

Definition CheckPoint (i_ : Interpreter) (point : list Z) : go (option error) :=
  if decide (length point = 0%nat) then Return (Some ErrZeroPoint)
  else if decide (length point ≠ length (Sizes i_)) then
    Return (Some (LengthMismatchError "point" (len point) (len (Sizes i_))))
  else CheckPoint_loop i_ point 0 point.

(** [for i := 1; i < len(in.Sizes); i++ { index += point[i] * in.Sizes[i-1] }],
    with [n] iterations left. *)
Fixpoint IndexFast_loop (i_ : Interpreter) (point : list Z) (n i : nat)
    (index : Z) : go Z :=
  match n with
  | O => Return index
  | S n' =>
      v ← index_get point i;
      s ← index_get (Sizes i_) (i - 1);
      IndexFast_loop i_ point n' (S i) (wrap (index + wrap (v * s)))
  end.

Definition IndexFast (i_ : Interpreter) (point : list Z) : go Z :=
  index ← index_get point 0;
  IndexFast_loop i_ point (length (Sizes i_) - 1) 1 index.

Definition IndexSafe (i_ : Interpreter) (point : list Z) : go (Z * option error) :=
  err ← CheckPoint i_ point;
  match err with
  | Some e => Return (0, Some e)
  | None => index ← IndexFast i_ point; Return (index, None)
  end.

Definition Index (i_ : Interpreter) (point : list Z) : go Z :=
  '(index, err) ← IndexSafe i_ point;
  match err with
  | Some _ => Panic
  | None => Return index
  end.

(** [in.Sizes[len(in.Sizes)-1]]. *)
Definition Size (i_ : Interpreter) : go Z :=
  match length (Sizes i_) with
  | O => Panic
  | S n => index_get (Sizes i_) n
  end.

Definition CheckIndex (i_ : Interpreter) (index : Z) : go (option error) :=
  if index <? 0 then Return (Some ErrIndexZero)
  else
    size ← Size i_;
    if index >=? size then Return (Some ErrIndexSize) else Return None.

(** Go's [/] and [%] on [int]: truncated division, a zero divisor panics. *)
Definition int_div (a b : Z) : go Z :=
  if decide (b = 0) then Panic else Return (wrap (Z.quot a b)).
Definition int_rem (a b : Z) : go Z :=
  if decide (b = 0) then Panic else Return (Z.rem a b).

(** [for i := len(p) - 1; i >= 1; i-- { p[i] = index / in.Sizes[i-1];
    index %= in.Sizes[i-1] }], the counter being at [i]. *)
Fixpoint PointSafe_loop (i_ : Interpreter) (i : nat) (p : list Z) (index : Z)
    : go (list Z * Z) :=
  match i with
  | O => Return (p, index)
  | S i' =>
      s ← index_get (Sizes i_) i';
      q ← int_div index s;
      p' ← index_set p (S i') q;
      index' ← int_rem index s;
      PointSafe_loop i_ i' p' index'
  end.

(** A [nil] slice is the empty list: the two are indistinguishable to
    [len], indexing, [copy] and [range]. *)
Definition PointSafe (i_ : Interpreter) (index : Z)
    : go (list Z * option error) :=
  err ← CheckIndex i_ index;
  match err with
  | Some e => Return ([], Some e)
  | None =>
      let p := replicate (length (Dims i_)) 0 in
      '(p, index) ← PointSafe_loop i_ (length p - 1) p index;
      p ← index_set p 0 index;
      Return (p, None)
  end.

Definition Point (i_ : Interpreter) (index : Z) : go (list Z) :=
  '(p, err) ← PointSafe i_ index;
  match err with
  | Some _ => Panic
  | None => Return p
  end.

(** [for i := 0; i < len(in.Dims); i++ { point[i]++; ... }], the counter
    being at [i] with [n] iterations left. *)
Fixpoint IncrementFast_loop (i_ : Interpreter) (n i : nat) (point : list Z)
    : go (list Z * bool) :=
  match n with
  | O => Return (point, true)
  | S n' =>
      v ← index_get point i;
      point ← index_set point i (wrap (v + 1));
      d ← index_get (Dims i_) i;
      if wrap (v + 1) <? d then Return (point, true)
      else
        point ← index_set point i 0;
        if decide (i = (length (Dims i_) - 1)%nat) then Return (point, false)
        else IncrementFast_loop i_ n' (S i) point
  end.

(** The point after the call and the returned flag. *)
Definition IncrementFast (i_ : Interpreter) (point : list Z) : go (list Z * bool) :=
  IncrementFast_loop i_ (length (Dims i_)) 0 point.

Definition IncrementSafe (i_ : Interpreter) (point : list Z)
    : go (list Z * bool * option error) :=
  err ← CheckPoint i_ point;
  match err with
  | Some e => Return (point, false, Some e)
  | None => '(point, b) ← IncrementFast i_ point; Return (point, b, None)
  end.

Definition Increment (i_ : Interpreter) (point : list Z) : go (list Z * bool) :=
  '(point, b, err) ← IncrementSafe i_ point;
  match err with
  | Some _ => Panic
  | None => Return (point, b)
  end.

(** [for i := 0; i < len(in.Dims); i++ { point[i]--; ... }]. *)
Fixpoint DecrementFast_loop (i_ : Interpreter) (n i : nat) (point : list Z)
    : go (list Z * bool) :=
  match n with
  | O => Return (point, true)
  | S n' =>
      v ← index_get point i;
      point ← index_set point i (wrap (v - 1));
      if wrap (v - 1) >=? 0 then Return (point, true)
      else
        d ← index_get (Dims i_) i;
        point ← index_set point i (wrap (d - 1));
        if decide (i = (length (Dims i_) - 1)%nat) then Return (point, false)
        else DecrementFast_loop i_ n' (S i) point
  end.

Definition DecrementFast (i_ : Interpreter) (point : list Z) : go (list Z * bool) :=
  DecrementFast_loop i_ (length (Dims i_)) 0 point.

Definition DecrementSafe (i_ : Interpreter) (point : list Z)
    : go (list Z * bool * option error) :=
  err ← CheckPoint i_ point;
  match err with
  | Some e => Return (point, false, Some e)
  | None => '(point, b) ← DecrementFast i_ point; Return (point, b, None)
  end.

Definition IncreaseBySafe (i_ : Interpreter) (point : list Z) (change : Z)
    : go (list Z * bool * option error) :=
  if decide (change = 0) then Return (point, true, None)
  else if decide (change = 1) then IncrementSafe i_ point
  else if decide (change = -1) then DecrementSafe i_ point
  else
    '(index, err) ← IndexSafe i_ point;
    match err with
    | Some e => Return (point, false, Some e)
    | None =>
        size ← Size i_;
        if change >=? size then Return (point, false, Some ErrChangeTooBig)
        else if change <=? wrap (- size) then
          Return (point, false, Some ErrChangeTooBig)
        else
          let newIndex := wrap (index + change) in
          if (newIndex <? 0) || (newIndex >=? size) then
            Return (point, false, None)
          else
            newPoint ← Point i_ newIndex;
            Return (copy_slice point newPoint, true, None)
    end.

Definition IncreaseBy (i_ : Interpreter) (point : list Z) (change : Z)
    : go (list Z * bool) :=
  '(point, b, err) ← IncreaseBySafe i_ point change;
  match err with
  | Some _ => Panic
  | None => Return (point, b)
  end.

(** ** mapapply.go: the traversal engine *)

Record ThreadingOptions : Type := mkThreadingOptions {
  OpsPerThread : Z;
  NumThreads : Z;
}.

(** The function handed to [MapApplySafe]: it receives the point and the
    index and returns an error or [nil]. It is handed the worker's own
    [localPoint] and must leave it unmodified (see the documentation of
    [MapApply]), so it is a function of the contents of the point. *)
Definition visitor : Type := list Z → Z → option error.

(** The variables shared by the goroutines and guarded by [mux]. *)
Record shared : Type := mkShared {
  s_index : Z;
  s_point : list Z;
  s_err : option error;
}.

(** Where a goroutine stands: about to take the lock at the top of its outer
    loop, at the test of the inner loop [for localIndex < localEnd], or
    returned. *)
Inductive worker : Type :=
  | AtLock (localErr : option error)
  | InBatch (localIndex localEnd : Z) (localPoint : list Z) (localErr : option error)
  | Done.

(** The state of a call of [generalMapApply]: the shared variables, the
    goroutines, and the calls of [fn] made so far, oldest first. *)
Record state : Type := mkState {
  st_shared : shared;
  st_workers : list worker;
  st_calls : list (list Z * Z);
}.

Section generalMapApply.
(** What the goroutines' closure captures. [fn] is [None] for [nil]. *)
Variable i_ : Interpreter.
Variable fn : option visitor.
Variable options : ThreadingOptions.
Variable useFast : bool.

Definition increment (point : list Z) : go (list Z * bool * option error) :=
  if useFast then '(point, b) ← IncrementFast i_ point; Return (point, b, None)
  else IncrementSafe i_ point.

Definition makePoint (index : Z) : go (list Z * option error) :=
  if useFast then p ← Point i_ index; Return (p, None)
  else PointSafe i_ index.

(** The body of [if index < in.Size() { ... }] inside the lock: the shared
    variables afterwards, and whether the goroutine goes on ([false] when
    it unlocks and returns). *)
Definition refresh (index : Z) (point : list Z) : go (shared * bool) :=
  if OpsPerThread options >? 1 then
    '(p, e) ← makePoint index;
    match e with
    | Some _ => Return (mkShared index p e, false)
    | None => Return (mkShared index p None, true)
    end
  else
    '(p, cont, e) ← increment point;
    match e with
    | Some _ => Return (mkShared index p e, false)
    | None =>
        if (cont : bool) then Return (mkShared index p None, true)
        else Return (mkShared index p (Some ErrPointOutOfSync), false)
    end.

(** From [mux.Lock()] to the clamp of [localEnd]: one critical section.
    The clamp reads no shared variable. *)
Definition claim (sh : shared) (localErr : option error) : go (shared * worker) :=
  match s_err sh, localErr with
  | Some _, _ => Return (sh, Done)
  | None, Some e => Return (mkShared (s_index sh) (s_point sh) (Some e), Done)
  | None, None =>
      size ← Size i_;
      if s_index sh >=? size then Return (sh, Done)
      else
        let localIndex := s_index sh in
        let localPoint := s_point sh in
        let index := wrap (s_index sh + OpsPerThread options) in
        let localEnd := index in
        '(sh', continue) ←
          (if index <? size then refresh index (s_point sh)
           else Return (mkShared index (s_point sh) None, true));
        if (continue : bool) then
          let localEnd := if localEnd >? size then size else localEnd in
          Return (sh', InBatch localIndex localEnd localPoint None)
        else Return (sh', Done)
  end.

(** One turn of [for localIndex < localEnd { ... }]: the goroutine
    afterwards and the calls of [fn] it made. *)
Definition visit (localIndex localEnd : Z) (localPoint : list Z)
    (localErr : option error) : go (worker * list (list Z * Z)) :=
  if localIndex <? localEnd then
    f ← (match fn with Some f => Return f | None => Panic end);
    let localErr :=
      match f localPoint localIndex with
      | Some e => Some e
      | None => localErr
      end in
    let call := (localPoint, localIndex) in
    let localIndex := wrap (localIndex + 1) in
    if decide (localIndex = localEnd) then Return (AtLock localErr, [call])
    else
      '(p, cont, e) ← increment localPoint;
      match e with
      | Some e => Return (AtLock (Some e), [call])
      | None =>
          if (cont : bool) then Return (InBatch localIndex localEnd p localErr, [call])
          else Return (AtLock (Some ErrPointOutOfSync), [call])
      end
  else Return (AtLock localErr, []).

(** Goroutine [t] takes its next turn; [None] when there is no such
    goroutine or it has returned. *)
Definition thread_step (t : nat) (st : state) : option (go state) :=
  match st_workers st !! t with
  | Some (AtLock localErr) =>
      Some ('(sh, w) ← claim (st_shared st) localErr;
            Return (mkState sh (<[t := w]> (st_workers st)) (st_calls st)))
  | Some (InBatch localIndex localEnd localPoint localErr) =>
      Some ('(w, calls) ← visit localIndex localEnd localPoint localErr;
            Return (mkState (st_shared st) (<[t := w]> (st_workers st))
                      (st_calls st ++ calls)))
  | Some Done | None => None
  end.

(** The goroutines interleave in any order. *)
Definition step (st st' : state) : Prop :=
  ∃ t, thread_step t st = Some (Return st').

(** A goroutine panics, which ends the program. *)
Definition crashes (st : state) : Prop :=
  ∃ t, thread_step t st = Some Panic.

(** [wg.Wait()] returns: every goroutine has returned. *)
Definition finished (st : state) : Prop :=
  Forall (λ w, w = Done) (st_workers st).

(** The state when the goroutines are spawned. *)
Definition init_state : state :=
  mkState (mkShared 0 (replicate (length (Dims i_)) 0) None)
          (replicate (Z.to_nat (NumThreads options)) (AtLock None))
          [].

(** Running a given schedule: the goroutines take turns in the order of
    [sched]; a turn given to a goroutine that has returned is skipped. *)
Fixpoint run (sched : list nat) (st : state) : go state :=
  match sched with
  | [] => Return st
  | t :: sched' =>
      match thread_step t st with
      | Some r => st' ← r; run sched' st'
      | None => run sched' st
      end
  end.
End generalMapApply.

(** The part of [generalMapApply] that fills in the threading options. *)
Definition fill_options (i_ : Interpreter) (options : option ThreadingOptions)
    : go ThreadingOptions :=
  match options with
  | None => size ← Size i_; Return (mkThreadingOptions size 1)
  | Some o =>
      Return (mkThreadingOptions
                (if OpsPerThread o <? 1 then 1 else OpsPerThread o)
                (if NumThreads o <? 1 then 1 else NumThreads o))
  end.

(** [generalMapApply] returns [r] after the calls [calls] of [fn]: either at
    once on a [nil] function, or with the shared [err] when every goroutine
    of some interleaving has returned. *)
Definition generalMapApply (i_ : Interpreter) (fn : option visitor)
    (options : option ThreadingOptions) (useFast : bool)
    (calls : list (list Z * Z)) (r : option error) : Prop :=
  match useFast, fn with
  | false, None => calls = [] ∧ r = Some ErrNilFunction
  | _, _ =>
      ∃ opts final,
        fill_options i_ options = Return opts ∧
        rtc (step i_ fn opts useFast) (init_state i_ opts) final ∧
        finished final ∧
        calls = st_calls final ∧ r = s_err (st_shared final)
  end.

Definition MapApplySafe (i_ : Interpreter) (fn : option visitor)
    (options : option ThreadingOptions) : list (list Z * Z) → option error → Prop :=
  generalMapApply i_ fn options false.

(** ** Specification-level notions *)

Definition product (l : list Z) : Z := foldr Z.mul 1 l.
Definition Zsum (l : list Z) : Z := foldr Z.add 0 l.

(** The running-size table as the data model describes it:
    [Sizes[0] = Dims[0]], [Sizes[i] = Sizes[i-1] * Dims[i]], the products
    being those of the machine. *)
Fixpoint running_products (acc : Z) (ds : list Z) : list Z :=
  match ds with
  | [] => []
  | d :: ds' => wrap (acc * d) :: running_products (wrap (acc * d)) ds'
  end.

Definition sizes_of (dims : list Z) : list Z :=
  match dims with
  | [] => []
  | d :: ds => d :: running_products d ds
  end.

(** [i] is the first axis of [dims] whose entry is non-positive. *)
Definition first_nonpositive (dims : list Z) (i : nat) : Prop :=
  (∃ d, dims !! i = Some d ∧ d ≤ 0) ∧
  ∀ j d, (j < i)%nat → dims !! j = Some d → 0 < d.

(** An Interpreter built by the constructor from a vector of [int]s. *)
Definition valid (i_ : Interpreter) : Prop :=
  Forall is_int (Dims i_) ∧ NewInterpreterSafe (Dims i_) = Return (i_, None).

(** The number of points of the shape fits in an [int]: no product of the
    running-size table wraps around. *)
Definition fits (i_ : Interpreter) : Prop := product (Dims i_) ≤ MaxInt.

(** A point within the bounds [dims], axis by axis. *)
Definition in_bounds (dims point : list Z) : Prop :=
  Forall2 (λ v d, 0 ≤ v < d) point dims.

(** Mixed-radix digits of [k], dimension 0 least significant. *)
Fixpoint decode (dims : list Z) (k : Z) : list Z :=
  match dims with
  | [] => []
  | d :: ds => k `mod` d :: decode ds (k `div` d)
  end.

(** Mixed-radix value of a point, over the integers. *)
Fixpoint encode (dims point : list Z) : Z :=
  match dims, point with
  | d :: ds, v :: p => v + d * encode ds p
  | _, _ => 0
  end.

(** [point[0] + Σ_{i=1}^{N-1} point[i] * Sizes[i-1]], over the integers. *)
Definition index_formula (i_ : Interpreter) (point : list Z) : Z :=
  point !!! 0%nat +
  Zsum ((λ i, point !!! i * Sizes i_ !!! (i - 1)%nat) <$> seq 1 (length (Sizes i_) - 1)).

Definition zero_point (i_ : Interpreter) : list Z :=
  replicate (length (Dims i_)) 0.

(** The point with [p[i] = Dims[i] - 1] on every axis. *)
Definition max_point (i_ : Interpreter) : list Z :=
  (λ d, d - 1) <$> Dims i_.

(** [n] successive calls of [IncrementSafe] on the same slice, starting from
    the contents [p]: what each call leaves in the slice and returns. *)
Fixpoint increments (i_ : Interpreter) (n : nat) (p : list Z)
    : go (list (list Z * bool * option error)) :=
  match n with
  | O => Return []
  | S n' =>
      '(p', b, e) ← IncrementSafe i_ p;
      rest ← increments i_ n' p';
      Return ((p', b, e) :: rest)
  end.

(** [Decrement]: panics where [DecrementSafe] returns an error. *)
Definition Decrement (i_ : Interpreter) (point : list Z) : go (list Z * bool) :=
  '(point, b, err) ← DecrementSafe i_ point;
  match err with
  | Some _ => Panic
  | None => Return (point, b)
  end.

(** ** Accounting for a traversal *)

(** How many of the calls of [fn] were made with the index [i]. *)
Definition visits (i : Z) (calls : list (list Z * Z)) : nat :=
  length (filter (λ c, c.2 = i) calls).

(** Whether [i] is among the indices a goroutine has fetched and not yet
    handed to [fn]: those from [localIndex] up to [localEnd]. *)
Definition pending (i : Z) (w : worker) : nat :=
  match w with
  | InBatch localIndex localEnd _ _ =>
      if bool_decide (localIndex ≤ i < localEnd) then 1 else 0
  | _ => 0
  end.

Definition pending_all (i : Z) (ws : list worker) : nat :=
  sum_list (pending i <$> ws).

(** The [localErr] of a goroutine. *)
Definition worker_err (w : worker) : option error :=
  match w with
  | AtLock e => e
  | InBatch _ _ _ e => e
  | Done => None
  end.

(** An error has been recorded, in the shared [err] or in the [localErr] of
    some goroutine. *)
Definition failing (st : state) : Prop :=
  s_err (st_shared st) ≠ None ∨
  ∃ t w, st_workers st !! t = Some w ∧ worker_err w ≠ None.

(** What a goroutine has left to do, at most: a turn to take the lock, or two
    turns per index of its batch. *)
Definition weight (w : worker) : nat :=
  match w with
  | AtLock _ => 1
  | InBatch localIndex localEnd _ _ => 2 * Z.to_nat (localEnd - localIndex) + 2
  | Done => 0
  end.

(** A bound on the number of turns the goroutines can still take. *)
Definition turns_left (size : Z) (st : state) : nat :=
  match s_err (st_shared st) with
  | Some _ => 0
  | None => 4 * Z.to_nat (size - s_index (st_shared st))
  end + sum_list (weight <$> st_workers st).

(** The shape of the states a traversal goes through: the shared index has
    not wrapped around while no error is recorded, and the batches lie within
    the index range. *)
Definition well_formed (size : Z) (st : state) : Prop :=
  (s_err (st_shared st) = None → 0 ≤ s_index (st_shared st)) ∧
  Forall (λ w, match w with
               | InBatch localIndex localEnd _ _ => 0 ≤ localIndex ∧ localEnd ≤ size
               | _ => True
               end) (st_workers st).

(** No index is handed out twice: an index is visited or pending at most
    once, and only if it is in range and below the shared index. *)
Definition at_most_once (size : Z) (st : state) : Prop :=
  ∀ i, (visits i (st_calls st) + pending_all i (st_workers st) ≤ 1)%nat ∧
       ((1 ≤ visits i (st_calls st) + pending_all i (st_workers st))%nat →
        0 ≤ i < size ∧
        (s_err (st_shared st) = None → i < s_index (st_shared st))).

(** No index is lost while no error is recorded: every index below the
    shared index is visited or pending, and a goroutine has returned only
    once the indices were exhausted. *)
Definition none_lost (size : Z) (st : state) : Prop :=
  (∀ i, 0 ≤ i < Z.min (s_index (st_shared st)) size →
        (1 ≤ visits i (st_calls st) + pending_all i (st_workers st))%nat) ∧
  Forall (λ w, w = Done → size ≤ s_index (st_shared st)) (st_workers st).

Definition traversal_inv (size : Z) (st : state) : Prop :=
  well_formed size st ∧ at_most_once size st ∧ (failing st ∨ none_lost size st).

#[global] Instance worker_eq_dec : EqDecision worker.
Proof. solve_decision. Defined.

(** The fields of the options hold [int]s. *)
Definition int_options (options : option ThreadingOptions) : Prop :=
  match options with
  | None => True
  | Some o => is_int (OpsPerThread o) ∧ is_int (NumThreads o)
  end.

(** ** Points and errors of a traversal *)

(** The error [e] is one that [f] returned on one of the calls. *)
Definition returned_by (f : visitor) (calls : list (list Z * Z)) (e : error) : Prop :=
  ∃ p k, (p, k) ∈ calls ∧ f p k = Some e.

(** Where the shared index stops: the least multiple of [ops] that is not
    below [size]. *)
Definition last_end (size ops : Z) : Z := ops * ((size + ops - 1) `div` ops).

(** The error [e] is one that [f] returned, or the one met when the shared
    index wraps around. *)
Definition blamed (f : visitor) (ops size : Z) (calls : list (list Z * Z))
    (e : error) : Prop :=
  returned_by f calls e ∨ (e = ErrIndexZero ∧ MaxInt < last_end size ops).

(** The states of a traversal whose number of points fits an [int]: the
    shared index is a multiple of [OpsPerThread], the shared point and the
    local points are the points of their indices, and so was the point of
    every call; every recorded error comes from [f] (or from the shared
    index wrapping around), and no failure of [f] goes unrecorded. *)
Definition synced (i_ : Interpreter) (f : visitor) (ops size : Z) (st : state) : Prop :=
  (s_err (st_shared st) = None →
     (∃ m, 0 ≤ m ∧ s_index (st_shared st) = m * ops) ∧
     (s_index (st_shared st) < size →
        s_point (st_shared st) = decode (Dims i_) (s_index (st_shared st)))) ∧
  Forall (λ w, match w with
               | InBatch localIndex localEnd localPoint _ =>
                   0 ≤ localIndex < localEnd ∧ localEnd ≤ size ∧
                   localPoint = decode (Dims i_) localIndex
               | _ => True
               end) (st_workers st) ∧
  Forall (λ c, 0 ≤ c.2 < size ∧ c.1 = decode (Dims i_) c.2) (st_calls st) ∧
  (∀ e, s_err (st_shared st) = Some e → blamed f ops size (st_calls st) e) ∧
  Forall (λ w, ∀ e, worker_err w = Some e → returned_by f (st_calls st) e)
         (st_workers st) ∧
  (failing st ∨ Forall (λ c, f c.1 c.2 = None) (st_calls st)).

(** ** mapapply.go: the panicking wrappers *)

(** The function [MapApply] and [MapApplyFast] hand to [generalMapApply]:
    it calls [fn], which returns nothing, and returns [nil].  Of a call of
    [fn] only its arguments are observed. *)
Definition newFn : visitor := λ _ _, None.

(** [MapApply] for a function that is not [nil]: the calls of [fn] made, and
    whether the call returns or ends in [panic(err)]. *)
Definition MapApply (i_ : Interpreter) (options : option ThreadingOptions)
    (calls : list (list Z * Z)) (outcome : go unit) : Prop :=
  ∃ err, MapApplySafe i_ (Some newFn) options calls err ∧
         outcome = match err with Some _ => Panic | None => Return () end.

Definition MapApplyFast (i_ : Interpreter) (options : option ThreadingOptions)
    (calls : list (list Z * Z)) (outcome : go unit) : Prop :=
  ∃ err, generalMapApply i_ (Some newFn) options true calls err ∧
         outcome = match err with Some _ => Panic | None => Return () end.

(** ** A traversal by a single goroutine *)

(** [f] returns [nil] on every index from [lo] up to [hi], called with the
    point of the index. *)
Definition no_failure (i_ : Interpreter) (f : visitor) (lo hi : Z) : Prop :=
  ∀ k, lo ≤ k < hi → f (decode (Dims i_) k) k = None.

(** [e] is the error of the last index from [lo] up to [hi] on which [f]
    returns one, [nil] when there is none: what [localErr] holds once these
    indices are visited. *)
Definition last_failure (i_ : Interpreter) (f : visitor) (lo hi : Z)
    (e : option error) : Prop :=
  match e with
  | None => no_failure i_ f lo hi
  | Some x =>
      ∃ j, lo ≤ j < hi ∧ f (decode (Dims i_) j) j = Some x ∧
           no_failure i_ f (j + 1) hi
  end.

(** The calls for the indices 0, 1, ..., [n - 1], in this order, each with
    the point of its index. *)
Definition calls_upto (i_ : Interpreter) (n : Z) : list (list Z * Z) :=
  (λ k, (decode (Dims i_) k, k)) <$> seqZ 0 n.

(** How a traversal by a single goroutine can end: with every index visited
    and [nil]; at the end of the first batch in which [f] returned an error,
    with the last of the errors of that batch; or before the batch at which
    the shared index would wrap around, with [ErrIndexZero]. *)
Definition sequential_outcome (i_ : Interpreter) (f : visitor) (ops size : Z)
    (calls : list (list Z * Z)) (r : option error) : Prop :=
  (r = None ∧ calls = calls_upto i_ size ∧ no_failure i_ f 0 size) ∨
  (∃ m e, 0 ≤ m ∧ m * ops < size ∧ no_failure i_ f 0 (m * ops) ∧
     last_failure i_ f (m * ops) (Z.min (m * ops + ops) size) (Some e) ∧
     r = Some e ∧ calls = calls_upto i_ (Z.min (m * ops + ops) size)) ∨
  (∃ m, 0 ≤ m ∧ m * ops < size ∧ MaxInt < m * ops + ops ∧
     no_failure i_ f 0 (m * ops) ∧
     r = Some ErrIndexZero ∧ calls = calls_upto i_ (m * ops)).

(** The states a traversal by a single goroutine goes through. *)
Definition sequential (i_ : Interpreter) (f : visitor) (ops size : Z)
    (st : state) : Prop :=
  ∃ w, st_workers st = [w] ∧
    match w with
    | AtLock e =>
        s_err (st_shared st) = None ∧
        ∃ m lo, 0 ≤ m ∧ s_index (st_shared st) = m * ops ∧
          (s_index (st_shared st) < size →
             s_point (st_shared st) = decode (Dims i_) (s_index (st_shared st))) ∧
          st_calls st = calls_upto i_ (Z.min (m * ops) size) ∧
          (lo = 0 ∧ m = 0 ∨ lo = m * ops - ops ∧ 1 ≤ m) ∧
          no_failure i_ f 0 lo ∧
          last_failure i_ f lo (Z.min (m * ops) size) e
    | InBatch localIndex localEnd localPoint e =>
        s_err (st_shared st) = None ∧
        ∃ m, 1 ≤ m ∧ s_index (st_shared st) = m * ops ∧
          (s_index (st_shared st) < size →
             s_point (st_shared st) = decode (Dims i_) (s_index (st_shared st))) ∧
          m * ops - ops ≤ localIndex < localEnd ∧
          localEnd = Z.min (m * ops) size ∧
          localPoint = decode (Dims i_) localIndex ∧
          st_calls st = calls_upto i_ localIndex ∧
          no_failure i_ f 0 (m * ops - ops) ∧
          last_failure i_ f (m * ops - ops) localIndex e
    | Done => sequential_outcome i_ f ops size (st_calls st) (s_err (st_shared st))
    end.

(** ** A traversal with [nil] options *)

(** The states a traversal goes through when its single goroutine fetches
    one batch that holds every index: before the batch is fetched, at the
    index [k] of the batch, with the batch done, and returned. *)
Definition one_batch (i_ : Interpreter) (size : Z) (st : state) : Prop :=
  s_err (st_shared st) = None ∧
  ((st_workers st = [AtLock None] ∧ s_index (st_shared st) = 0 ∧
    s_point (st_shared st) = decode (Dims i_) 0 ∧ st_calls st = []) ∨
   (∃ k, 0 ≤ k < size ∧
      st_workers st = [InBatch k size (decode (Dims i_) k) None] ∧
      s_index (st_shared st) = size ∧ st_calls st = calls_upto i_ k) ∨
   (st_workers st = [AtLock None] ∧ 1 ≤ size ∧
    s_index (st_shared st) = size ∧ st_calls st = calls_upto i_ size) ∨
   (st_workers st = [Done] ∧ st_calls st = calls_upto i_ size)).

(** ** errors.go: [Is] *)

(** The dynamic type of an error value, [TNil] for the [nil] interface.
    It is exact on [nil] and on the four types of this package.  The types
    declared outside the package are not told apart: they all map to
    [TForeign], so what [Is] answers for two errors of such types is outside
    this model (see [package_error]). *)
Inductive go_type : Type :=
  | TNil
  | TError
  | TDimsValueError
  | TLengthMismatchError
  | TPointOutOfBoundsError
  | TForeign.

#[global] Instance go_type_eq_dec : EqDecision go_type.
Proof. solve_decision. Defined.

(** [reflect.TypeOf]. *)
Definition TypeOf (e : option error) : go_type :=
  match e with
  | None => TNil
  | Some (Error _) => TError
  | Some (DimsValueError _ _) => TDimsValueError
  | Some (LengthMismatchError _ _ _) => TLengthMismatchError
  | Some (PointOutOfBoundsError _ _ _) => TPointOutOfBoundsError
  | Some (ForeignError _) => TForeign
  end.

Definition Is (err base : option error) : bool :=
  match base with
  | Some (Error e0) =>
      match err with
      | Some (Error e1) => bool_decide (e0 = e1)
      | _ => false
      end
  | _ => bool_decide (TypeOf base = TypeOf err)
  end.

(** [nil] or an error of a type of this package. *)
Definition package_error (e : option error) : Prop := TypeOf e ≠ TForeign.

(** The error variables of the package. *)
Definition error_vars : list error :=
  [ErrZeroDims; ErrZeroPoint; ErrIndexZero; ErrIndexSize; ErrChangeTooBig;
   ErrPointOutOfSync; ErrNilFunction].

(** ** tensors.go: reading a cell *)

(** [s[i]] for an [int] index: out of range panics. *)
Definition index_at {A} (s : list A) (i : Z) : go A :=
  if i <? 0 then Panic else index_get s (Z.to_nat i).

Section Tensor.
(** The cells hold [float64]s, which are only stored and handed back;
    [zero] is [0.0]. *)
Variable float64 : Type.
Variable zero : float64.

Record Tensor : Type := mkTensor {
  T_Interpreter : Interpreter;
  Values : list float64;
}.

Definition PointValueSafe (t : Tensor) (point : list Z)
    : go (float64 * option error) :=
  '(index, err) ← IndexSafe (T_Interpreter t) point;
  match err with
  | Some e => Return (zero, Some e)
  | None => v ← index_at (Values t) index; Return (v, None)
  end.

Definition PointValue (t : Tensor) (point : list Z) : go float64 :=
  index ← Index (T_Interpreter t) point;
  index_at (Values t) index.
End Tensor.
Arguments mkTensor {float64} _ _.
Arguments T_Interpreter {float64} _.
Arguments Values {float64} _.
Arguments PointValueSafe {float64} zero t point.
Arguments PointValue {float64} t point.

(** * Machine arithmetic *)

Lemma int_consts : MinInt = -9223372036854775808 ∧ MaxInt = 9223372036854775807.
Proof. split; reflexivity. Qed.

Lemma wrap_id z : is_int z → wrap z = z.
Proof.
  unfold is_int, wrap, MinInt, MaxInt, int_bits. intros H.
  rewrite Z.mod_small; lia.
Qed.

Lemma wrap_is_int z : is_int (wrap z).
Proof.
  unfold is_int, wrap, MinInt, MaxInt, int_bits.
  pose proof (Z.mod_pos_bound (z + 2 ^ (64 - 1)) (2 ^ 64)). lia.
Qed.

Lemma wrap_add_l a b : wrap (wrap a + b) = wrap (a + b).
Proof.
  unfold wrap. f_equal.
  replace ((a + 2 ^ (int_bits - 1)) `mod` 2 ^ int_bits - 2 ^ (int_bits - 1)
           + b + 2 ^ (int_bits - 1))
    with ((a + 2 ^ (int_bits - 1)) `mod` 2 ^ int_bits + b) by lia.
  rewrite Zplus_mod_idemp_l. f_equal. lia.
Qed.

Lemma wrap_add_r a b : wrap (a + wrap b) = wrap (a + b).
Proof. rewrite (Z.add_comm a), wrap_add_l. f_equal. lia. Qed.

Lemma wrap_abs_le z : Z.abs (wrap z) ≤ Z.abs z.
Proof.
  destruct (decide (is_int z)) as [Hz|Hz]; [by rewrite wrap_id|].
  pose proof (wrap_is_int z) as Hw.
  unfold is_int, MinInt, MaxInt, int_bits in *. lia.
Qed.

Lemma wrap_overflow a b :
  0 ≤ a ≤ MaxInt → 0 ≤ b ≤ MaxInt → MaxInt < a + b → wrap (a + b) < 0.
Proof.
  unfold wrap, MaxInt, int_bits. intros Ha Hb Hab.
  replace (a + b + 2 ^ (64 - 1)) with (a + b - 2 ^ (64 - 1) + 1 * 2 ^ 64) by lia.
  rewrite Z.mod_add by lia. rewrite Z.mod_small; lia.
Qed.

(** * Slices *)

Lemma index_get_Some {A} (s : list A) i x : s !! i = Some x → index_get s i = Return x.
Proof. unfold index_get. by intros ->. Qed.

Lemma index_set_lt {A} (s : list A) i x :
  (i < length s)%nat → index_set s i x = Return (<[i := x]> s).
Proof. unfold index_set. intros. by rewrite decide_True. Qed.

Lemma insert_app_middle {A} (pre : list A) x y post :
  <[length pre := y]> (pre ++ x :: post) = pre ++ y :: post.
Proof.
  rewrite insert_app_r_alt by lia. by rewrite Nat.sub_diag.
Qed.

Lemma lookup_app_middle {A} (pre : list A) x post :
  (pre ++ x :: post) !! length pre = Some x.
Proof. by rewrite list_lookup_middle. Qed.

(** * The constructor *)

Lemma dims_scan_None i ds : dims_scan i ds = None ↔ Forall (λ d, 0 < d) ds.
Proof.
  revert i. induction ds as [|d ds IH]; intros i; simpl.
  - split; [constructor | done].
  - destruct (Z.leb_spec d 0).
    + split; [done|]. inversion 1; lia.
    + rewrite IH. split; [by constructor | by inversion 1].
Qed.

Lemma dims_scan_Some i ds j :
  dims_scan i ds = Some j ↔
  (i ≤ j)%nat ∧ first_nonpositive ds (j - i).
Proof.
  revert i j. induction ds as [|d ds IH]; intros i j; simpl.
  - split; [done|]. intros [_ [[d [Hd _]] _]]. done.
  - destruct (Z.leb_spec d 0).
    + split.
      * intros [= <-]. split; [lia|]. rewrite Nat.sub_diag. split.
        -- by exists d.
        -- intros; lia.
      * intros [Hij [[d' [Hd' Hle]] Hfirst]].
        destruct (j - i)%nat as [|m] eqn:E.
        -- f_equal; lia.
        -- assert (0 < d) by (apply (Hfirst 0%nat); [lia|done]). lia.
    + rewrite IH. split.
      * intros [Hij [[d' [Hd' Hle]] Hfirst]]. split; [lia|].
        replace (j - i)%nat with (S (j - S i)) by lia. split.
        -- by exists d'.
        -- intros [|k] d0 Hk; simpl; [by intros [= <-]|].
           apply Hfirst. lia.
      * intros [Hij [[d' [Hd' Hle]] Hfirst]].
        destruct (j - i)%nat as [|m] eqn:E.
        -- simpl in Hd'. simplify_eq. lia.
        -- split; [lia|]. replace (j - S i)%nat with m by lia. split.
           ++ by exists d'.
           ++ intros k d0 Hk Hd0. apply (Hfirst (S k) d0); [lia|done].
Qed.

Lemma sizes_loop_spec rest : ∀ sizes dpre a da,
  length sizes = length dpre →
  sizes_loop (dpre ++ da :: rest) (sizes ++ a :: replicate (length rest) 0)
             (length rest) (S (length sizes))
  = Return (sizes ++ a :: running_products a rest).
Proof.
  induction rest as [|d rest IH]; intros sizes dpre a da Hlen; [done|].
  cbn [sizes_loop length replicate running_products].
  replace (S (length sizes) - 1)%nat with (length sizes) by lia.
  rewrite (index_get_Some (sizes ++ _) _ a) by apply lookup_app_middle.
  rewrite (index_get_Some (dpre ++ _) _ d).
  2:{ rewrite Hlen. rewrite (cons_middle da), app_assoc.
      replace (S (length dpre)) with (length (dpre ++ [da]))
        by (rewrite length_app; simpl; lia).
      apply lookup_app_middle. }
  cbn [mbind go_bind].
  rewrite index_set_lt by (rewrite length_app; simpl; lia).
  cbn [mbind go_bind].
  rewrite (cons_middle a sizes), app_assoc.
  replace (S (length sizes)) with (length (sizes ++ [a]))
    by (rewrite length_app; simpl; lia).
  rewrite insert_app_middle.
  rewrite (cons_middle da dpre), (app_assoc dpre).
  rewrite (IH (sizes ++ [a]) (dpre ++ [da]) (wrap (a * d)) d).
  - by rewrite <-app_assoc.
  - rewrite !length_app. simpl. lia.
Qed.

Lemma NewInterpreterSafe_eq dims :
  NewInterpreterSafe dims =
    match dims with
    | [] => Return (Interpreter_zero, Some ErrZeroDims)
    | _ :: _ =>
        match dims_scan 0 dims with
        | Some i => Return (Interpreter_zero, Some (DimsValueError dims (Z.of_nat i)))
        | None => Return (mkInterpreter dims (sizes_of dims), None)
        end
    end.
Proof.
  unfold NewInterpreterSafe. destruct dims as [|d ds]; [done|].
  rewrite decide_False by done.
  destruct (dims_scan 0 (d :: ds)); [done|].
  cbn -[sizes_loop]. rewrite index_set_lt by (simpl; lia).
  cbn -[sizes_loop]. rewrite Nat.sub_0_r, length_replicate.
  pose proof (sizes_loop_spec ds [] [] d d eq_refl) as H.
  simpl app in H. simpl length in H. rewrite H. done.
Qed.

(** * Valid interpreters *)

Lemma running_products_length a ds : length (running_products a ds) = length ds.
Proof. revert a. induction ds; intros; simpl; [done|by rewrite IHds]. Qed.

Lemma sizes_of_length dims : length (sizes_of dims) = length dims.
Proof. destruct dims; simpl; [done|by rewrite running_products_length]. Qed.

Lemma valid_inv i_ :
  valid i_ →
  Dims i_ ≠ [] ∧ Forall (λ d, 0 < d ≤ MaxInt) (Dims i_) ∧
  Sizes i_ = sizes_of (Dims i_) ∧ length (Sizes i_) = length (Dims i_).
Proof.
  intros [Hint Hnew]. rewrite NewInterpreterSafe_eq in Hnew.
  destruct (Dims i_) as [|d ds] eqn:Hd; [done|].
  destruct (dims_scan 0 (d :: ds)) eqn:Hscan; [done|].
  apply dims_scan_None in Hscan.
  injection Hnew as Hi. split; [done|]. split.
  - rewrite Forall_forall in *. intros x Hx.
    specialize (Hint x Hx). specialize (Hscan x Hx).
    unfold is_int in Hint. lia.
  - rewrite <-Hi at 1. simpl. split; [done|].
    rewrite <-Hi at 1. simpl. by rewrite running_products_length.
Qed.

Lemma valid_intro dims :
  dims ≠ [] → Forall (λ d, 0 < d ≤ MaxInt) dims →
  valid (mkInterpreter dims (sizes_of dims)).
Proof.
  intros Hne Hall. split; simpl.
  - eapply Forall_impl; [exact Hall|]. intros x. unfold is_int, MinInt, MaxInt, int_bits. simpl. lia.
  - rewrite NewInterpreterSafe_eq. destruct dims; [done|].
    replace (dims_scan 0 (z :: dims)) with (@None nat); [done|].
    symmetry. apply dims_scan_None. eapply Forall_impl; [exact Hall|]. simpl. lia.
Qed.

(** * CheckPoint *)

Lemma CheckPoint_loop_total i_ point rest : ∀ i,
  (i + length rest ≤ length (Dims i_))%nat →
  ∃ r, CheckPoint_loop i_ point i rest = Return r.
Proof.
  induction rest as [|v rest IH]; intros i Hi; simpl; [by eexists|].
  destruct (v <? 0); [by eexists|].
  simpl in Hi. destruct (lookup_lt_is_Some_2 (Dims i_) i) as [d Hd]; [lia|].
  rewrite (index_get_Some _ _ d Hd). cbn.
  destruct (v >=? d); [by eexists|]. apply IH. lia.
Qed.

Lemma CheckPoint_loop_None i_ point rest : ∀ i,
  CheckPoint_loop i_ point i rest = Return None ↔
  in_bounds (take (length rest) (drop i (Dims i_))) rest.
Proof.
  unfold in_bounds.
  induction rest as [|v rest IH]; intros i; simpl.
  - split; [constructor|done].
  - destruct (Z.ltb_spec v 0) as [Hv|Hv].
    + split; [done|]. intros H. inversion H; subst. lia.
    + destruct (Dims i_ !! i) as [d|] eqn:Hd.
      * rewrite (index_get_Some _ _ d Hd). cbn.
        rewrite (drop_S _ d) by done. simpl.
        destruct (Z.geb_spec v d) as [Hvd|Hvd].
        -- split; [done|]. intros H. inversion H; subst. lia.
        -- rewrite IH. split.
           ++ intros H. constructor; [lia|done].
           ++ intros H. by inversion H.
      * unfold index_get. rewrite Hd. cbn.
        rewrite drop_ge by (by apply lookup_ge_None). rewrite take_nil.
        split; [done|]. intros H. inversion H.
Qed.

Lemma CheckPoint_None i_ point :
  length (Sizes i_) = length (Dims i_) →
  CheckPoint i_ point = Return None ↔ point ≠ [] ∧ in_bounds (Dims i_) point.
Proof.
  intros Hlen. unfold CheckPoint.
  destruct (decide (length point = 0%nat)) as [H0|H0].
  { split; [done|]. intros [Hne _]. by destruct point. }
  destruct (decide (length point ≠ length (Sizes i_))) as [Hl|Hl].
  { split; [done|]. intros [_ Hb]. apply Forall2_length in Hb. congruence. }
  rewrite CheckPoint_loop_None. rewrite drop_0.
  rewrite take_ge by lia.
  split; [|by intros [_ ?]]. intros H. split; [|done]. by destruct point.
Qed.

Lemma CheckPoint_total i_ point :
  length (Sizes i_) = length (Dims i_) →
  ∃ r, CheckPoint i_ point = Return r.
Proof.
  intros Hlen. unfold CheckPoint.
  destruct (decide _); [by eexists|].
  destruct (decide _); [by eexists|].
  apply CheckPoint_loop_total. lia.
Qed.

Lemma valid_CheckPoint i_ point :
  valid i_ → CheckPoint i_ point = Return None ↔ in_bounds (Dims i_) point.
Proof.
  intros Hv. destruct (valid_inv _ Hv) as (Hne & _ & _ & Hlen).
  rewrite CheckPoint_None by done. split; [by intros [_ ?]|].
  intros H. split; [|done]. intros ->. apply Forall2_length in H.
  by destruct (Dims i_).
Qed.

(** * Products and the running-size table *)

Lemma product_app l1 l2 : product (l1 ++ l2) = product l1 * product l2.
Proof. induction l1; simpl; [by destruct (product l2)|]. rewrite IHl1. lia. Qed.

Lemma product_pos l : Forall (λ d, 0 < d) l → 0 < product l.
Proof. induction 1; simpl; lia. Qed.

Lemma product_take_S l i d :
  l !! i = Some d → product (take (S i) l) = product (take i l) * d.
Proof.
  intros H. rewrite (take_S_r _ _ d) by done. rewrite product_app. simpl. lia.
Qed.

Lemma product_take_le l i :
  Forall (λ d, 0 < d) l → 0 < product (take i l) ≤ product l.
Proof.
  intros Hl. rewrite <-(take_drop i l) at 3. rewrite product_app.
  pose proof (product_pos (take i l) (Forall_take _ _ _ Hl)).
  pose proof (product_pos (drop i l) (Forall_drop _ _ _ Hl)). nia.
Qed.

Lemma running_products_lookup ds : ∀ a i d,
  Forall (λ d, 0 < d) ds → 0 < a → a * product ds ≤ MaxInt →
  ds !! i = Some d →
  running_products a ds !! i = Some (a * product (take (S i) ds)).
Proof.
  induction ds as [|d0 ds IH]; intros a i d Hpos Ha Hfit Hi; [done|].
  inversion Hpos as [|? ? Hd0 Hds]; subst.
  pose proof (product_pos ds Hds) as Hp.
  assert (wrap (a * d0) = a * d0) as Hw.
  { apply wrap_id. unfold is_int, MinInt, int_bits. simpl in Hfit |- *. nia. }
  destruct i as [|i]; simpl.
  - rewrite Hw. f_equal. lia.
  - rewrite Hw. simpl in Hi. rewrite (IH _ _ d); try done; [f_equal; lia|nia|].
    simpl in Hfit. lia.
Qed.

Lemma sizes_of_lookup dims i d :
  Forall (λ d, 0 < d) dims → product dims ≤ MaxInt →
  dims !! i = Some d →
  sizes_of dims !! i = Some (product (take (S i) dims)).
Proof.
  intros Hpos Hfit Hi. destruct dims as [|d0 ds]; [done|].
  inversion Hpos; subst. destruct i as [|i]; simpl.
  - f_equal. lia.
  - simpl in Hi. by rewrite (running_products_lookup ds d0 i d).
Qed.

Lemma running_products_zero ds i s :
  running_products 0 ds !! i = Some s → s = 0.
Proof.
  revert i. induction ds as [|d ds IH]; intros i; [done|]. simpl.
  rewrite Z.mul_0_l. change (wrap 0) with 0. destruct i; simpl; [congruence|apply IH].
Qed.

(** A zero in the running-size table stays to its end. *)
Lemma running_products_zero_from ds : ∀ a i j s,
  running_products a ds !! i = Some 0 → (i ≤ j)%nat →
  running_products a ds !! j = Some s → s = 0.
Proof.
  induction ds as [|d ds IH]; intros a i j s Hi Hij Hj; [done|].
  simpl in *. destruct i as [|i]; simpl in Hi.
  - injection Hi as Hi. rewrite Hi in Hj.
    destruct j as [|j]; simpl in Hj; [congruence|].
    by eapply running_products_zero.
  - destruct j as [|j]; [lia|]. simpl in Hj. eapply IH; [done| |done]. lia.
Qed.

Lemma sizes_of_zero_from dims i j s :
  Forall (λ d, 0 < d) dims →
  sizes_of dims !! i = Some 0 → (i ≤ j)%nat →
  sizes_of dims !! j = Some s → s = 0.
Proof.
  intros Hpos. destruct dims as [|d ds]; [done|]. inversion Hpos; subst.
  simpl. destruct i as [|i]; simpl; [intros [= ?]; lia|].
  intros Hi Hij. destruct j as [|j]; [lia|]. simpl.
  eapply running_products_zero_from; [done|lia].
Qed.

(** * Size and CheckIndex *)

Lemma Size_last i_ s :
  Sizes i_ !! (length (Sizes i_) - 1)%nat = Some s → Size i_ = Return s.
Proof.
  unfold Size. destruct (length (Sizes i_)) eqn:E.
  - intros H. apply lookup_lt_Some in H. lia.
  - simpl. rewrite Nat.sub_0_r. apply index_get_Some.
Qed.

Lemma running_products_is_int a ds : Forall is_int (running_products a ds).
Proof.
  revert a. induction ds as [|d ds IH]; intros a; simpl; constructor;
    [apply wrap_is_int|apply IH].
Qed.

Lemma sizes_of_is_int dims : Forall is_int dims → Forall is_int (sizes_of dims).
Proof.
  destruct 1; simpl; constructor; [done|apply running_products_is_int].
Qed.

Lemma valid_Size i_ : valid i_ → ∃ s, Size i_ = Return s ∧ is_int s.
Proof.
  intros Hv. destruct (valid_inv _ Hv) as (Hne & Hall & HS & Hlen).
  destruct (lookup_lt_is_Some_2 (Sizes i_) (length (Sizes i_) - 1)) as [s Hs].
  { destruct (Dims i_); [done|]. simpl in Hlen. lia. }
  exists s. split; [by apply Size_last|].
  destruct Hv as [Hint _]. apply sizes_of_is_int in Hint. rewrite <-HS in Hint.
  by eapply Forall_lookup_1 in Hint.
Qed.

Lemma fits_Size i_ : valid i_ → fits i_ → Size i_ = Return (product (Dims i_)).
Proof.
  intros Hv Hf. destruct (valid_inv _ Hv) as (Hne & Hall & HS & Hlen).
  apply Size_last. rewrite HS, sizes_of_length.
  assert (Forall (λ d, 0 < d) (Dims i_)) as Hpos.
  { eapply Forall_impl; [done|]. simpl. lia. }
  destruct (lookup_lt_is_Some_2 (Dims i_) (length (Dims i_) - 1)) as [d Hd].
  { destruct (Dims i_); [done|]. simpl. lia. }
  rewrite (sizes_of_lookup _ _ d) by done.
  f_equal. f_equal. apply take_ge. lia.
Qed.

(** * Mixed-radix arithmetic over the integers *)

Lemma decode_length ds k : length (decode ds k) = length ds.
Proof. revert k. induction ds; intros; simpl; [done|by rewrite IHds]. Qed.

Lemma decode_in_bounds ds k : Forall (λ d, 0 < d) ds → in_bounds ds (decode ds k).
Proof.
  unfold in_bounds. intros H. revert k. induction H as [|d ds Hd Hds IH]; intros k; simpl.
  - constructor.
  - constructor; [|apply IH]. apply Z.mod_pos_bound. lia.
Qed.

Lemma encode_bounds ds p : in_bounds ds p → 0 ≤ encode ds p < product ds.
Proof.
  unfold in_bounds. induction 1 as [|v d p ds Hv Hp IH]; simpl; [lia|]. nia.
Qed.

Lemma encode_decode ds k :
  Forall (λ d, 0 < d) ds → 0 ≤ k < product ds → encode ds (decode ds k) = k.
Proof.
  intros H. revert k. induction H as [|d ds Hd Hds IH]; intros k Hk; simpl in *.
  - lia.
  - rewrite IH.
    + pose proof (Z.div_mod k d). lia.
    + split; [apply Z.div_pos; lia|]. apply Z.div_lt_upper_bound; lia.
Qed.

Lemma decode_encode ds p : in_bounds ds p → decode ds (encode ds p) = p.
Proof.
  unfold in_bounds. induction 1 as [|v d p ds Hv Hp IH]; simpl; [done|].
  f_equal.
  - replace (v + d * encode ds p) with (v + encode ds p * d) by lia.
    rewrite Z.mod_add by lia. apply Z.mod_small. lia.
  - replace (v + d * encode ds p) with (v + encode ds p * d) by lia.
    rewrite Z.div_add by lia. rewrite (Z.div_small v d) by lia.
    by rewrite Z.add_0_l.
Qed.

Lemma decode_zero ds : decode ds 0 = replicate (length ds) 0.
Proof.
  induction ds as [|d ds IH]; simpl; [done|].
  by rewrite Zmod_0_l, Zdiv_0_l, IH.
Qed.

Lemma decode_lookup ds : ∀ k i d,
  Forall (λ d, 0 < d) ds → ds !! i = Some d →
  decode ds k !! i = Some ((k `div` product (take i ds)) `mod` d).
Proof.
  induction ds as [|d0 ds IH]; intros k i d Hpos Hi; [done|].
  inversion Hpos; subst. destruct i as [|i]; simpl in *.
  - simplify_eq. by rewrite Z.div_1_r.
  - rewrite (IH _ _ d) by done. f_equal. f_equal.
    pose proof (product_take_le ds i ltac:(done)).
    rewrite Z.div_div by lia. done.
Qed.

Lemma decode_inj ds k1 k2 :
  Forall (λ d, 0 < d) ds → 0 ≤ k1 < product ds → 0 ≤ k2 < product ds →
  decode ds k1 = decode ds k2 → k1 = k2.
Proof.
  intros H H1 H2 Heq. rewrite <-(encode_decode ds k1), <-(encode_decode ds k2) by done.
  by rewrite Heq.
Qed.

Lemma encode_max ds : encode ds ((λ d, d - 1) <$> ds) = product ds - 1.
Proof.
  induction ds as [|d ds IH]; [done|].
  change (encode (d :: ds) ((λ d, d - 1) <$> d :: ds))
    with (d - 1 + d * encode ds ((λ d, d - 1) <$> ds)).
  rewrite IH. simpl. lia.
Qed.

Lemma decode_max ds :
  Forall (λ d, 0 < d) ds → decode ds (product ds - 1) = (λ d, d - 1) <$> ds.
Proof.
  intros H. rewrite <-encode_max. apply decode_encode.
  unfold in_bounds. induction H; simpl; constructor; [lia|done].
Qed.

(** * The running-size table modulo the word size *)

Lemma wrap_mul_l a b : wrap (wrap a * b) = wrap (a * b).
Proof.
  unfold wrap. f_equal.
  set (h := 2 ^ (int_bits - 1)). set (m := 2 ^ int_bits).
  replace (((a + h) `mod` m - h) * b + h)
    with ((a + h) `mod` m * b + (h - h * b)) by lia.
  rewrite <-Zplus_mod_idemp_l, Zmult_mod_idemp_l, Zplus_mod_idemp_l.
  f_equal. lia.
Qed.

Lemma wrap_mul_r a b : wrap (a * wrap b) = wrap (a * b).
Proof. rewrite (Z.mul_comm a), wrap_mul_l. f_equal. lia. Qed.

Lemma wrap_wrap a : wrap (wrap a) = wrap a.
Proof. apply wrap_id, wrap_is_int. Qed.

Lemma running_products_lookup_wrap ds : ∀ a i,
  (i < length ds)%nat →
  running_products (wrap a) ds !! i = Some (wrap (a * product (take (S i) ds))).
Proof.
  induction ds as [|d ds IH]; intros a i Hi; simpl in Hi; [lia|].
  cbn [running_products]. rewrite wrap_mul_l.
  destruct i as [|i].
  - simpl. do 2 f_equal. lia.
  - cbn [lookup list_lookup]. rewrite IH by lia.
    do 2 f_equal. simpl. lia.
Qed.

Lemma sizes_of_lookup_wrap dims i :
  Forall is_int dims → (i < length dims)%nat →
  sizes_of dims !! i = Some (wrap (product (take (S i) dims))).
Proof.
  intros Hint Hi. destruct dims as [|d ds]; [simpl in Hi; lia|].
  inversion Hint as [|? ? Hd Hds]; subst. destruct i as [|i].
  - simpl. rewrite Z.mul_1_r. by rewrite wrap_id.
  - cbn [sizes_of lookup list_lookup]. rewrite <-(wrap_id d) at 1 by done.
    rewrite running_products_lookup_wrap by (simpl in Hi; lia). done.
Qed.

(** * IndexFast *)

Lemma Zsum_app l1 l2 : Zsum (l1 ++ l2) = Zsum l1 + Zsum l2.
Proof. induction l1; simpl; lia. Qed.

Lemma IndexFast_loop_spec i_ point : ∀ n i a,
  (1 ≤ i)%nat → (i + n ≤ length point)%nat → (i + n ≤ S (length (Sizes i_)))%nat →
  IndexFast_loop i_ point n i (wrap a) =
  Return (wrap (a + Zsum ((λ j, point !!! j * Sizes i_ !!! (j - 1)%nat) <$> seq i n))).
Proof.
  induction n as [|n IH]; intros i a Hi Hp Hs.
  - simpl. by rewrite Z.add_0_r.
  - cbn [IndexFast_loop].
    rewrite (index_get_Some point i (point !!! i))
      by (apply list_lookup_lookup_total_lt; lia).
    cbn [mbind go_bind].
    rewrite (index_get_Some (Sizes i_) (i - 1) (Sizes i_ !!! (i - 1)%nat))
      by (apply list_lookup_lookup_total_lt; lia).
    cbn [mbind go_bind].
    rewrite wrap_add_l, wrap_add_r.
    rewrite <-wrap_wrap. rewrite wrap_wrap.
    rewrite IH by lia. cbn [seq fmap list_fmap Zsum foldr].
    do 2 f_equal. unfold Zsum. lia.
Qed.

Lemma IndexFast_spec i_ point :
  valid i_ → in_bounds (Dims i_) point →
  IndexFast i_ point = Return (wrap (index_formula i_ point)).
Proof.
  intros Hv Hb. destruct (valid_inv _ Hv) as (Hne & Hall & HS & Hlen).
  pose proof (Forall2_length _ _ _ Hb) as Hpl.
  unfold IndexFast, index_formula.
  destruct point as [|v point]; [by destruct (Dims i_)|].
  cbn [index_get lookup list_lookup mbind go_bind].
  assert (is_int v) as Hv0.
  { destruct (Dims i_) as [|d ds]; [done|]. inversion Hb; subst.
    inversion Hall; subst. unfold is_int, MinInt, int_bits. simpl. lia. }
  rewrite <-(wrap_id v) at 2 by done.
  rewrite IndexFast_loop_spec; [done|lia|simpl in *; lia|lia].
Qed.

Lemma weighted_sum_encode ds : ∀ p m,
  length p = length ds →
  Zsum ((λ j, p !!! j * (m * product (take j ds))) <$> seq 0 (length ds))
  = m * encode ds p.
Proof.
  induction ds as [|d ds IH]; intros p m Hlen.
  - simpl. lia.
  - destruct p as [|v p]; [done|]. simpl in Hlen.
    cbn [length seq fmap list_fmap Zsum foldr encode].
    rewrite <-fmap_S_seq, <-list_fmap_compose.
    change (foldr Z.add 0 ?l) with (Zsum l).
    transitivity (v * m + Zsum ((λ j, p !!! j * (m * d * product (take j ds)))
                                  <$> seq 0 (length ds))).
    + f_equal; [simpl; lia|]. f_equal.
      apply list_fmap_ext. intros _ j _. simpl. f_equal. lia.
    + rewrite IH by lia. ring.
Qed.

Lemma Zsum_wrap_ext {A} (f g : A → Z) l a :
  (∀ x, x ∈ l → wrap (f x) = wrap (g x)) →
  wrap (a + Zsum (f <$> l)) = wrap (a + Zsum (g <$> l)).
Proof.
  revert a. induction l as [|x l IH]; intros a Hfg; [done|].
  cbn [fmap list_fmap Zsum foldr]. change (foldr Z.add 0 ?l) with (Zsum l).
  rewrite !Z.add_assoc. rewrite IH by (intros; apply Hfg; by right).
  rewrite <-wrap_add_l, <-(wrap_add_r a), (Hfg x) by left.
  by rewrite wrap_add_r, wrap_add_l.
Qed.

(** The index is the mixed-radix value of the point, reduced to an [int]. *)
Lemma index_formula_encode i_ point :
  valid i_ → in_bounds (Dims i_) point →
  wrap (index_formula i_ point) = wrap (encode (Dims i_) point).
Proof.
  intros Hv Hb. destruct (valid_inv _ Hv) as (Hne & Hall & HS & Hlen).
  pose proof (Forall2_length _ _ _ Hb) as Hpl.
  rewrite <-(Z.mul_1_l (encode _ _)).
  rewrite <-weighted_sum_encode by done.
  unfold index_formula.
  destruct (Dims i_) as [|d ds] eqn:HD; [done|].
  rewrite Hlen. cbn [length seq fmap list_fmap Zsum foldr].
  replace (S (length ds) - 1)%nat with (length ds) by lia.
  cbn [take product foldr].
  change (foldr Z.add 0 ?l) with (Zsum l).
  rewrite !Z.mul_1_r. apply Zsum_wrap_ext.
  intros j Hj. apply elem_of_seq in Hj.
  rewrite HS.
  rewrite (list_lookup_total_correct (sizes_of _) _
             (wrap (product (take (S (j - 1)) (d :: ds))))).
  2:{ apply sizes_of_lookup_wrap; [by destruct Hv as [Hv _]; rewrite HD in Hv|simpl; lia]. }
  rewrite wrap_mul_r. replace (S (j - 1)) with j by lia. f_equal. lia.
Qed.

Lemma IndexSafe_spec i_ point :
  valid i_ → in_bounds (Dims i_) point →
  IndexSafe i_ point = Return (wrap (encode (Dims i_) point), None).
Proof.
  intros Hv Hb. unfold IndexSafe.
  rewrite (proj2 (valid_CheckPoint _ _ Hv) Hb). cbn [mbind go_bind].
  rewrite IndexFast_spec by done. cbn [mbind go_bind].
  by rewrite index_formula_encode.
Qed.

Lemma IndexSafe_fits i_ point :
  valid i_ → fits i_ → in_bounds (Dims i_) point →
  IndexSafe i_ point = Return (encode (Dims i_) point, None).
Proof.
  intros Hv Hf Hb. rewrite IndexSafe_spec by done.
  rewrite wrap_id; [done|]. pose proof (encode_bounds _ _ Hb).
  unfold fits in Hf. unfold is_int, MinInt, int_bits. simpl. lia.
Qed.

(** * PointSafe *)

Lemma mod_mul_div a b c : 0 < b → 0 < c → (a `mod` (b * c)) `div` b = (a `div` b) `mod` c.
Proof.
  intros Hb Hc. rewrite Z.rem_mul_r by lia.
  rewrite (Z.mul_comm b), Z.div_add by lia.
  rewrite (Z.div_small (a `mod` b)) by (apply Z.mod_pos_bound; lia). lia.
Qed.

Lemma mod_mul_mod a b c : 0 < b → 0 < c → (a `mod` (b * c)) `mod` b = a `mod` b.
Proof.
  intros Hb Hc. rewrite Z.rem_mul_r by lia.
  rewrite (Z.mul_comm b), Z.mod_add by lia. apply Z.mod_mod. lia.
Qed.

Lemma PointSafe_loop_fits i_ k :
  valid i_ → fits i_ → 0 ≤ k < product (Dims i_) →
  ∀ i, (i < length (Dims i_))%nat →
  PointSafe_loop i_ i (replicate (S i) 0 ++ drop (S i) (decode (Dims i_) k))
                 (k `mod` product (take (S i) (Dims i_)))
  = Return (0 :: drop 1 (decode (Dims i_) k), k `mod` product (take 1 (Dims i_))).
Proof.
  intros Hv Hf Hk. destruct (valid_inv _ Hv) as (Hne & Hall & HS & Hlen).
  assert (Forall (λ d, 0 < d) (Dims i_)) as Hpos.
  { eapply Forall_impl; [done|]. simpl. lia. }
  induction i as [|i IH]; intros Hi; [done|].
  destruct (lookup_lt_is_Some_2 (Dims i_) i) as [d' Hd']; [lia|].
  destruct (lookup_lt_is_Some_2 (Dims i_) (S i)) as [d Hd]; [lia|].
  pose proof (Forall_lookup_1 _ _ _ _ Hall Hd) as Hdb. simpl in Hdb.
  set (P := product (take (S i) (Dims i_))).
  assert (0 < P) as HP by (apply product_take_le; done).
  assert (product (take (S (S i)) (Dims i_)) = P * d) as HPS
    by (by apply product_take_S).
  cbn [PointSafe_loop].
  rewrite (index_get_Some _ _ P).
  2:{ rewrite HS. by apply (sizes_of_lookup _ _ d'). }
  cbn [mbind go_bind]. rewrite HPS.
  assert (0 ≤ k `mod` (P * d)) as Hm by (apply Z.mod_pos_bound; lia).
  unfold int_div, int_rem. rewrite !decide_False by lia. cbn [mbind go_bind].
  rewrite Z.quot_div_nonneg, Z.rem_mod_nonneg by lia.
  rewrite mod_mul_div, mod_mul_mod by lia.
  assert (0 ≤ (k `div` P) `mod` d < d) as Hq by (apply Z.mod_pos_bound; lia).
  rewrite wrap_id by (unfold is_int, MinInt, int_bits; simpl; lia).
  rewrite index_set_lt.
  2:{ rewrite length_app, length_replicate, length_drop, decode_length. lia. }
  cbn [mbind go_bind].
  replace (<[S i:=(k `div` P) `mod` d]>
             (replicate (S (S i)) 0 ++ drop (S (S i)) (decode (Dims i_) k)))
    with (replicate (S i) 0 ++ drop (S i) (decode (Dims i_) k)).
  { apply IH. lia. }
  rewrite (replicate_S_end (S i)), <-app_assoc. cbn [app].
  rewrite <-(length_replicate (S i) 0) at 3. rewrite insert_app_middle.
  f_equal. apply drop_S. by apply decode_lookup.
Qed.

Lemma CheckIndex_None i_ k size :
  Size i_ = Return size →
  CheckIndex i_ k = Return None ↔ 0 ≤ k < size.
Proof.
  intros HS. unfold CheckIndex. destruct (Z.ltb_spec k 0).
  - split; [done|lia].
  - rewrite HS. cbn. destruct (Z.geb_spec k size); split; (done || lia).
Qed.

Lemma CheckIndex_total i_ k size :
  Size i_ = Return size → ∃ r, CheckIndex i_ k = Return r.
Proof.
  intros HS. unfold CheckIndex. destruct (k <? 0); [by eexists|].
  rewrite HS. cbn. destruct (k >=? size); by eexists.
Qed.

Lemma PointSafe_fits i_ k :
  valid i_ → fits i_ → 0 ≤ k < product (Dims i_) →
  PointSafe i_ k = Return (decode (Dims i_) k, None).
Proof.
  intros Hv Hf Hk. destruct (valid_inv _ Hv) as (Hne & Hall & HS & Hlen).
  unfold PointSafe.
  rewrite (proj2 (CheckIndex_None i_ k _ (fits_Size _ Hv Hf)) Hk).
  cbn [mbind go_bind]. rewrite length_replicate.
  assert (∃ n, length (Dims i_) = S n) as [n Hn].
  { destruct (Dims i_); [done|]. by eexists. }
  pose proof (PointSafe_loop_fits i_ k Hv Hf Hk n) as HL.
  rewrite Hn. replace (S n - 1)%nat with n by lia.
  rewrite drop_ge, app_nil_r in HL by (rewrite decode_length; lia).
  rewrite (take_ge (Dims i_)), Z.mod_small in HL by lia.
  rewrite HL by lia. cbn [mbind go_bind].
  rewrite index_set_lt by (simpl; lia). cbn [mbind go_bind].
  destruct (Dims i_) as [|d ds]; [done|]. cbn. rewrite take_0. simpl.
  by rewrite Z.mul_1_r.
Qed.

Lemma PointSafe_loop_total i_ : ∀ i p idx,
  (i < length p)%nat → (i ≤ length (Sizes i_))%nat →
  (∀ j, (j < i)%nat → Sizes i_ !! j ≠ Some 0) →
  ∃ p' idx', PointSafe_loop i_ i p idx = Return (p', idx') ∧ length p' = length p.
Proof.
  induction i as [|i IH]; intros p idx Hp Hs Hnz; [by eexists _, _|].
  cbn [PointSafe_loop].
  destruct (lookup_lt_is_Some_2 (Sizes i_) i) as [s Hsi]; [lia|].
  rewrite (index_get_Some _ _ s Hsi). cbn [mbind go_bind].
  assert (s ≠ 0) as Hs0. { intros ->. by apply (Hnz i); [lia|]. }
  unfold int_div, int_rem. rewrite !decide_False by done. cbn [mbind go_bind].
  rewrite index_set_lt by lia. cbn [mbind go_bind].
  destruct (IH (<[S i:=wrap (idx `quot` s)]> p) (idx `rem` s)) as (p' & idx' & -> & Hl).
  - rewrite length_insert. lia.
  - lia.
  - intros j Hj. apply Hnz. lia.
  - eexists _, _. split; [done|]. by rewrite Hl, length_insert.
Qed.

(** For a valid Interpreter [PointSafe] never panics; without an error the
    index was in range and the point has one entry per dimension. *)
Lemma PointSafe_total i_ k :
  valid i_ →
  ∃ p e, PointSafe i_ k = Return (p, e) ∧
    (e = None → length p = length (Dims i_) ∧
                ∃ size, Size i_ = Return size ∧ 0 ≤ k < size).
Proof.
  intros Hv. destruct (valid_inv _ Hv) as (Hne & Hall & HS & Hlen).
  destruct (valid_Size _ Hv) as (size & Hsize & _).
  unfold PointSafe.
  destruct (CheckIndex_total i_ k size Hsize) as [[e|] Hc]; rewrite Hc; cbn [mbind go_bind].
  { eexists _, _. split; [done|]. done. }
  apply (CheckIndex_None _ _ _ Hsize) in Hc.
  destruct (PointSafe_loop_total i_ (length (replicate (length (Dims i_)) 0) - 1)
              (replicate (length (Dims i_)) 0) k) as (p' & idx' & Hl & Hlen').
  - rewrite length_replicate. destruct (Dims i_); [done|]. simpl. lia.
  - rewrite length_replicate. lia.
  - rewrite length_replicate. intros j Hj Hz.
    assert (size = 0); [|lia].
    unfold Size in Hsize. rewrite Hlen in Hsize.
    destruct (length (Dims i_)) as [|n] eqn:E; [done|].
    unfold index_get in Hsize. destruct (Sizes i_ !! n) as [s|] eqn:Hn; [|done].
    injection Hsize as <-. rewrite HS in Hz, Hn.
    eapply (sizes_of_zero_from (Dims i_) j n); [|done| |done]; [|lia].
    eapply Forall_impl; [done|]. simpl. lia.
  - rewrite Hl. cbn [mbind go_bind].
    rewrite index_set_lt.
    2:{ rewrite Hlen', length_replicate. destruct (Dims i_); [done|]. simpl. lia. }
    cbn [mbind go_bind]. eexists _, _. split; [done|]. intros _. split.
    + by rewrite length_insert, Hlen', length_replicate.
    + by exists size.
Qed.

(** * Increment *)

Lemma IncrementFast_loop_spec i_ ds : ∀ pre dpre k,
  Dims i_ = dpre ++ ds → length pre = length dpre → ds ≠ [] →
  Forall (λ d, 0 < d ≤ MaxInt) ds → 0 ≤ k < product ds →
  IncrementFast_loop i_ (length ds) (length pre) (pre ++ decode ds k)
  = Return (pre ++ decode ds ((k + 1) `mod` product ds),
            bool_decide (k + 1 < product ds)).
Proof.
  induction ds as [|d ds IH]; intros pre dpre k HD Hlen Hne Hall Hk; [done|].
  inversion Hall as [|? ? Hd Hds]; subst.
  assert (0 < product ds) as HP.
  { apply product_pos. eapply Forall_impl; [done|]. simpl. lia. }
  cbn [product foldr] in Hk. change (foldr Z.mul 1 ds) with (product ds) in Hk.
  pose proof (Z.mod_pos_bound k d ltac:(lia)) as Hv.
  pose proof (Z.div_mod k d ltac:(lia)) as Hkd.
  assert (0 ≤ k `div` d < product ds) as Hq.
  { split; [apply Z.div_pos; lia|apply Z.div_lt_upper_bound; lia]. }
  cbn [IncrementFast_loop length decode].
  rewrite (index_get_Some (pre ++ _) _ (k `mod` d)) by apply lookup_app_middle.
  cbn [mbind go_bind].
  rewrite index_set_lt by (rewrite length_app; simpl; lia).
  cbn [mbind go_bind]. rewrite insert_app_middle.
  rewrite (index_get_Some (Dims i_) _ d)
    by (rewrite HD, Hlen; apply lookup_app_middle).
  cbn [mbind go_bind].
  rewrite wrap_id by (unfold is_int, MinInt, int_bits; simpl; lia).
  cbn [product foldr]. change (foldr Z.mul 1 ds) with (product ds).
  destruct (Z.ltb_spec (k `mod` d + 1) d) as [Hlt|Hge].
  - (* no carry *)
    assert (k + 1 < d * product ds) as Hk1 by nia.
    rewrite (Z.mod_small (k + 1)) by lia. rewrite bool_decide_true by done.
    assert ((k + 1) `mod` d = k `mod` d + 1) as ->.
    { replace (k + 1) with (k `mod` d + 1 + (k `div` d) * d) by lia.
      rewrite Z.mod_add by lia. apply Z.mod_small. lia. }
    assert ((k + 1) `div` d = k `div` d) as ->.
    { replace (k + 1) with (k `mod` d + 1 + (k `div` d) * d) by lia.
      rewrite Z.div_add by lia. rewrite (Z.div_small (k `mod` d + 1)) by lia. lia. }
    done.
  - (* carry into the next axis *)
    assert (k + 1 = d * (k `div` d + 1)) as Hk1 by lia.
    rewrite index_set_lt by (rewrite length_app; simpl; lia).
    cbn [mbind go_bind]. rewrite insert_app_middle.
    rewrite Hk1, Z.mul_mod_distr_l by lia.
    rewrite (Z.mul_comm d (_ `mod` _)), Z.mod_mul, Z.div_mul by lia.
    destruct ds as [|d' ds'].
    + rewrite decide_True by (rewrite HD, length_app; simpl; lia).
      cbn [product foldr decode] in *. rewrite bool_decide_false by lia. done.
    + rewrite decide_False by (rewrite HD, length_app; simpl; lia).
      rewrite (cons_middle 0 pre), app_assoc.
      replace (S (length pre)) with (length (pre ++ [0]))
        by (rewrite length_app; simpl; lia).
      rewrite (IH (pre ++ [0]) (dpre ++ [d]) (k `div` d)); try done.
      * rewrite <-app_assoc. do 2 f_equal.
        apply bool_decide_ext. nia.
      * by rewrite <-app_assoc.
      * rewrite !length_app. simpl. lia.
Qed.

Lemma IncrementFast_spec i_ point :
  valid i_ → in_bounds (Dims i_) point →
  IncrementFast i_ point =
  Return (decode (Dims i_) ((encode (Dims i_) point + 1) `mod` product (Dims i_)),
          bool_decide (encode (Dims i_) point + 1 < product (Dims i_))).
Proof.
  intros Hv Hb. destruct (valid_inv _ Hv) as (Hne & Hall & HS & Hlen).
  unfold IncrementFast.
  rewrite <-(decode_encode _ _ Hb) at 1.
  apply (IncrementFast_loop_spec i_ (Dims i_) [] []); try done.
  by apply encode_bounds.
Qed.

Lemma IncrementSafe_spec i_ point :
  valid i_ → in_bounds (Dims i_) point →
  IncrementSafe i_ point =
  Return (decode (Dims i_) ((encode (Dims i_) point + 1) `mod` product (Dims i_)),
          bool_decide (encode (Dims i_) point + 1 < product (Dims i_)), None).
Proof.
  intros Hv Hb. unfold IncrementSafe.
  rewrite (proj2 (valid_CheckPoint _ _ Hv) Hb). cbn [mbind go_bind].
  by rewrite IncrementFast_spec.
Qed.

(** For a valid Interpreter [IncrementSafe] never panics, and without an
    error the point is again within bounds. *)
Lemma IncrementSafe_total i_ point :
  valid i_ →
  ∃ p b e, IncrementSafe i_ point = Return (p, b, e) ∧
    (e = None → in_bounds (Dims i_) point ∧ in_bounds (Dims i_) p).
Proof.
  intros Hv. destruct (valid_inv _ Hv) as (Hne & Hall & HS & Hlen).
  destruct (CheckPoint_total i_ point Hlen) as [[e|] Hc].
  - unfold IncrementSafe. rewrite Hc. cbn. by eexists _, _, _.
  - apply valid_CheckPoint in Hc; [|done].
    rewrite IncrementSafe_spec by done. eexists _, _, _. split; [done|].
    intros _. split; [done|]. apply decode_in_bounds.
    eapply Forall_impl; [done|]. simpl. lia.
Qed.

(** * The constructor *)

(** C7, as stated, fails on the all-positive vector [[2^62; 4]]: the
    constructor succeeds, but the second entry of [Sizes] is 0, the product
    [2^62 * 4 = 2^64] wrapped around, and not the cumulative product
    [2^64] of the two dimensions. *)
Lemma NewInterpreterSafe_overflow_counterexample :
  Forall is_int [2 ^ 62; 4] ∧ Forall (λ d, 0 < d) [2 ^ 62; 4] ∧
  NewInterpreterSafe [2 ^ 62; 4]
    = Return (mkInterpreter [2 ^ 62; 4] [2 ^ 62; 0], None) ∧
  Sizes (mkInterpreter [2 ^ 62; 4] [2 ^ 62; 0]) !! 1%nat = Some 0 ∧
  product (take 2 [2 ^ 62; 4]) = 2 ^ 64 ∧
  0 ≠ 2 ^ 64.
Proof.
  split_and!; try reflexivity; try discriminate.
  - repeat constructor; vm_compute; discriminate.
  - repeat constructor.
Qed.

(** C7, amended: [NewInterpreterSafe] returns [ErrZeroDims] exactly when the
    vector is empty; it returns a [DimsValueError] naming axis [a] exactly
    when [a] is the first axis with an entry [≤ 0]; it returns no other
    error; on a non-empty vector of positive entries it succeeds with
    [Sizes[0] = Dims[0]] and [Sizes[i] = Sizes[i-1] * Dims[i]] as the machine
    multiplies, with wrap-around, and these are the cumulative products of
    [Dims] when the product of all the dimensions fits an [int].
    [[1;0;2]] is rejected at axis 1 and [[]] with [ErrZeroDims]. *)
Theorem NewInterpreterSafe_correct (dims : list Z) :
  Forall is_int dims →
  ((∃ i, NewInterpreterSafe dims = Return (i, Some ErrZeroDims)) ↔ dims = []) ∧
  (∀ a : nat,
     (∃ i, NewInterpreterSafe dims
           = Return (i, Some (DimsValueError dims (Z.of_nat a))))
     ↔ first_nonpositive dims a) ∧
  (∀ i e, NewInterpreterSafe dims = Return (i, Some e) →
     e = ErrZeroDims ∨ ∃ a : nat, e = DimsValueError dims (Z.of_nat a)) ∧
  (dims ≠ [] → Forall (λ d, 0 < d) dims →
     ∃ i, NewInterpreterSafe dims = Return (i, None) ∧ Dims i = dims ∧
       length (Sizes i) = length dims ∧
       Sizes i !! 0%nat = dims !! 0%nat ∧
       (∀ n s d, Sizes i !! n = Some s → dims !! S n = Some d →
          Sizes i !! S n = Some (wrap (s * d))) ∧
       (product dims ≤ MaxInt → ∀ n, (n < length dims)%nat →
          Sizes i !! n = Some (product (take (S n) dims)))) ∧
  NewInterpreterSafe [1; 0; 2]
    = Return (Interpreter_zero, Some (DimsValueError [1; 0; 2] 1)) ∧
  NewInterpreterSafe [] = Return (Interpreter_zero, Some ErrZeroDims).
Proof.
  intros Hint. rewrite NewInterpreterSafe_eq.
  split_and!; [| | | |done|done].
  - split.
    + intros [i Hi]. destruct dims as [|d ds]; [done|].
      destruct (dims_scan 0 (d :: ds)); simplify_eq.
    + by intros ->; eexists.
  - intros a. split.
    + intros [i Hi]. destruct dims as [|d ds]; [simplify_eq|].
      destruct (dims_scan 0 (d :: ds)) as [j|] eqn:Hscan; simplify_eq.
      apply dims_scan_Some in Hscan as [_ Hscan].
      by replace (a - 0)%nat with a in Hscan by lia.
    + intros Hfirst. destruct dims as [|d ds].
      { by destruct Hfirst as [(? & ? & ?) _]. }
      assert (dims_scan 0 (d :: ds) = Some a) as ->.
      { apply dims_scan_Some. split; [lia|].
        by replace (a - 0)%nat with a by lia. }
      by eexists.
  - intros i e He. destruct dims as [|d ds]; [left; by simplify_eq|].
    destruct (dims_scan 0 (d :: ds)) as [j|]; simplify_eq. right. by eexists.
  - intros Hne Hpos. destruct dims as [|d ds]; [done|].
    rewrite (proj2 (dims_scan_None 0 (d :: ds)) Hpos).
    eexists. split; [done|]. cbn [Dims Sizes].
    split_and!; [done|by rewrite sizes_of_length|done| |].
    + intros n s d' Hs Hd.
      assert (n < length (d :: ds))%nat as Hn.
      { apply lookup_lt_Some in Hd. lia. }
      rewrite sizes_of_lookup_wrap in Hs by (done || lia).
      rewrite sizes_of_lookup_wrap by (done || (apply lookup_lt_Some in Hd; lia)).
      simplify_eq. rewrite wrap_mul_l.
      by rewrite (product_take_S _ (S n) d').
    + intros Hfit n Hn. destruct (lookup_lt_is_Some_2 _ _ Hn) as [x Hx].
      by eapply sizes_of_lookup.
Qed.

Lemma NewInterpreterSafe_correct_witness :
  Forall is_int [2; 3; 4] ∧
  ∃ i, NewInterpreterSafe [2; 3; 4] = Return (i, None) ∧ Dims i = [2; 3; 4] ∧
       Sizes i !! 2%nat = Some 24.
Proof.
  assert (Forall is_int [2; 3; 4]) as Hint.
  { repeat constructor; vm_compute; discriminate. }
  split; [exact Hint|].
  destruct (NewInterpreterSafe_correct [2; 3; 4] Hint) as (_ & _ & _ & H & _).
  destruct H as (i & Hi & HD & _ & _ & _ & HS);
    [discriminate|repeat constructor; lia|].
  exists i. split; [exact Hi|]. split; [exact HD|].
  apply (HS ltac:(vm_compute; discriminate) 2%nat). simpl. lia.
Defined.

(** * Increase by zero, failing increments *)

(** C9: whatever the Interpreter and the point, [IncreaseBySafe] with a
    change of 0 returns [(true, nil)] and the point as it was given: nothing
    is validated. *)
Theorem IncreaseBySafe_zero (i_ : Interpreter) (p : list Z) :
  IncreaseBySafe i_ p 0 = Return (p, true, None).
Proof. reflexivity. Qed.

(** C10: when [CheckPoint] returns the error [e] for [p], [IncrementSafe]
    and [DecrementSafe] both return [(false, e)] and leave [p] as it was. *)
Theorem IncrementSafe_DecrementSafe_atomic (i_ : Interpreter) (p : list Z)
    (e : error) :
  CheckPoint i_ p = Return (Some e) →
  IncrementSafe i_ p = Return (p, false, Some e) ∧
  DecrementSafe i_ p = Return (p, false, Some e).
Proof.
  intros Hc. unfold IncrementSafe, DecrementSafe. by rewrite Hc.
Qed.

Lemma IncrementSafe_DecrementSafe_atomic_witness :
  CheckPoint (mkInterpreter [2; 3] [2; 6]) [0; 5]
    = Return (Some (PointOutOfBoundsError [0; 5] [2; 3] 1)) ∧
  IncrementSafe (mkInterpreter [2; 3] [2; 6]) [0; 5]
    = Return ([0; 5], false, Some (PointOutOfBoundsError [0; 5] [2; 3] 1)) ∧
  DecrementSafe (mkInterpreter [2; 3] [2; 6]) [0; 5]
    = Return ([0; 5], false, Some (PointOutOfBoundsError [0; 5] [2; 3] 1)).
Proof.
  split; [reflexivity|].
  apply (IncrementSafe_DecrementSafe_atomic (mkInterpreter [2; 3] [2; 6]) [0; 5]).
  reflexivity.
Defined.

(** * Index of a point *)

Lemma index_formula_fits i_ point :
  valid i_ → fits i_ → in_bounds (Dims i_) point →
  index_formula i_ point = encode (Dims i_) point.
Proof.
  intros Hv Hf Hb. destruct (valid_inv _ Hv) as (Hne & Hall & HS & Hlen).
  pose proof (Forall2_length _ _ _ Hb) as Hpl.
  rewrite <-(Z.mul_1_l (encode _ _)).
  rewrite <-weighted_sum_encode by done.
  unfold index_formula, fits in *.
  destruct (Dims i_) as [|d ds] eqn:HD; [done|].
  rewrite Hlen. cbn [length seq fmap list_fmap Zsum foldr].
  replace (S (length ds) - 1)%nat with (length ds) by lia.
  cbn [take product foldr].
  change (foldr Z.add 0 ?l) with (Zsum l).
  rewrite !Z.mul_1_r. f_equal. f_equal.
  apply list_fmap_ext. intros i j Hj%lookup_seq. destruct Hj as [-> Hi].
  rewrite HS. replace (1 + i - 1)%nat with i by lia.
  destruct (lookup_lt_is_Some_2 (d :: ds) i ltac:(simpl; lia)) as [x Hx].
  rewrite (list_lookup_total_correct (sizes_of _) _
             (product (take (S i) (d :: ds)))).
  2:{ eapply sizes_of_lookup; [|done|done].
      eapply Forall_impl; [done|]. simpl. lia. }
  replace (1 + i)%nat with (S i) by lia. f_equal. lia.
Qed.

(** C3, as stated, fails when the number of points does not fit an [int]:
    on the shape [[2^62; 4]], whose running-size table is [[2^62; 0]], the
    point [[0; 3]] passes [CheckPoint] and [p[0] + p[1] * Sizes[0]] is
    [3 * 2^62], which is also its mixed-radix value, but [IndexSafe] returns
    [- 2^62]. *)
Lemma IndexSafe_overflow_counterexample :
  valid (mkInterpreter [2 ^ 62; 4] [2 ^ 62; 0]) ∧
  CheckPoint (mkInterpreter [2 ^ 62; 4] [2 ^ 62; 0]) [0; 3] = Return None ∧
  IndexSafe (mkInterpreter [2 ^ 62; 4] [2 ^ 62; 0]) [0; 3]
    = Return (- 2 ^ 62, None) ∧
  index_formula (mkInterpreter [2 ^ 62; 4] [2 ^ 62; 0]) [0; 3] = 3 * 2 ^ 62 ∧
  encode [2 ^ 62; 4] [0; 3] = 3 * 2 ^ 62 ∧
  - 2 ^ 62 ≠ 3 * 2 ^ 62.
Proof.
  split_and!; try reflexivity; try discriminate.
  split; [repeat constructor; vm_compute; discriminate|reflexivity].
Qed.

(** C3, amended: for a point that passes [CheckPoint], [IndexSafe] returns
    [p[0] + Σ_{i=1}^{N-1} p[i] * Sizes[i-1]] as the machine adds and
    multiplies, with wrap-around, without an error; when the number of
    points fits an [int] it returns that sum over the integers, which is the
    mixed-radix value of the point, dimension 0 least significant.  For the
    shape [[2;3;4]], [IndexSafe [0;1;2]] is 14 and [PointSafe 23] is
    [[1;2;3]]. *)
Theorem IndexSafe_formula (i_ : Interpreter) (p : list Z) :
  valid i_ → CheckPoint i_ p = Return None →
  IndexSafe i_ p = Return (wrap (index_formula i_ p), None) ∧
  (fits i_ →
     IndexSafe i_ p = Return (index_formula i_ p, None) ∧
     index_formula i_ p = encode (Dims i_) p) ∧
  ∃ i234, NewInterpreterSafe [2; 3; 4] = Return (i234, None) ∧
    IndexSafe i234 [0; 1; 2] = Return (14, None) ∧
    PointSafe i234 23 = Return ([1; 2; 3], None).
Proof.
  intros Hv Hc. apply valid_CheckPoint in Hc; [|done].
  split_and!.
  - rewrite IndexSafe_spec by done. by rewrite index_formula_encode.
  - intros Hf. rewrite index_formula_fits by done.
    by rewrite IndexSafe_fits.
  - by eexists.
Qed.

Lemma IndexSafe_formula_witness :
  valid (mkInterpreter [2; 3; 4] [2; 6; 24]) ∧
  CheckPoint (mkInterpreter [2; 3; 4] [2; 6; 24]) [1; 2; 3] = Return None ∧
  IndexSafe (mkInterpreter [2; 3; 4] [2; 6; 24]) [1; 2; 3]
    = Return (wrap (index_formula (mkInterpreter [2; 3; 4] [2; 6; 24]) [1; 2; 3]), None).
Proof.
  assert (valid (mkInterpreter [2; 3; 4] [2; 6; 24])) as Hv.
  { split; [repeat constructor; vm_compute; discriminate|reflexivity]. }
  split; [exact Hv|]. split; [reflexivity|].
  exact (proj1 (IndexSafe_formula (mkInterpreter [2; 3; 4] [2; 6; 24])
                  [1; 2; 3] Hv eq_refl)).
Defined.

(** * The round trip between indices and points *)

(** C2, as stated, fails when the number of points does not fit an [int]:
    the shape [[2^62; 4]] is accepted, its running-size table is
    [[2^62; 0]], the point [[0; 1]] passes [CheckPoint] and has index
    [2^62], and [PointSafe] rejects that index with [ErrIndexSize]. *)
Lemma roundtrip_overflow_counterexample :
  valid (mkInterpreter [2 ^ 62; 4] [2 ^ 62; 0]) ∧
  NewInterpreterSafe [2 ^ 62; 4]
    = Return (mkInterpreter [2 ^ 62; 4] [2 ^ 62; 0], None) ∧
  CheckPoint (mkInterpreter [2 ^ 62; 4] [2 ^ 62; 0]) [0; 1] = Return None ∧
  IndexSafe (mkInterpreter [2 ^ 62; 4] [2 ^ 62; 0]) [0; 1]
    = Return (2 ^ 62, None) ∧
  PointSafe (mkInterpreter [2 ^ 62; 4] [2 ^ 62; 0]) (2 ^ 62)
    = Return ([], Some ErrIndexSize).
Proof.
  split_and!; try reflexivity.
  split; [repeat constructor; vm_compute; discriminate|reflexivity].
Qed.

(** C2, amended: when the number of points fits an [int], for every index
    [k] in [[0, Size())] [PointSafe k] returns a point without an error, the
    point passes [CheckPoint] and [IndexSafe] maps it back to [k] without an
    error; and for every point [p] that passes [CheckPoint], [IndexSafe p]
    returns an index in [[0, Size())] without an error and [PointSafe] maps it
    back to [p] without an error. *)
Theorem Index_Point_bijection (i_ : Interpreter) :
  valid i_ → fits i_ →
  ∃ size, Size i_ = Return size ∧
    (∀ k, 0 ≤ k < size →
       ∃ p, PointSafe i_ k = Return (p, None) ∧
            CheckPoint i_ p = Return None ∧
            IndexSafe i_ p = Return (k, None)) ∧
    (∀ p, CheckPoint i_ p = Return None →
       ∃ k, IndexSafe i_ p = Return (k, None) ∧ 0 ≤ k < size ∧
            PointSafe i_ k = Return (p, None)).
Proof.
  intros Hv Hf. destruct (valid_inv _ Hv) as (Hne & Hall & HS & Hlen).
  assert (Forall (λ d, 0 < d) (Dims i_)) as Hpos.
  { eapply Forall_impl; [done|]. simpl. lia. }
  exists (product (Dims i_)). split; [by apply fits_Size|]. split.
  - intros k Hk. exists (decode (Dims i_) k).
    pose proof (decode_in_bounds (Dims i_) k Hpos) as Hb.
    split_and!.
    + by apply PointSafe_fits.
    + by apply valid_CheckPoint.
    + rewrite IndexSafe_fits by done. by rewrite encode_decode.
  - intros p Hc. apply valid_CheckPoint in Hc; [|done].
    exists (encode (Dims i_) p). split; [|split].
    + by apply IndexSafe_fits.
    + by apply encode_bounds.
    + rewrite PointSafe_fits by (done || by apply encode_bounds).
      by rewrite decode_encode.
Qed.

Lemma Index_Point_bijection_witness :
  valid (mkInterpreter [2; 3; 4] [2; 6; 24]) ∧
  fits (mkInterpreter [2; 3; 4] [2; 6; 24]) ∧
  ∃ size, Size (mkInterpreter [2; 3; 4] [2; 6; 24]) = Return size ∧
    (∀ k, 0 ≤ k < size →
       ∃ p, PointSafe (mkInterpreter [2; 3; 4] [2; 6; 24]) k = Return (p, None) ∧
            CheckPoint (mkInterpreter [2; 3; 4] [2; 6; 24]) p = Return None ∧
            IndexSafe (mkInterpreter [2; 3; 4] [2; 6; 24]) p = Return (k, None)) ∧
    (∀ p, CheckPoint (mkInterpreter [2; 3; 4] [2; 6; 24]) p = Return None →
       ∃ k, IndexSafe (mkInterpreter [2; 3; 4] [2; 6; 24]) p = Return (k, None) ∧
            0 ≤ k < size ∧
            PointSafe (mkInterpreter [2; 3; 4] [2; 6; 24]) k = Return (p, None)).
Proof.
  split; [|split].
  - split; [repeat constructor; vm_compute; discriminate|reflexivity].
  - vm_compute. discriminate.
  - apply (Index_Point_bijection (mkInterpreter [2; 3; 4] [2; 6; 24])).
    + split; [repeat constructor; vm_compute; discriminate|reflexivity].
    + vm_compute. discriminate.
Defined.

(** * Offsets that are too large *)

(** C5, as stated, fails for a change of 1 on the shape [[1]]: [Size()] is
    1, so [|change| ≥ Size()], yet the call is handed to [IncrementSafe],
    which returns [(false, nil)]. *)
Lemma IncreaseBySafe_unit_change_counterexample :
  valid (mkInterpreter [1] [1]) ∧
  CheckPoint (mkInterpreter [1] [1]) [0] = Return None ∧
  Size (mkInterpreter [1] [1]) = Return 1 ∧
  1 ≤ Z.abs 1 ∧
  IncreaseBySafe (mkInterpreter [1] [1]) [0] 1 = Return ([0], false, None).
Proof.
  split_and!; try reflexivity; try lia.
  split; [repeat constructor; vm_compute; discriminate|reflexivity].
Qed.

(** C5, amended: for a point that passes [CheckPoint] and a change other
    than 0, 1 and -1 with [|change| ≥ Size()], [IncreaseBySafe] returns
    [(false, ErrChangeTooBig)] and leaves the point as it was. *)
Theorem IncreaseBySafe_too_big (i_ : Interpreter) (p : list Z) (change size : Z) :
  valid i_ → CheckPoint i_ p = Return None → is_int change →
  change ≠ 0 → change ≠ 1 → change ≠ -1 →
  Size i_ = Return size → size ≤ Z.abs change →
  IncreaseBySafe i_ p change = Return (p, false, Some ErrChangeTooBig).
Proof.
  intros Hv Hc Hint H0 H1 Hm1 Hsize Habs.
  apply valid_CheckPoint in Hc; [|done].
  destruct (valid_Size _ Hv) as (s & Hs & Hsint).
  assert (s = size) as -> by congruence.
  unfold IncreaseBySafe.
  rewrite !decide_False by done.
  rewrite IndexSafe_spec by done. cbn [mbind go_bind].
  rewrite Hsize. cbn [mbind go_bind].
  destruct (Z.geb_spec change size) as [Hge|Hlt]; [done|].
  assert (MinInt < size) as Hmin by (unfold is_int in *; lia).
  rewrite wrap_id by (unfold is_int in *; pose proof int_consts; lia).
  destruct (Z.leb_spec change (- size)) as [Hle|Hgt]; [done|lia].
Qed.

Lemma IncreaseBySafe_too_big_witness :
  valid (mkInterpreter [2; 3; 4] [2; 6; 24]) ∧
  CheckPoint (mkInterpreter [2; 3; 4] [2; 6; 24]) [1; 2; 3] = Return None ∧
  IncreaseBySafe (mkInterpreter [2; 3; 4] [2; 6; 24]) [1; 2; 3] (-24)
    = Return ([1; 2; 3], false, Some ErrChangeTooBig).
Proof.
  assert (valid (mkInterpreter [2; 3; 4] [2; 6; 24])) as Hv.
  { split; [repeat constructor; vm_compute; discriminate|reflexivity]. }
  split; [exact Hv|]. split; [reflexivity|].
  apply (IncreaseBySafe_too_big (mkInterpreter [2; 3; 4] [2; 6; 24])
           [1; 2; 3] (-24) 24 Hv); try reflexivity; try lia.
  vm_compute. split; discriminate.
Defined.

(** * Successive increments *)

Lemma increments_spec i_ :
  valid i_ → ∀ n k0,
  0 ≤ k0 → k0 + Z.of_nat n ≤ product (Dims i_) →
  increments i_ n (decode (Dims i_) k0) =
  Return ((λ k, (decode (Dims i_) (k `mod` product (Dims i_)),
                 bool_decide (k < product (Dims i_)), None))
            <$> seqZ (k0 + 1) (Z.of_nat n)).
Proof.
  intros Hv. destruct (valid_inv _ Hv) as (Hne & Hall & HS & Hlen).
  assert (Forall (λ d, 0 < d) (Dims i_)) as Hpos.
  { eapply Forall_impl; [done|]. simpl. lia. }
  induction n as [|n IH]; intros k0 Hk0 Hle; [done|].
  cbn [increments].
  rewrite IncrementSafe_spec by (done || by apply decode_in_bounds).
  rewrite encode_decode by (done || lia).
  cbn [mbind go_bind].
  rewrite seqZ_cons by lia. cbn [fmap list_fmap].
  replace (Z.pred (Z.of_nat (S n))) with (Z.of_nat n) by lia.
  destruct n as [|n].
  - done.
  - rewrite (Z.mod_small (k0 + 1)) by lia.
    rewrite IH by lia. cbn [mbind go_bind].
    by replace (Z.succ (k0 + 1)) with (k0 + 1 + 1) by lia.
Qed.

(** C4, as stated, fails when the number of points does not fit an [int]:
    for the shape [[7; 7905747460161236407]] the product wraps around to
    [Size() = 1], and the first (and only) of the [Size()] increments from
    the all-zero point returns [true] and leaves [[1; 0]]. *)
Lemma increments_overflow_counterexample :
  valid (mkInterpreter [7; 7905747460161236407] [7; 1]) ∧
  NewInterpreterSafe [7; 7905747460161236407]
    = Return (mkInterpreter [7; 7905747460161236407] [7; 1], None) ∧
  Size (mkInterpreter [7; 7905747460161236407] [7; 1]) = Return 1 ∧
  increments (mkInterpreter [7; 7905747460161236407] [7; 1]) (Z.to_nat 1)
             (zero_point (mkInterpreter [7; 7905747460161236407] [7; 1]))
    = Return [([1; 0], true, None)].
Proof.
  split_and!; try reflexivity.
  split; [repeat constructor; vm_compute; discriminate|reflexivity].
Qed.

(** C4, amended: for a point [p] that passes [CheckPoint], if [p] is not the
    maximal point [IncrementSafe] returns [true] and leaves in [p] a point
    that passes [CheckPoint] and whose index is the index of [p] plus one
    (as the machine adds; exactly so when the number of points fits an
    [int]); if [p] is the maximal point it returns [false] and leaves the
    all-zero point.  When the number of points fits an [int], [Size()]
    successive increments from the all-zero point, whose index is 0, leave
    the points of index 1, 2, ..., [Size() - 1], each returning [true], and
    the last one returns [false] and leaves the all-zero point. *)
Theorem IncrementSafe_successor (i_ : Interpreter) :
  valid i_ →
  (∀ p, CheckPoint i_ p = Return None →
     (p ≠ max_point i_ →
        ∃ p' k, IncrementSafe i_ p = Return (p', true, None) ∧
          CheckPoint i_ p' = Return None ∧
          IndexSafe i_ p = Return (k, None) ∧
          IndexSafe i_ p' = Return (wrap (k + 1), None) ∧
          (fits i_ → wrap (k + 1) = k + 1)) ∧
     (p = max_point i_ →
        IncrementSafe i_ p = Return (zero_point i_, false, None))) ∧
  (fits i_ →
     ∃ size trace, Size i_ = Return size ∧
       increments i_ (Z.to_nat size) (zero_point i_) = Return trace ∧
       length trace = Z.to_nat size ∧
       IndexSafe i_ (zero_point i_) = Return (0, None) ∧
       (∀ j, 1 ≤ j < size →
          ∃ q, trace !! Z.to_nat (j - 1) = Some (q, true, None) ∧
               IndexSafe i_ q = Return (j, None)) ∧
       trace !! Z.to_nat (size - 1) = Some (zero_point i_, false, None)).
Proof.
  intros Hv. destruct (valid_inv _ Hv) as (Hne & Hall & HS & Hlen).
  assert (Forall (λ d, 0 < d) (Dims i_)) as Hpos.
  { eapply Forall_impl; [done|]. simpl. lia. }
  pose proof (product_pos _ Hpos) as HP.
  split.
  - intros p Hc. apply valid_CheckPoint in Hc; [|done].
    pose proof (encode_bounds _ _ Hc) as Hk.
    rewrite IncrementSafe_spec by done. split.
    + intros Hmax.
      assert (encode (Dims i_) p + 1 < product (Dims i_)) as Hlt.
      { destruct (decide (encode (Dims i_) p = product (Dims i_) - 1)) as [He|?];
          [|lia].
        exfalso. apply Hmax. unfold max_point.
        rewrite <-(decode_encode _ _ Hc), He. by apply decode_max. }
      rewrite Z.mod_small by lia. rewrite bool_decide_true by done.
      eexists _, _. split; [done|].
      pose proof (decode_in_bounds (Dims i_) (encode (Dims i_) p + 1) Hpos) as Hb.
      split_and!.
      * by apply valid_CheckPoint.
      * by apply IndexSafe_spec.
      * rewrite IndexSafe_spec by done.
        rewrite encode_decode by (done || lia). by rewrite wrap_add_l.
      * intros Hf. unfold fits in Hf.
        rewrite (wrap_id (encode _ _))
          by (unfold is_int; pose proof int_consts; lia).
        apply wrap_id. unfold is_int. pose proof int_consts. lia.
    + intros ->. unfold max_point. rewrite encode_max.
      replace (product (Dims i_) - 1 + 1) with (product (Dims i_)) by lia.
      rewrite Z.mod_same by lia. rewrite bool_decide_false by lia.
      by rewrite decode_zero.
  - intros Hf. exists (product (Dims i_)). eexists.
    split; [by apply fits_Size|].
    unfold zero_point. rewrite <-decode_zero.
    split; [apply increments_spec; [done|lia|lia]|].
    rewrite Z.add_0_l, Z2Nat.id by lia.
    split; [by rewrite length_fmap, length_seqZ|].
    split.
    { rewrite IndexSafe_fits by (done || by apply decode_in_bounds).
      by rewrite encode_decode by (done || lia). }
    split.
    + intros j Hj. eexists. split.
      * rewrite list_lookup_fmap.
        rewrite (lookup_seqZ_lt _ _ (Z.to_nat (j - 1))) by lia.
        cbn [fmap option_fmap option_map].
        replace (1 + Z.of_nat (Z.to_nat (j - 1))) with j by lia.
        rewrite Z.mod_small by lia. by rewrite bool_decide_true by lia.
      * rewrite IndexSafe_fits by (done || by apply decode_in_bounds).
        by rewrite encode_decode by (done || lia).
    + rewrite list_lookup_fmap.
      rewrite (lookup_seqZ_lt _ _ (Z.to_nat (product (Dims i_) - 1))) by lia.
      cbn [fmap option_fmap option_map].
      replace (1 + Z.of_nat (Z.to_nat (product (Dims i_) - 1)))
        with (product (Dims i_)) by lia.
      rewrite Z.mod_same by lia. by rewrite bool_decide_false by lia.
Qed.

Lemma IncrementSafe_successor_witness :
  valid (mkInterpreter [2; 3] [2; 6]) ∧
  (∀ p, CheckPoint (mkInterpreter [2; 3] [2; 6]) p = Return None →
     p = max_point (mkInterpreter [2; 3] [2; 6]) →
     IncrementSafe (mkInterpreter [2; 3] [2; 6]) p
       = Return (zero_point (mkInterpreter [2; 3] [2; 6]), false, None)).
Proof.
  assert (valid (mkInterpreter [2; 3] [2; 6])) as Hv.
  { split; [repeat constructor; vm_compute; discriminate|reflexivity]. }
  split; [exact Hv|].
  intros p Hc.
  exact (proj2 (proj1 (IncrementSafe_successor (mkInterpreter [2; 3] [2; 6]) Hv)
                  p Hc)).
Defined.

(** * The outcomes of CheckPoint and PointSafe *)

Lemma CheckPoint_loop_first i_ point rest : ∀ i a v d,
  rest !! a = Some v → Dims i_ !! (i + a)%nat = Some d → ¬ (0 ≤ v < d) →
  (∀ b v', (b < a)%nat → rest !! b = Some v' →
     ∃ d', Dims i_ !! (i + b)%nat = Some d' ∧ 0 ≤ v' < d') →
  CheckPoint_loop i_ point i rest
  = Return (Some (PointOutOfBoundsError point (Dims i_) (Z.of_nat (i + a)))).
Proof.
  induction rest as [|v0 rest IH]; intros i a v d Ha Hd Hbad Hpre; [done|].
  destruct a as [|a].
  - simpl in Ha. injection Ha as ->. rewrite Nat.add_0_r in *.
    cbn [CheckPoint_loop]. destruct (Z.ltb_spec v 0); [done|].
    rewrite (index_get_Some _ _ d Hd). cbn [mbind go_bind].
    destruct (Z.geb_spec v d); [done|lia].
  - destruct (Hpre 0%nat v0) as (d0 & Hd0 & Hv0); [lia|done|].
    rewrite Nat.add_0_r in Hd0.
    cbn [CheckPoint_loop]. destruct (Z.ltb_spec v0 0); [lia|].
    rewrite (index_get_Some _ _ d0 Hd0). cbn [mbind go_bind].
    destruct (Z.geb_spec v0 d0); [lia|].
    rewrite (IH (S i) a v d); [|done| |done|].
    + do 3 f_equal. lia.
    + by replace (S i + a)%nat with (i + S a)%nat by lia.
    + intros b v' Hb Hv'. destruct (Hpre (S b) v') as (d' & Hd' & ?); [lia|done|].
      exists d'. split; [|done].
      by replace (S i + b)%nat with (i + S b)%nat by lia.
Qed.

(** X1: on an Interpreter made by the constructor, [CheckPoint] returns
    [ErrZeroPoint] for an empty point, a [LengthMismatchError] carrying both
    lengths for a non-empty point of another length than [Dims], a
    [PointOutOfBoundsError] naming the first axis whose entry is negative or
    not below its dimension, and [nil] exactly when every entry is within
    its dimension. *)
Theorem CheckPoint_cases (i_ : Interpreter) (point : list Z) :
  valid i_ →
  (point = [] → CheckPoint i_ point = Return (Some ErrZeroPoint)) ∧
  (point ≠ [] → length point ≠ length (Dims i_) →
     CheckPoint i_ point
     = Return (Some (LengthMismatchError "point" (len point) (len (Dims i_))))) ∧
  (∀ (a : nat) v d,
     length point = length (Dims i_) →
     point !! a = Some v → Dims i_ !! a = Some d → ¬ (0 ≤ v < d) →
     (∀ (b : nat) v' d', (b < a)%nat → point !! b = Some v' →
        Dims i_ !! b = Some d' → 0 ≤ v' < d') →
     CheckPoint i_ point
     = Return (Some (PointOutOfBoundsError point (Dims i_) (Z.of_nat a)))) ∧
  (CheckPoint i_ point = Return None ↔ in_bounds (Dims i_) point).
Proof.
  intros Hv. destruct (valid_inv _ Hv) as (Hne & Hall & HS & Hlen).
  split_and!.
  - by intros ->.
  - intros Hp Hl. unfold CheckPoint.
    rewrite decide_False by (by destruct point).
    rewrite decide_True by lia. unfold len. by rewrite Hlen.
  - intros a v d Hl Ha Hd Hbad Hpre. unfold CheckPoint.
    rewrite decide_False by (destruct point; [done|simpl; lia]).
    rewrite decide_False by (intros ?; lia).
    apply (CheckPoint_loop_first i_ point point 0 a v d); try done.
    intros b v' Hb Hv'.
    destruct (lookup_lt_is_Some_2 (Dims i_) b) as [d' Hd'].
    { apply lookup_lt_Some in Hv'. lia. }
    exists d'. split; [done|]. by eapply Hpre.
  - by apply valid_CheckPoint.
Qed.

Lemma CheckPoint_cases_witness :
  valid (mkInterpreter [2; 3; 4] [2; 6; 24]) ∧
  CheckPoint (mkInterpreter [2; 3; 4] [2; 6; 24]) [1; 3; 7]
  = Return (Some (PointOutOfBoundsError [1; 3; 7] [2; 3; 4] 1)).
Proof.
  assert (valid (mkInterpreter [2; 3; 4] [2; 6; 24])) as Hv.
  { split; [repeat constructor; vm_compute; discriminate|reflexivity]. }
  split; [exact Hv|].
  destruct (CheckPoint_cases (mkInterpreter [2; 3; 4] [2; 6; 24]) [1; 3; 7] Hv)
    as (_ & _ & H & _).
  apply (H 1%nat 3 3); [reflexivity|reflexivity|reflexivity|lia|].
  intros [|b] v' d' Hb Hv' Hd'; [|lia].
  simpl in Hv', Hd'. injection Hv' as <-. injection Hd' as <-. lia.
Defined.

Lemma PointSafe_in_range i_ k size :
  valid i_ → Size i_ = Return size → 0 ≤ k < size →
  ∃ p, PointSafe i_ k = Return (p, None) ∧ length p = length (Dims i_).
Proof.
  intros Hv Hsize Hk.
  destruct (PointSafe_total i_ k Hv) as (p & e & Hp & He).
  assert (e = None) as ->.
  { unfold PointSafe in Hp.
    rewrite (proj2 (CheckIndex_None i_ k size Hsize) Hk) in Hp.
    cbn [mbind go_bind] in Hp.
    destruct (PointSafe_loop _ _ _ _) as [[p' idx']|]; [|done].
    cbn [mbind go_bind] in Hp.
    destruct (index_set _ _ _); [|done]. cbn in Hp. congruence. }
  exists p. split; [done|]. by apply He.
Qed.

(** X2: on an Interpreter made by the constructor, [PointSafe] returns a
    [nil] point with [ErrIndexZero] for a negative index and with
    [ErrIndexSize] for an index of [Size()] or more; for an index in
    [[0, Size())] it returns, without an error, a point with one entry per
    dimension, and when the number of points fits an [int] entry [a] of that
    point is [(index / (Dims[0] * ... * Dims[a-1])) mod Dims[a]], so it is
    within its dimension. *)
Theorem PointSafe_cases (i_ : Interpreter) (k : Z) :
  valid i_ →
  ∃ size, Size i_ = Return size ∧
    (k < 0 → PointSafe i_ k = Return ([], Some ErrIndexZero)) ∧
    (0 ≤ k → size ≤ k → PointSafe i_ k = Return ([], Some ErrIndexSize)) ∧
    (0 ≤ k < size →
       ∃ p, PointSafe i_ k = Return (p, None) ∧ length p = length (Dims i_) ∧
         (fits i_ →
            CheckPoint i_ p = Return None ∧
            ∀ (a : nat) d, Dims i_ !! a = Some d →
              p !! a = Some ((k `div` product (take a (Dims i_))) `mod` d))).
Proof.
  intros Hv. destruct (valid_inv _ Hv) as (Hne & Hall & HS & Hlen).
  assert (Forall (λ d, 0 < d) (Dims i_)) as Hpos.
  { eapply Forall_impl; [done|]. simpl. lia. }
  destruct (valid_Size _ Hv) as (size & Hsize & _).
  exists size. split; [done|]. split_and!.
  - intros Hk. unfold PointSafe, CheckIndex.
    destruct (Z.ltb_spec k 0); [done|lia].
  - intros Hk0 Hk. unfold PointSafe, CheckIndex.
    destruct (Z.ltb_spec k 0); [lia|]. rewrite Hsize. cbn [mbind go_bind].
    destruct (Z.geb_spec k size); [done|lia].
  - intros Hk. destruct (PointSafe_in_range i_ k size Hv Hsize Hk) as (p & Hp & Hl).
    exists p. split; [done|]. split; [done|]. intros Hf.
    rewrite (fits_Size _ Hv Hf) in Hsize. injection Hsize as <-.
    rewrite PointSafe_fits in Hp by done. injection Hp as <-. split.
    + apply valid_CheckPoint; [done|]. by apply decode_in_bounds.
    + intros a d Hd. by apply decode_lookup.
Qed.

Lemma PointSafe_cases_witness :
  valid (mkInterpreter [2; 3; 4] [2; 6; 24]) ∧
  ∃ size, Size (mkInterpreter [2; 3; 4] [2; 6; 24]) = Return size ∧
    (-1 < 0 → PointSafe (mkInterpreter [2; 3; 4] [2; 6; 24]) (-1)
              = Return ([], Some ErrIndexZero)).
Proof.
  assert (valid (mkInterpreter [2; 3; 4] [2; 6; 24])) as Hv.
  { split; [repeat constructor; vm_compute; discriminate|reflexivity]. }
  split; [exact Hv|].
  destruct (PointSafe_cases (mkInterpreter [2; 3; 4] [2; 6; 24]) (-1) Hv)
    as (size & Hs & H & _).
  exists size. split; [exact Hs|exact H].
Defined.

(** * Decrement *)

Lemma decode_cons_mod d ds k :
  0 < d → 0 < product ds →
  decode (d :: ds) (k `mod` (d * product ds))
  = k `mod` d :: decode ds ((k `div` d) `mod` product ds).
Proof.
  intros Hd HP. cbn [decode].
  by rewrite mod_mul_mod, mod_mul_div by done.
Qed.

Lemma DecrementFast_loop_spec i_ ds : ∀ pre dpre k,
  Dims i_ = dpre ++ ds → length pre = length dpre → ds ≠ [] →
  Forall (λ d, 0 < d ≤ MaxInt) ds → 0 ≤ k < product ds →
  DecrementFast_loop i_ (length ds) (length pre) (pre ++ decode ds k)
  = Return (pre ++ decode ds ((k - 1) `mod` product ds),
            bool_decide (0 < k)).
Proof.
  induction ds as [|d ds IH]; intros pre dpre k HD Hlen Hne Hall Hk; [done|].
  inversion Hall as [|? ? Hd Hds]; subst.
  assert (0 < product ds) as HP.
  { apply product_pos. eapply Forall_impl; [done|]. simpl. lia. }
  cbn [product foldr] in Hk. change (foldr Z.mul 1 ds) with (product ds) in Hk.
  pose proof (Z.mod_pos_bound k d ltac:(lia)) as Hv.
  pose proof (Z.div_mod k d ltac:(lia)) as Hkd.
  assert (0 ≤ k `div` d < product ds) as Hq.
  { split; [apply Z.div_pos; lia|apply Z.div_lt_upper_bound; lia]. }
  pose proof int_consts as [HMin HMax].
  cbn [product foldr]. change (foldr Z.mul 1 ds) with (product ds).
  rewrite decode_cons_mod by lia.
  cbn [DecrementFast_loop length decode].
  rewrite (index_get_Some (pre ++ _) _ (k `mod` d)) by apply lookup_app_middle.
  cbn [mbind go_bind].
  rewrite index_set_lt by (rewrite length_app; simpl; lia).
  cbn [mbind go_bind]. rewrite insert_app_middle.
  rewrite wrap_id by (unfold is_int; lia).
  destruct (Z.geb_spec (k `mod` d - 1) 0) as [Hge|Hlt].
  - (* no borrow *)
    assert ((k - 1) `mod` d = k `mod` d - 1) as ->.
    { replace (k - 1) with (k `mod` d - 1 + (k `div` d) * d) by lia.
      rewrite Z.mod_add by lia. apply Z.mod_small. lia. }
    assert ((k - 1) `div` d = k `div` d) as ->.
    { replace (k - 1) with (k `mod` d - 1 + (k `div` d) * d) by lia.
      rewrite Z.div_add by lia. rewrite (Z.div_small (k `mod` d - 1)) by lia. lia. }
    rewrite (Z.mod_small (k `div` d)) by lia.
    by rewrite bool_decide_true by lia.
  - (* borrow from the next axis *)
    assert (k `mod` d = 0) as Hv0 by lia.
    assert (k - 1 = (d - 1) + (k `div` d - 1) * d) as Hk1 by lia.
    assert ((k - 1) `mod` d = d - 1) as ->.
    { rewrite Hk1, Z.mod_add by lia. apply Z.mod_small. lia. }
    assert ((k - 1) `div` d = k `div` d - 1) as ->.
    { rewrite Hk1, Z.div_add by lia. rewrite (Z.div_small (d - 1)) by lia. lia. }
    rewrite (index_get_Some (Dims i_) _ d)
      by (rewrite HD, Hlen; apply lookup_app_middle).
    cbn [mbind go_bind].
    rewrite index_set_lt by (rewrite length_app; simpl; lia).
    cbn [mbind go_bind]. rewrite insert_app_middle.
    rewrite wrap_id by (unfold is_int; lia).
    destruct ds as [|d' ds'].
    + rewrite decide_True by (rewrite HD, length_app; simpl; lia).
      cbn [product foldr decode] in *.
      assert (k `div` d = 0) as Hq0 by lia. rewrite Hq0 in Hkd.
      by rewrite bool_decide_false by lia.
    + rewrite decide_False by (rewrite HD, length_app; simpl; lia).
      rewrite (cons_middle (d - 1) pre), app_assoc.
      replace (S (length pre)) with (length (pre ++ [d - 1]))
        by (rewrite length_app; simpl; lia).
      rewrite (IH (pre ++ [d - 1]) (dpre ++ [d]) (k `div` d)); try done.
      * rewrite <-app_assoc. do 2 f_equal.
        apply bool_decide_ext. lia.
      * by rewrite <-app_assoc.
      * rewrite !length_app. simpl. lia.
Qed.

Lemma DecrementSafe_spec i_ point :
  valid i_ → in_bounds (Dims i_) point →
  DecrementSafe i_ point =
  Return (decode (Dims i_) ((encode (Dims i_) point - 1) `mod` product (Dims i_)),
          bool_decide (0 < encode (Dims i_) point), None).
Proof.
  intros Hv Hb. destruct (valid_inv _ Hv) as (Hne & Hall & HS & Hlen).
  unfold DecrementSafe.
  rewrite (proj2 (valid_CheckPoint _ _ Hv) Hb). cbn [mbind go_bind].
  unfold DecrementFast. rewrite <-(decode_encode _ _ Hb) at 1.
  pose proof (DecrementFast_loop_spec i_ (Dims i_) [] []
                (encode (Dims i_) point) eq_refl eq_refl Hne Hall
                (encode_bounds _ _ Hb)) as HL.
  cbn [length app] in HL. by rewrite HL.
Qed.

(** X3: for a point [p] that passes [CheckPoint], if [p] is not the all-zero
    point [DecrementSafe] returns [true] and leaves in [p] a point that
    passes [CheckPoint] and whose index is the index of [p] minus one (as
    the machine subtracts; exactly so when the number of points fits an
    [int]); if [p] is the all-zero point it returns [false] and leaves the
    maximal point. *)
Theorem DecrementSafe_predecessor (i_ : Interpreter) (p : list Z) :
  valid i_ → CheckPoint i_ p = Return None →
  (p ≠ zero_point i_ →
     ∃ q k, DecrementSafe i_ p = Return (q, true, None) ∧
       CheckPoint i_ q = Return None ∧
       IndexSafe i_ p = Return (k, None) ∧
       IndexSafe i_ q = Return (wrap (k - 1), None) ∧
       (fits i_ → wrap (k - 1) = k - 1)) ∧
  (p = zero_point i_ →
     DecrementSafe i_ p = Return (max_point i_, false, None)).
Proof.
  intros Hv Hc. destruct (valid_inv _ Hv) as (Hne & Hall & HS & Hlen).
  assert (Forall (λ d, 0 < d) (Dims i_)) as Hpos.
  { eapply Forall_impl; [done|]. simpl. lia. }
  pose proof (product_pos _ Hpos) as HP.
  apply valid_CheckPoint in Hc; [|done].
  pose proof (encode_bounds _ _ Hc) as Hk.
  rewrite DecrementSafe_spec by done. split.
  - intros Hz.
    assert (0 < encode (Dims i_) p) as Hlt.
    { destruct (decide (encode (Dims i_) p = 0)) as [He|?]; [|lia].
      exfalso. apply Hz. unfold zero_point.
      rewrite <-(decode_encode _ _ Hc), He. by apply decode_zero. }
    rewrite Z.mod_small by lia. rewrite bool_decide_true by done.
    eexists _, _. split; [done|].
    pose proof (decode_in_bounds (Dims i_) (encode (Dims i_) p - 1) Hpos) as Hb.
    split; [by apply valid_CheckPoint|].
    split; [by apply IndexSafe_spec|]. split.
    + rewrite IndexSafe_spec by done.
      rewrite encode_decode by (done || lia).
      replace (wrap (encode (Dims i_) p) - 1)
        with (wrap (encode (Dims i_) p) + -1) by lia.
      rewrite wrap_add_l.
      by replace (encode (Dims i_) p + -1) with (encode (Dims i_) p - 1) by lia.
    + intros Hf. unfold fits in Hf. pose proof int_consts.
      rewrite (wrap_id (encode _ _)) by (unfold is_int; lia).
      apply wrap_id. unfold is_int. lia.
  - intros ->. unfold zero_point. rewrite <-decode_zero.
    rewrite encode_decode by (done || lia).
    rewrite bool_decide_false by lia.
    replace ((0 - 1) `mod` product (Dims i_)) with (product (Dims i_) - 1).
    + unfold max_point. by rewrite decode_max.
    + apply (Z.mod_unique_pos _ _ (-1)); lia.
Qed.

Lemma DecrementSafe_predecessor_witness :
  valid (mkInterpreter [2; 3] [2; 6]) ∧
  CheckPoint (mkInterpreter [2; 3] [2; 6]) [0; 0] = Return None ∧
  DecrementSafe (mkInterpreter [2; 3] [2; 6]) [0; 0]
  = Return (max_point (mkInterpreter [2; 3] [2; 6]), false, None).
Proof.
  assert (valid (mkInterpreter [2; 3] [2; 6])) as Hv.
  { split; [repeat constructor; vm_compute; discriminate|reflexivity]. }
  split; [exact Hv|]. split; [reflexivity|].
  exact (proj2 (DecrementSafe_predecessor (mkInterpreter [2; 3] [2; 6]) [0; 0]
                  Hv eq_refl) eq_refl).
Defined.

(** X4: [IncrementSafe] and [DecrementSafe] undo each other, overflow
    included: when one of them turns a point [p] that passes [CheckPoint]
    into [q] and returns the flag [b], the other turns [q] back into [p] and
    returns the same flag. *)
Theorem Increment_Decrement_inverse (i_ : Interpreter) (p q : list Z) (b : bool) :
  valid i_ → CheckPoint i_ p = Return None →
  (IncrementSafe i_ p = Return (q, b, None) →
     DecrementSafe i_ q = Return (p, b, None)) ∧
  (DecrementSafe i_ p = Return (q, b, None) →
     IncrementSafe i_ q = Return (p, b, None)).
Proof.
  intros Hv Hc. destruct (valid_inv _ Hv) as (Hne & Hall & HS & Hlen).
  assert (Forall (λ d, 0 < d) (Dims i_)) as Hpos.
  { eapply Forall_impl; [done|]. simpl. lia. }
  pose proof (product_pos _ Hpos) as HP.
  apply valid_CheckPoint in Hc; [|done].
  pose proof (encode_bounds _ _ Hc) as Hk.
  split.
  - rewrite IncrementSafe_spec by done. intros [= <- <-].
    rewrite DecrementSafe_spec by (done || by apply decode_in_bounds).
    rewrite encode_decode by (done || by apply Z.mod_pos_bound).
    destruct (decide (encode (Dims i_) p + 1 < product (Dims i_))) as [Hlt|Hge].
    + rewrite (Z.mod_small (_ + 1)) by lia.
      replace (encode (Dims i_) p + 1 - 1) with (encode (Dims i_) p) by lia.
      rewrite Z.mod_small by lia. rewrite decode_encode by done.
      by rewrite !bool_decide_true by lia.
    + assert (encode (Dims i_) p + 1 = product (Dims i_)) as -> by lia.
      rewrite Z.mod_same by lia.
      replace ((0 - 1) `mod` product (Dims i_)) with (encode (Dims i_) p)
        by (apply (Z.mod_unique_pos _ _ (-1)); lia).
      rewrite decode_encode by done.
      by rewrite !bool_decide_false by lia.
  - rewrite DecrementSafe_spec by done. intros [= <- <-].
    rewrite IncrementSafe_spec by (done || by apply decode_in_bounds).
    rewrite encode_decode by (done || by apply Z.mod_pos_bound).
    destruct (decide (0 < encode (Dims i_) p)) as [Hlt|Hge].
    + rewrite (Z.mod_small (_ - 1)) by lia.
      replace (encode (Dims i_) p - 1 + 1) with (encode (Dims i_) p) by lia.
      rewrite Z.mod_small by lia. rewrite decode_encode by done.
      by rewrite !bool_decide_true by lia.
    + assert (encode (Dims i_) p = 0) as He by lia. rewrite He.
      replace ((0 - 1) `mod` product (Dims i_)) with (product (Dims i_) - 1)
        by (apply (Z.mod_unique_pos _ _ (-1)); lia).
      replace (product (Dims i_) - 1 + 1) with (product (Dims i_)) by lia.
      rewrite Z.mod_same by lia. rewrite <-He, decode_encode by done.
      by rewrite !bool_decide_false by lia.
Qed.

Lemma Increment_Decrement_inverse_witness :
  valid (mkInterpreter [2; 3] [2; 6]) ∧
  CheckPoint (mkInterpreter [2; 3] [2; 6]) [1; 1] = Return None ∧
  IncrementSafe (mkInterpreter [2; 3] [2; 6]) [1; 1] = Return ([0; 2], true, None) ∧
  DecrementSafe (mkInterpreter [2; 3] [2; 6]) [0; 2] = Return ([1; 1], true, None).
Proof.
  assert (valid (mkInterpreter [2; 3] [2; 6])) as Hv.
  { split; [repeat constructor; vm_compute; discriminate|reflexivity]. }
  split; [exact Hv|]. split; [reflexivity|]. split; [reflexivity|].
  exact (proj1 (Increment_Decrement_inverse (mkInterpreter [2; 3] [2; 6])
                  [1; 1] [0; 2] true Hv eq_refl) eq_refl).
Defined.

(** * IncreaseBy *)

Lemma copy_slice_same_length {A} (dst src : list A) :
  length dst = length src → copy_slice dst src = src.
Proof.
  intros Hl. unfold copy_slice.
  rewrite take_ge, drop_ge by lia. by rewrite app_nil_r.
Qed.

Lemma Point_fits i_ k :
  valid i_ → fits i_ → 0 ≤ k < product (Dims i_) →
  Point i_ k = Return (decode (Dims i_) k).
Proof. intros Hv Hf Hk. unfold Point. by rewrite PointSafe_fits. Qed.

(** What [IncreaseBySafe] does to a point within bounds when the number of
    points fits an [int], case by case as the code tests them. *)
Lemma IncreaseBySafe_spec i_ p change :
  valid i_ → fits i_ → in_bounds (Dims i_) p → is_int change →
  IncreaseBySafe i_ p change =
  Return (
    if decide (change = 0) then (p, true, None)
    else if decide (change = 1) then
      (decode (Dims i_) ((encode (Dims i_) p + 1) `mod` product (Dims i_)),
       bool_decide (encode (Dims i_) p + 1 < product (Dims i_)), None)
    else if decide (change = -1) then
      (decode (Dims i_) ((encode (Dims i_) p - 1) `mod` product (Dims i_)),
       bool_decide (0 < encode (Dims i_) p), None)
    else if decide (product (Dims i_) ≤ Z.abs change) then
      (p, false, Some ErrChangeTooBig)
    else if decide (0 ≤ encode (Dims i_) p + change < product (Dims i_)) then
      (decode (Dims i_) (encode (Dims i_) p + change), true, None)
    else (p, false, None)).
Proof.
  intros Hv Hf Hb Hint. destruct (valid_inv _ Hv) as (Hne & Hall & HS & Hlen).
  pose proof (encode_bounds _ _ Hb) as Hk.
  pose proof int_consts as [HMin HMax].
  unfold fits in Hf. unfold is_int in Hint.
  unfold IncreaseBySafe.
  destruct (decide (change = 0)); [done|].
  destruct (decide (change = 1)); [by apply IncrementSafe_spec|].
  destruct (decide (change = -1)); [by apply DecrementSafe_spec|].
  rewrite IndexSafe_fits by done. cbn [mbind go_bind].
  rewrite fits_Size by done. cbn [mbind go_bind].
  rewrite (wrap_id (- _)) by (unfold is_int; lia).
  destruct (Z.geb_spec change (product (Dims i_))) as [Hge|Hlt].
  { by rewrite decide_True by lia. }
  destruct (Z.leb_spec change (- product (Dims i_))) as [Hle|Hgt].
  { by rewrite decide_True by lia. }
  rewrite decide_False by lia.
  destruct (decide (encode (Dims i_) p + change ≤ MaxInt)) as [Hfit|Hover].
  - rewrite wrap_id by (unfold is_int; lia).
    destruct (Z.ltb_spec (encode (Dims i_) p + change) 0) as [?|?];
      [by rewrite decide_False by lia|].
    destruct (Z.geb_spec (encode (Dims i_) p + change) (product (Dims i_))) as [?|?];
      [by rewrite decide_False by lia|].
    cbn [orb]. rewrite decide_True by lia.
    rewrite Point_fits by (done || lia). cbn [mbind go_bind].
    rewrite copy_slice_same_length; [done|].
    rewrite decode_length. by apply Forall2_length in Hb.
  - pose proof (wrap_overflow (encode (Dims i_) p) change) as Hw.
    destruct (Z.ltb_spec (wrap (encode (Dims i_) p + change)) 0) as [?|?]; [|lia].
    by rewrite decide_False by lia.
Qed.

(** X5: when the number of points fits an [int] and [p] passes
    [CheckPoint] with index [k]: if [k + change] is in [[0, Size())],
    [IncreaseBySafe] returns [(true, nil)] and leaves in [p] the point of
    index [k + change], which passes [CheckPoint]; if it is not, and
    [change] is neither 1 nor -1 and below [Size()] in magnitude, it returns
    [(false, nil)] and leaves [p] as it was. *)
Theorem IncreaseBySafe_moves_index (i_ : Interpreter) (p : list Z) (change : Z) :
  valid i_ → fits i_ → CheckPoint i_ p = Return None → is_int change →
  ∃ k size, IndexSafe i_ p = Return (k, None) ∧ Size i_ = Return size ∧
    (0 ≤ k + change < size →
       ∃ q, IncreaseBySafe i_ p change = Return (q, true, None) ∧
            CheckPoint i_ q = Return None ∧
            IndexSafe i_ q = Return (k + change, None)) ∧
    (change ≠ 1 → change ≠ -1 → Z.abs change < size →
     ¬ (0 ≤ k + change < size) →
       IncreaseBySafe i_ p change = Return (p, false, None)).
Proof.
  intros Hv Hf Hc Hint. destruct (valid_inv _ Hv) as (Hne & Hall & HS & Hlen).
  assert (Forall (λ d, 0 < d) (Dims i_)) as Hpos.
  { eapply Forall_impl; [done|]. simpl. lia. }
  apply valid_CheckPoint in Hc; [|done].
  pose proof (encode_bounds _ _ Hc) as Hk.
  exists (encode (Dims i_) p), (product (Dims i_)).
  split; [by apply IndexSafe_fits|]. split; [by apply fits_Size|].
  rewrite IncreaseBySafe_spec by done. split.
  - intros Hin.
    assert (∀ j, 0 ≤ j < product (Dims i_) →
              CheckPoint i_ (decode (Dims i_) j) = Return None ∧
              IndexSafe i_ (decode (Dims i_) j) = Return (j, None)) as Hdec.
    { intros j Hj.
      pose proof (decode_in_bounds (Dims i_) j Hpos) as Hbj. split.
      - by apply valid_CheckPoint.
      - rewrite IndexSafe_fits by done. by rewrite encode_decode. }
    destruct (decide (change = 0)) as [->|].
    { exists p. rewrite Z.add_0_r. split; [done|].
      split; [by apply valid_CheckPoint|by apply IndexSafe_fits]. }
    destruct (decide (change = 1)) as [->|].
    { rewrite Z.mod_small, bool_decide_true by lia.
      eexists. split; [done|]. by apply Hdec. }
    destruct (decide (change = -1)) as [->|].
    { rewrite Z.mod_small, bool_decide_true by lia.
      eexists. split; [done|]. by apply (Hdec (_ + -1)). }
    rewrite decide_False by lia. rewrite decide_True by done.
    eexists. split; [done|]. by apply Hdec.
  - intros H1 Hm1 Habs Hout.
    destruct (decide (change = 0)) as [->|]; [lia|].
    rewrite !decide_False by lia. done.
Qed.

Lemma IncreaseBySafe_moves_index_witness :
  valid (mkInterpreter [2; 3; 4] [2; 6; 24]) ∧
  fits (mkInterpreter [2; 3; 4] [2; 6; 24]) ∧
  CheckPoint (mkInterpreter [2; 3; 4] [2; 6; 24]) [1; 2; 3] = Return None ∧
  ∃ k size,
    IndexSafe (mkInterpreter [2; 3; 4] [2; 6; 24]) [1; 2; 3] = Return (k, None) ∧
    Size (mkInterpreter [2; 3; 4] [2; 6; 24]) = Return size ∧
    (0 ≤ k + -3 < size →
       ∃ q, IncreaseBySafe (mkInterpreter [2; 3; 4] [2; 6; 24]) [1; 2; 3] (-3)
            = Return (q, true, None) ∧
            CheckPoint (mkInterpreter [2; 3; 4] [2; 6; 24]) q = Return None ∧
            IndexSafe (mkInterpreter [2; 3; 4] [2; 6; 24]) q
            = Return (k + -3, None)).
Proof.
  assert (valid (mkInterpreter [2; 3; 4] [2; 6; 24])) as Hv.
  { split; [repeat constructor; vm_compute; discriminate|reflexivity]. }
  assert (fits (mkInterpreter [2; 3; 4] [2; 6; 24])) as Hf.
  { vm_compute. discriminate. }
  split; [exact Hv|]. split; [exact Hf|]. split; [reflexivity|].
  destruct (IncreaseBySafe_moves_index (mkInterpreter [2; 3; 4] [2; 6; 24])
              [1; 2; 3] (-3) Hv Hf eq_refl) as (k & size & Hk & Hs & H & _).
  { vm_compute. split; discriminate. }
  exists k, size. split; [exact Hk|]. split; [exact Hs|exact H].
Defined.

(** X6: two successive offsets that both succeed amount to one offset by
    their sum: when the number of points fits an [int], [p] passes
    [CheckPoint], [IncreaseBySafe] by [a] turns [p] into [q] and returns
    [(true, nil)], and [IncreaseBySafe] by [b] turns [q] into [r] and returns
    [(true, nil)], then [IncreaseBySafe] by [a + b] turns [p] into [r] and
    returns [(true, nil)]. *)
Theorem IncreaseBySafe_compose (i_ : Interpreter) (p q r : list Z) (a b : Z) :
  valid i_ → fits i_ → CheckPoint i_ p = Return None →
  is_int a → is_int b →
  IncreaseBySafe i_ p a = Return (q, true, None) →
  IncreaseBySafe i_ q b = Return (r, true, None) →
  IncreaseBySafe i_ p (a + b) = Return (r, true, None).
Proof.
  intros Hv Hf Hc Ha Hb. destruct (valid_inv _ Hv) as (Hne & Hall & HS & Hlen).
  assert (Forall (λ d, 0 < d) (Dims i_)) as Hpos.
  { eapply Forall_impl; [done|]. simpl. lia. }
  apply valid_CheckPoint in Hc; [|done].
  pose proof (encode_bounds _ _ Hc) as Hk.
  pose proof int_consts as [HMin HMax]. unfold fits in Hf.
  assert (∀ p' c q', in_bounds (Dims i_) p' → is_int c →
            IncreaseBySafe i_ p' c = Return (q', true, None) →
            0 ≤ encode (Dims i_) p' + c < product (Dims i_) ∧
            q' = decode (Dims i_) (encode (Dims i_) p' + c)) as Hinv.
  { intros p' c q' Hb' Hc' H. rewrite IncreaseBySafe_spec in H by done.
    pose proof (encode_bounds _ _ Hb') as Hk'.
    destruct (decide (c = 0)) as [->|].
    { injection H as <-. rewrite Z.add_0_r. by rewrite decode_encode. }
    destruct (decide (c = 1)) as [->|].
    { injection H as <- Hflag. apply bool_decide_eq_true in Hflag.
      split; [lia|]. by rewrite Z.mod_small by lia. }
    destruct (decide (c = -1)) as [->|].
    { injection H as <- Hflag. apply bool_decide_eq_true in Hflag.
      split; [lia|]. by rewrite Z.mod_small by lia. }
    destruct (decide (product (Dims i_) ≤ Z.abs c)); [done|].
    destruct (decide (0 ≤ encode (Dims i_) p' + c < product (Dims i_)));
      [|done].
    injection H as <-. by split. }
  intros H1 H2.
  destruct (Hinv p a q Hc Ha H1) as [Hka ->].
  pose proof (decode_in_bounds (Dims i_) (encode (Dims i_) p + a) Hpos) as Hbq.
  destruct (Hinv _ b r Hbq Hb H2) as [Hkb ->].
  rewrite encode_decode in Hkb |- * by done.
  rewrite IncreaseBySafe_spec by (done || unfold is_int in *; lia).
  destruct (decide (a + b = 0)) as [E|].
  { replace (encode (Dims i_) p + a + b) with (encode (Dims i_) p) by lia.
    by rewrite decode_encode. }
  destruct (decide (a + b = 1)) as [E|].
  { replace (encode (Dims i_) p + a + b) with (encode (Dims i_) p + 1) by lia.
    rewrite Z.mod_small by lia. by rewrite bool_decide_true by lia. }
  destruct (decide (a + b = -1)) as [E|].
  { replace (encode (Dims i_) p + a + b) with (encode (Dims i_) p - 1) by lia.
    rewrite Z.mod_small by lia. by rewrite bool_decide_true by lia. }
  rewrite decide_False by lia. rewrite decide_True by lia.
  by rewrite Z.add_assoc.
Qed.

Lemma IncreaseBySafe_compose_witness :
  valid (mkInterpreter [2; 3; 4] [2; 6; 24]) ∧
  fits (mkInterpreter [2; 3; 4] [2; 6; 24]) ∧
  IncreaseBySafe (mkInterpreter [2; 3; 4] [2; 6; 24]) [0; 0; 0] 3
    = Return ([1; 1; 0], true, None) ∧
  IncreaseBySafe (mkInterpreter [2; 3; 4] [2; 6; 24]) [1; 1; 0] 20
    = Return ([1; 2; 3], true, None) ∧
  IncreaseBySafe (mkInterpreter [2; 3; 4] [2; 6; 24]) [0; 0; 0] (3 + 20)
    = Return ([1; 2; 3], true, None).
Proof.
  assert (valid (mkInterpreter [2; 3; 4] [2; 6; 24])) as Hv.
  { split; [repeat constructor; vm_compute; discriminate|reflexivity]. }
  assert (fits (mkInterpreter [2; 3; 4] [2; 6; 24])) as Hf.
  { vm_compute. discriminate. }
  split; [exact Hv|]. split; [exact Hf|].
  split; [reflexivity|]. split; [reflexivity|].
  apply (IncreaseBySafe_compose (mkInterpreter [2; 3; 4] [2; 6; 24])
           [0; 0; 0] [1; 1; 0] [1; 2; 3] 3 20 Hv Hf);
    try reflexivity; vm_compute; split; discriminate.
Defined.

(** * Panics *)

Lemma IndexSafe_total i_ p :
  valid i_ → ∃ r, IndexSafe i_ p = Return r.
Proof.
  intros Hv. destruct (valid_inv _ Hv) as (Hne & Hall & HS & Hlen).
  destruct (CheckPoint_total i_ p Hlen) as [[e|] Hc].
  - unfold IndexSafe. rewrite Hc. by eexists.
  - apply valid_CheckPoint in Hc; [|done].
    rewrite IndexSafe_spec by done. by eexists.
Qed.

Lemma DecrementSafe_total i_ p :
  valid i_ → ∃ r, DecrementSafe i_ p = Return r.
Proof.
  intros Hv. destruct (valid_inv _ Hv) as (Hne & Hall & HS & Hlen).
  destruct (CheckPoint_total i_ p Hlen) as [[e|] Hc].
  - unfold DecrementSafe. rewrite Hc. by eexists.
  - apply valid_CheckPoint in Hc; [|done].
    rewrite DecrementSafe_spec by done. by eexists.
Qed.

Lemma IncreaseBySafe_total i_ p change :
  valid i_ → ∃ r, IncreaseBySafe i_ p change = Return r.
Proof.
  intros Hv. destruct (valid_inv _ Hv) as (Hne & Hall & HS & Hlen).
  unfold IncreaseBySafe.
  destruct (decide (change = 0)); [by eexists|].
  destruct (decide (change = 1)).
  { destruct (IncrementSafe_total i_ p Hv) as (? & ? & ? & -> & _). by eexists. }
  destruct (decide (change = -1)); [by apply DecrementSafe_total|].
  destruct (CheckPoint_total i_ p Hlen) as [[e|] Hc].
  { unfold IndexSafe. rewrite Hc. by eexists. }
  apply valid_CheckPoint in Hc; [|done].
  rewrite IndexSafe_spec by done. cbn [mbind go_bind].
  destruct (valid_Size _ Hv) as (size & Hsize & _).
  rewrite Hsize. cbn [mbind go_bind].
  destruct (change >=? size); [by eexists|].
  destruct (change <=? wrap (- size)); [by eexists|].
  set (newIndex := wrap (_ + change)).
  destruct (Z.ltb_spec newIndex 0); [cbn [orb]; by eexists|].
  destruct (Z.geb_spec newIndex size); [cbn [orb]; by eexists|].
  cbn [orb].
  destruct (PointSafe_in_range i_ newIndex size) as (q & Hq & _);
    [done|done|lia|].
  unfold Point. rewrite Hq. by eexists.
Qed.

(** X7: on an Interpreter made by the constructor no validating operation
    panics, whatever the point, the index and the change: [CheckPoint],
    [CheckIndex], [Size], [IndexSafe], [PointSafe], [IncrementSafe],
    [DecrementSafe] and [IncreaseBySafe] all return. *)
Theorem Safe_variants_never_panic (i_ : Interpreter) (p : list Z) (k change : Z) :
  valid i_ →
  (∃ e, CheckPoint i_ p = Return e) ∧
  (∃ e, CheckIndex i_ k = Return e) ∧
  (∃ s, Size i_ = Return s) ∧
  (∃ r, IndexSafe i_ p = Return r) ∧
  (∃ r, PointSafe i_ k = Return r) ∧
  (∃ r, IncrementSafe i_ p = Return r) ∧
  (∃ r, DecrementSafe i_ p = Return r) ∧
  (∃ r, IncreaseBySafe i_ p change = Return r).
Proof.
  intros Hv. destruct (valid_inv _ Hv) as (Hne & Hall & HS & Hlen).
  destruct (valid_Size _ Hv) as (size & Hsize & _).
  split_and!.
  - by apply CheckPoint_total.
  - by apply (CheckIndex_total _ _ size).
  - by exists size.
  - by apply IndexSafe_total.
  - destruct (PointSafe_total i_ k Hv) as (? & ? & -> & _). by eexists.
  - destruct (IncrementSafe_total i_ p Hv) as (? & ? & ? & -> & _). by eexists.
  - by apply DecrementSafe_total.
  - by apply IncreaseBySafe_total.
Qed.

Lemma Safe_variants_never_panic_witness :
  valid (mkInterpreter [2; 3; 4] [2; 6; 24]) ∧
  ∃ r, IncreaseBySafe (mkInterpreter [2; 3; 4] [2; 6; 24]) [0; 7] 5 = Return r.
Proof.
  assert (valid (mkInterpreter [2; 3; 4] [2; 6; 24])) as Hv.
  { split; [repeat constructor; vm_compute; discriminate|reflexivity]. }
  split; [exact Hv|].
  destruct (Safe_variants_never_panic (mkInterpreter [2; 3; 4] [2; 6; 24])
              [0; 7] 0 5 Hv) as (_ & _ & _ & _ & _ & _ & _ & H).
  exact H.
Defined.

(** X8: the panicking variants panic exactly where the validating ones
    return an error, and return the same results otherwise: on an
    Interpreter made by the constructor, [Index], [Increment] and
    [Decrement] panic exactly on the points that are not within bounds,
    [Point] panics exactly on the indices outside [[0, Size())], and
    [NewInterpreter] panics exactly on an empty vector or one with an entry
    that is not positive. *)
Theorem panicking_variants (i_ : Interpreter) (p : list Z) (k : Z) (dims : list Z) :
  valid i_ →
  (Index i_ p = Panic ↔ ¬ in_bounds (Dims i_) p) ∧
  (∀ r, IndexSafe i_ p = Return (r, None) → Index i_ p = Return r) ∧
  (Increment i_ p = Panic ↔ ¬ in_bounds (Dims i_) p) ∧
  (∀ q b, IncrementSafe i_ p = Return (q, b, None) → Increment i_ p = Return (q, b)) ∧
  (Decrement i_ p = Panic ↔ ¬ in_bounds (Dims i_) p) ∧
  (∀ q b, DecrementSafe i_ p = Return (q, b, None) → Decrement i_ p = Return (q, b)) ∧
  (∃ size, Size i_ = Return size ∧ (Point i_ k = Panic ↔ ¬ (0 ≤ k < size))) ∧
  (∀ q, PointSafe i_ k = Return (q, None) → Point i_ k = Return q) ∧
  (NewInterpreter dims = Panic ↔ dims = [] ∨ ¬ Forall (λ d, 0 < d) dims).
Proof.
  intros Hv. destruct (valid_inv _ Hv) as (Hne & Hall & HS & Hlen).
  destruct (valid_Size _ Hv) as (size & Hsize & _).
  assert (∀ e, CheckPoint i_ p = Return (Some e) → ¬ in_bounds (Dims i_) p) as Hbad.
  { intros e He Hb. apply valid_CheckPoint in Hb; [congruence|done]. }
  split_and!.
  - unfold Index. destruct (CheckPoint_total i_ p Hlen) as [[e|] Hc].
    + unfold IndexSafe. rewrite Hc. cbn. split; [by eauto|done].
    + apply valid_CheckPoint in Hc; [|done].
      rewrite IndexSafe_spec by done. cbn. split; [done|by intros []].
  - intros r Hr. unfold Index. by rewrite Hr.
  - unfold Increment. destruct (CheckPoint_total i_ p Hlen) as [[e|] Hc].
    + unfold IncrementSafe. rewrite Hc. cbn. split; [by eauto|done].
    + apply valid_CheckPoint in Hc; [|done].
      rewrite IncrementSafe_spec by done. cbn. split; [done|by intros []].
  - intros q b Hr. unfold Increment. by rewrite Hr.
  - unfold Decrement. destruct (CheckPoint_total i_ p Hlen) as [[e|] Hc].
    + unfold DecrementSafe. rewrite Hc. cbn. split; [by eauto|done].
    + apply valid_CheckPoint in Hc; [|done].
      rewrite DecrementSafe_spec by done. cbn. split; [done|by intros []].
  - intros q b Hr. unfold Decrement. by rewrite Hr.
  - exists size. split; [done|]. unfold Point.
    destruct (decide (0 ≤ k < size)) as [Hk|Hk].
    + destruct (PointSafe_in_range i_ k size Hv Hsize Hk) as (q & -> & _).
      cbn. split; [done|by intros []].
    + destruct (PointSafe_total i_ k Hv) as (q & e & Hq & He). rewrite Hq.
      destruct e as [e|]; cbn; [done|].
      destruct He as (_ & s' & Hs' & Hk'); [done|].
      assert (s' = size) as -> by congruence. done.
  - intros q Hq. unfold Point. by rewrite Hq.
  - unfold NewInterpreter. rewrite NewInterpreterSafe_eq.
    destruct dims as [|d ds]; [cbn; split; [by left|done]|].
    destruct (dims_scan 0 (d :: ds)) as [j|] eqn:Hscan; cbn.
    + split; [|done]. intros _. right. intros Hpos.
      apply (dims_scan_None 0) in Hpos. congruence.
    + split; [done|]. intros [?|Hn]; [done|].
      exfalso. apply Hn. by apply (dims_scan_None 0).
Qed.

Lemma panicking_variants_witness :
  valid (mkInterpreter [2; 3; 4] [2; 6; 24]) ∧
  (Index (mkInterpreter [2; 3; 4] [2; 6; 24]) [2; 0; 0] = Panic
   ↔ ¬ in_bounds [2; 3; 4] [2; 0; 0]).
Proof.
  assert (valid (mkInterpreter [2; 3; 4] [2; 6; 24])) as Hv.
  { split; [repeat constructor; vm_compute; discriminate|reflexivity]. }
  split; [exact Hv|].
  exact (proj1 (panicking_variants (mkInterpreter [2; 3; 4] [2; 6; 24])
                  [2; 0; 0] 0 [] Hv)).
Defined.

(** * The number of points *)

(** X9: on an Interpreter made by the constructor [Size()] is the product of
    the dimensions reduced to an [int]; when that product fits an [int],
    [Size()] is the product itself and is at least 1, and every entry of
    [Sizes] is at least 1 and divides the next one, which is no smaller. *)
Theorem Size_is_product (i_ : Interpreter) :
  valid i_ →
  Size i_ = Return (wrap (product (Dims i_))) ∧
  (fits i_ →
     Size i_ = Return (product (Dims i_)) ∧ 1 ≤ product (Dims i_) ∧
     ∀ (n : nat) s s', Sizes i_ !! n = Some s → Sizes i_ !! S n = Some s' →
       1 ≤ s ≤ s' ∧ (s | s')).
Proof.
  intros Hv. destruct (valid_inv _ Hv) as (Hne & Hall & HS & Hlen).
  assert (Forall (λ d, 0 < d) (Dims i_)) as Hpos.
  { eapply Forall_impl; [done|]. simpl. lia. }
  pose proof (product_pos _ Hpos) as HP.
  split.
  - apply Size_last. rewrite Hlen, HS.
    rewrite sizes_of_lookup_wrap.
    + destruct (Dims i_) as [|d ds] eqn:E; [done|].
      cbn [length]. replace (S (S (length ds) - 1)) with (length (d :: ds))
        by (simpl; lia).
      by rewrite firstn_all.
    + by destruct Hv.
    + destruct (Dims i_); [done|]. simpl. lia.
  - intros Hf. split; [by apply fits_Size|]. split; [lia|].
    intros n s s' Hs Hs'. rewrite HS in Hs, Hs'.
    assert (S n < length (Dims i_))%nat as Hn.
    { apply lookup_lt_Some in Hs'. by rewrite sizes_of_length in Hs'. }
    destruct (lookup_lt_is_Some_2 (Dims i_) n) as [d Hd]; [lia|].
    destruct (lookup_lt_is_Some_2 (Dims i_) (S n)) as [d' Hd']; [lia|].
    rewrite (sizes_of_lookup _ n d) in Hs by done.
    rewrite (sizes_of_lookup _ (S n) d') in Hs' by done.
    injection Hs as <-. injection Hs' as <-.
    rewrite (product_take_S _ (S n) d') by done.
    pose proof (product_take_le (Dims i_) (S n) Hpos) as Hle.
    assert (0 < d') as Hd'pos.
    { by apply (Forall_lookup_1 _ _ _ _ Hpos Hd'). }
    split; [nia|]. by apply Z.divide_factor_l.
Qed.

Lemma Size_is_product_witness :
  valid (mkInterpreter [2; 3; 4] [2; 6; 24]) ∧
  Size (mkInterpreter [2; 3; 4] [2; 6; 24])
  = Return (wrap (product [2; 3; 4])).
Proof.
  assert (valid (mkInterpreter [2; 3; 4] [2; 6; 24])) as Hv.
  { split; [repeat constructor; vm_compute; discriminate|reflexivity]. }
  split; [exact Hv|].
  exact (proj1 (Size_is_product (mkInterpreter [2; 3; 4] [2; 6; 24]) Hv)).
Defined.

(** * The traversal engine: one turn of a goroutine *)

Lemma sum_list_fmap_insert {A} (f : A → nat) (l : list A) (t : nat) (x y : A) :
  l !! t = Some x →
  (sum_list (f <$> <[t := y]> l) + f x = sum_list (f <$> l) + f y)%nat.
Proof.
  revert t. induction l as [|a l IH]; intros [|t] Hl; simplify_eq/=; [lia|].
  specialize (IH t Hl). lia.
Qed.

Lemma pending_all_insert i ws t w w' :
  ws !! t = Some w →
  (pending_all i (<[t := w']> ws) + pending i w
   = pending_all i ws + pending i w')%nat.
Proof. apply sum_list_fmap_insert. Qed.

Lemma visits_app i calls1 calls2 :
  visits i (calls1 ++ calls2) = (visits i calls1 + visits i calls2)%nat.
Proof. unfold visits. by rewrite filter_app, length_app. Qed.

Lemma visits_one i p k :
  visits i [(p, k)] = if decide (k = i) then 1%nat else 0%nat.
Proof.
  unfold visits. rewrite filter_cons, filter_nil. simpl.
  by destruct (decide (k = i)).
Qed.

Lemma makePoint_nonneg i_ useFast k p :
  makePoint i_ useFast k = Return (p, None) → 0 ≤ k.
Proof.
  assert (∀ r, PointSafe i_ k = Return (r, None) → 0 ≤ k) as HP.
  { intros r. unfold PointSafe, CheckIndex.
    destruct (Z.ltb_spec k 0); [done|lia]. }
  unfold makePoint. destruct useFast; [|apply HP].
  unfold Point. destruct (PointSafe i_ k) as [[q [e|]]|] eqn:E; try done.
  intros _. by eapply HP.
Qed.

Section turns.
Variable i_ : Interpreter.
Variable fn : option visitor.
Variable options : ThreadingOptions.
Variable useFast : bool.
Variable size : Z.
Hypothesis Hsize : Size i_ = Return size.
Hypothesis Hsize_int : is_int size.
Hypothesis Hops_int : is_int (OpsPerThread options).
Hypothesis Hops : 1 ≤ size → 1 ≤ OpsPerThread options.

(** The ways a goroutine can leave the critical section. *)
Lemma claim_cases sh e sh' w :
  claim i_ options useFast sh e = Return (sh', w) →
  (s_err sh = None → 0 ≤ s_index sh) →
  (* an error is on record: the goroutine returns *)
  (w = Done ∧ s_err sh' ≠ None ∧ (s_err sh ≠ None → sh' = sh)) ∨
  (* the indices are exhausted: the goroutine returns *)
  (w = Done ∧ sh' = sh ∧ s_err sh = None ∧ e = None ∧ size ≤ s_index sh) ∨
  (* a batch is fetched *)
  (w = InBatch (s_index sh) (Z.min (s_index sh') size) (s_point sh) None ∧
   s_err sh = None ∧ e = None ∧ s_err sh' = None ∧
   0 ≤ s_index sh < size ∧ s_index sh < s_index sh').
Proof.
  pose proof int_consts as [HMin HMax].
  unfold claim. intros H Hc.
  destruct (s_err sh) as [e0|] eqn:Herr.
  { injection H as <- <-. left. rewrite Herr. done. }
  destruct e as [e|].
  { injection H as <- <-. left. done. }
  specialize (Hc eq_refl).
  rewrite Hsize in H. cbn [mbind go_bind] in H.
  destruct (Z.geb_spec (s_index sh) size) as [Hge|Hlt].
  { injection H as <- <-. right. left. done. }
  unfold is_int in *.
  set (index := wrap (s_index sh + OpsPerThread options)) in *.
  assert (MaxInt < s_index sh + OpsPerThread options → index < 0) as Hover.
  { intros ?. apply wrap_overflow; lia. }
  assert (s_index sh + OpsPerThread options ≤ MaxInt →
          index = s_index sh + OpsPerThread options) as Hfit.
  { intros ?. apply wrap_id. unfold is_int. lia. }
  destruct (Z.ltb_spec index size) as [Hin|Hout].
  - unfold refresh in H.
    destruct (Z.gtb_spec (OpsPerThread options) 1) as [Hmany|Hone].
    + destruct (makePoint i_ useFast index) as [[p [e|]]|] eqn:Hmp;
        cbn [mbind go_bind] in H; [| |done].
      { injection H as <- <-. left. done. }
      apply makePoint_nonneg in Hmp.
      destruct (Z.gtb_spec index size); [lia|].
      injection H as <- <-. right. right. cbn [s_index s_err].
      rewrite Z.min_l by lia. split_and!; try done; lia.
    + destruct (increment i_ useFast (s_point sh)) as [[[p cont] [e|]]|] eqn:Hinc;
        cbn [mbind go_bind] in H; [| |done].
      { injection H as <- <-. left. done. }
      destruct cont.
      * destruct (Z.gtb_spec index size); [lia|].
        injection H as <- <-. right. right. cbn [s_index s_err].
        rewrite Z.min_l by lia. split_and!; try done; lia.
      * injection H as <- <-. left. done.
  - cbn [mbind go_bind] in H. injection H as <- <-. right. right.
    cbn [s_index s_err].
    destruct (Z.gtb_spec index size).
    + rewrite Z.min_r by lia. split_and!; try done; lia.
    + assert (index = size) as -> by lia.
      rewrite Z.min_l by lia. split_and!; try done; lia.
Qed.

(** The ways a turn of the inner loop can end. *)
Lemma visit_cases localIndex localEnd localPoint e w calls :
  visit i_ fn useFast localIndex localEnd localPoint e = Return (w, calls) →
  0 ≤ localIndex → localEnd ≤ size →
  (localEnd ≤ localIndex ∧ w = AtLock e ∧ calls = []) ∨
  (localIndex < localEnd ∧ calls = [(localPoint, localIndex)] ∧
   ∃ f e', fn = Some f ∧
     e' = match f localPoint localIndex with Some x => Some x | None => e end ∧
     ((w = AtLock e' ∧ localIndex + 1 = localEnd) ∨
      (∃ x, w = AtLock (Some x) ∧ localIndex + 1 < localEnd) ∨
      (∃ p, w = InBatch (localIndex + 1) localEnd p e' ∧
            localIndex + 1 < localEnd ∧
            increment i_ useFast localPoint = Return (p, true, None)))).
Proof.
  pose proof int_consts as [HMin HMax]. unfold is_int in *.
  unfold visit. intros H Hli Hle.
  destruct (Z.ltb_spec localIndex localEnd) as [Hlt|Hge].
  2:{ injection H as <- <-. left. done. }
  right. destruct fn as [f|]; [|done]. cbn [mbind go_bind] in H.
  rewrite (wrap_id (localIndex + 1)) in H by (unfold is_int; lia).
  split; [done|].
  destruct (decide (localIndex + 1 = localEnd)) as [Heq|Hne].
  { injection H as <- <-. split; [done|]. eexists f, _.
    split; [done|]. split; [done|]. left. done. }
  destruct (increment i_ useFast localPoint) as [[[p cont] [x|]]|] eqn:Hinc;
    cbn [mbind go_bind] in H; [| |done].
  { injection H as <- <-. split; [done|]. eexists f, _.
    split; [done|]. split; [done|]. right. left. eexists. split; [done|lia]. }
  destruct cont.
  - injection H as <- <-. split; [done|]. eexists f, _.
    split; [done|]. split; [done|]. right. right. eexists.
    split; [done|]. split; [lia|done].
  - injection H as <- <-. split; [done|]. eexists f, _.
    split; [done|]. split; [done|]. right. left. eexists. split; [done|lia].
Qed.

End turns.

(** * The traversal engine: invariants of the interleavings *)

Lemma total_insert i ws t w w' calls cs :
  ws !! t = Some w →
  (visits i (calls ++ cs) + pending_all i (<[t := w']> ws) + pending i w
   = visits i calls + pending_all i ws + visits i cs + pending i w')%nat.
Proof.
  intros Hw. rewrite visits_app.
  pose proof (pending_all_insert i ws t w w' Hw). lia.
Qed.

Lemma weight_insert ws t w w' :
  ws !! t = Some w →
  (sum_list (weight <$> <[t := w']> ws) + weight w
   = sum_list (weight <$> ws) + weight w')%nat.
Proof. apply sum_list_fmap_insert. Qed.

Lemma failing_insert sh ws calls t w sh' w' calls' :
  ws !! t = Some w →
  failing (mkState sh ws calls) →
  (s_err sh ≠ None → s_err sh' ≠ None) →
  (worker_err w ≠ None → worker_err w' ≠ None ∨ s_err sh' ≠ None) →
  failing (mkState sh' (<[t := w']> ws) calls').
Proof.
  intros Hw Hf Hsh Hwe. unfold failing in *.
  cbn [st_shared st_workers] in *. destruct Hf as [Hs|(t' & x & Hx & He)].
  - left. by apply Hsh.
  - destruct (decide (t' = t)) as [->|Hne].
    + assert (x = w) as -> by congruence.
      destruct (Hwe He) as [?|?]; [|by left].
      right. exists t, w'. split; [|done].
      apply list_lookup_insert_eq. by eapply lookup_lt_Some.
    + right. exists t', x. split; [|done].
      by rewrite list_lookup_insert_ne.
Qed.

Section invariants.
Variable i_ : Interpreter.
Variable fn : option visitor.
Variable options : ThreadingOptions.
Variable useFast : bool.
Variable size : Z.
Hypothesis Hsize : Size i_ = Return size.
Hypothesis Hsize_int : is_int size.
Hypothesis Hops_int : is_int (OpsPerThread options).
Hypothesis Hops : 1 ≤ size → 1 ≤ OpsPerThread options.

Local Ltac count_cases :=
  unfold pending; rewrite ?visits_one;
  repeat case_bool_decide; repeat case_decide; try lia.

(** Every turn keeps the invariant and uses up some of the turns left. *)
Lemma step_inv st st' :
  traversal_inv size st →
  step i_ fn options useFast st st' →
  traversal_inv size st' ∧ (turns_left size st' < turns_left size st)%nat.
Proof.
  destruct st as [sh ws calls].
  intros ([Hcur Hwf] & Hmost & Hlost) [t Ht].
  unfold thread_step in Ht. cbn [st_workers st_shared st_calls] in *.
  destruct (ws !! t) as [[e|li le lp e|]|] eqn:Hw; [| |done|done].
  - (* the goroutine takes the lock *)
    destruct (claim i_ options useFast sh e) as [[sh' w]|] eqn:Hcl; [|done].
    cbn [mbind go_bind] in Ht. injection Ht as <-.
    rewrite <-(app_nil_r calls).
    destruct (claim_cases i_ options useFast size Hsize Hsize_int Hops_int Hops
                _ _ _ _ Hcl Hcur)
      as [(-> & Herr' & Hsame)|[(-> & -> & Herr & -> & Hdone)
         |(-> & Herr & -> & Herr' & Hc & Hadv)]].
    + (* with an error on record *)
      split; [split_and!|].
      * split; [done|]. by apply Forall_insert.
      * intros i. destruct (Hmost i) as [H1 H2]. cbn [st_shared st_workers st_calls] in *.
        pose proof (total_insert i ws t _ Done calls [] Hw) as HT.
        cbn [pending] in HT. change (visits i []) with 0%nat in HT.
        split; [lia|]. intros Hi. split; [apply H2; lia|done].
      * left. by left.
      * unfold turns_left. cbn [st_shared st_workers].
        pose proof (weight_insert ws t _ Done Hw) as HW. cbn [weight] in HW.
        destruct (s_err sh') as [?|]; [|done].
        destruct (s_err sh); lia.
    + (* with nothing left to fetch *)
      split; [split_and!|].
      * split; [done|]. by apply Forall_insert.
      * intros i. destruct (Hmost i) as [H1 H2]. cbn [st_shared st_workers st_calls] in *.
        pose proof (total_insert i ws t _ Done calls [] Hw) as HT.
        cbn [pending] in HT. change (visits i []) with 0%nat in HT.
        split; [lia|]. intros Hi. apply H2. lia.
      * destruct Hlost as [Hf|[Hall HDone]].
        -- left. eapply failing_insert; [done|done|done|done].
        -- right. split.
           ++ intros i Hi. specialize (Hall i Hi). cbn [st_shared st_workers st_calls] in *.
              pose proof (total_insert i ws t _ Done calls [] Hw) as HT.
              cbn [pending] in HT. change (visits i []) with 0%nat in HT. lia.
           ++ by apply Forall_insert.
      * unfold turns_left. cbn [st_shared st_workers].
        pose proof (weight_insert ws t _ Done Hw) as HW. cbn [weight] in HW.
        destruct (s_err sh); lia.
    + (* with a batch *)
      assert (∀ i, (visits i (calls ++ []) +
                    pending_all i (<[t := InBatch (s_index sh)
                       (Z.min (s_index sh') size) (s_point sh) None]> ws)
                    = visits i calls + pending_all i ws +
                      (if bool_decide (s_index sh ≤ i < Z.min (s_index sh') size)%Z
                       then 1 else 0))%nat) as HT.
      { intros i.
        pose proof (total_insert i ws t _ (InBatch (s_index sh)
                      (Z.min (s_index sh') size) (s_point sh) None) calls [] Hw) as HT.
        cbn [pending] in HT. change (visits i []) with 0%nat in HT. lia. }
      split; [split_and!|].
      * split; [cbn; lia|]. apply Forall_insert; [done|]. cbn. lia.
      * intros i. destruct (Hmost i) as [H1 H2]. cbn [st_shared st_workers st_calls] in *.
        rewrite HT. case_bool_decide.
        -- assert (visits i calls + pending_all i ws = 0)%nat as H0.
           { destruct (decide (1 ≤ visits i calls + pending_all i ws)%nat) as [Hge|]; [|lia].
             destruct (H2 Hge) as [_ Hlt]. specialize (Hlt Herr). lia. }
           split; [lia|]. intros _. split; [lia|]. intros _. lia.
        -- split; [lia|]. intros Hi.
           destruct (H2 ltac:(lia)) as [Hr Hlt]. split; [done|].
           intros _. specialize (Hlt Herr). lia.
      * destruct Hlost as [Hf|[Hall HDone]].
        -- left. eapply failing_insert; [done|done| |done].
           intros ?. congruence.
        -- right. split.
           ++ intros i Hi. cbn [st_shared st_workers st_calls] in *. rewrite HT. case_bool_decide; [lia|].
              assert (0 ≤ i < Z.min (s_index sh) size) as Hi' by lia.
              specialize (Hall i Hi'). lia.
           ++ apply Forall_insert; [|done].
              eapply Forall_impl; [exact HDone|]. cbn. intros x Hx Hd.
              specialize (Hx Hd). lia.
      * unfold turns_left. cbn [st_shared st_workers].
        pose proof (weight_insert ws t _ (InBatch (s_index sh)
                      (Z.min (s_index sh') size) (s_point sh) None) Hw) as HW.
        cbn [weight] in HW. rewrite Herr, Herr'. lia.
  - (* the goroutine visits an index *)
    pose proof (Forall_lookup_1 _ _ _ _ Hwf Hw) as [Hli Hle]. cbn in Hli, Hle.
    destruct (visit i_ fn useFast li le lp e) as [[w cs]|] eqn:Hvis; [|done].
    cbn [mbind go_bind] in Ht. injection Ht as <-.
    destruct (visit_cases i_ fn useFast size Hsize_int _ _ _ _ _ _ Hvis Hli Hle)
      as [(Hempty & -> & ->)|(Hlt & -> & f & e' & Hfn & He' & Hw')].
    + (* the batch is finished *)
      split; [split_and!|].
      * split; [done|]. by apply Forall_insert.
      * intros i. destruct (Hmost i) as [H1 H2]. cbn [st_shared st_workers st_calls] in *.
        pose proof (total_insert i ws t _ (AtLock e) calls [] Hw) as HT.
        change (visits i []) with 0%nat in HT. revert HT. count_cases.
        intros HT. split; [lia|]. intros Hi. apply H2. lia.
      * destruct Hlost as [Hf|[Hall HDone]].
        -- left. eapply failing_insert; [done|done|done|]. cbn. by left.
        -- right. split.
           ++ intros i Hi. specialize (Hall i Hi). cbn [st_shared st_workers st_calls] in *.
              pose proof (total_insert i ws t _ (AtLock e) calls [] Hw) as HT.
              change (visits i []) with 0%nat in HT. revert HT. count_cases.
           ++ by apply Forall_insert.
      * unfold turns_left. cbn [st_shared st_workers].
        pose proof (weight_insert ws t _ (AtLock e) Hw) as HW.
        cbn [weight] in HW. destruct (s_err sh); lia.
    + (* [fn] is called *)
      assert (worker_err w ≠ None ∨ e' = None ∧ e = None) as Herrs.
      { destruct e' as [x|] eqn:E.
        - left. destruct Hw' as [[-> _]|[(? & -> & _)|(? & -> & _)]]; done.
        - right. split; [done|]. destruct (f lp li); [done|]. done. }
      assert (∀ i, (visits i (calls ++ [(lp, li)]) + pending_all i (<[t := w]> ws)
                    ≤ visits i calls + pending_all i ws)%nat ∧
                   (worker_err w = None →
                    visits i (calls ++ [(lp, li)]) + pending_all i (<[t := w]> ws)
                    = visits i calls + pending_all i ws)%nat) as HT.
      { intros i.
        pose proof (total_insert i ws t _ w calls [(lp, li)] Hw) as HT.
        destruct Hw' as [[-> Heq]|[(x & -> & Hne)|(p & -> & Hne & _)]];
          revert HT; count_cases; intros; split; try lia; try done. }
      split; [split_and!|].
      * split; [done|]. apply Forall_insert; [done|].
        destruct Hw' as [[-> _]|[(? & -> & _)|(? & -> & ? & _)]]; cbn; try done. lia.
      * intros i. destruct (Hmost i) as [H1 H2]. cbn [st_shared st_workers st_calls] in *.
        destruct (HT i) as [HT1 _]. split; [lia|].
        intros Hi. apply H2. lia.
      * destruct Hlost as [Hf|[Hall HDone]].
        -- left. eapply failing_insert; [done|done|done|]. cbn. intros He.
           left. destruct Herrs as [?|[_ ->]]; done.
        -- destruct (decide (worker_err w = None)) as [Hnone|Hsome].
           ++ right. split.
              ** intros i Hi. specialize (Hall i Hi). cbn [st_shared st_workers st_calls] in *.
                 destruct (HT i) as [_ HT2]. rewrite HT2 by done. done.
              ** apply Forall_insert; [done|]. intros ->.
                 destruct Hw' as [[? _]|[(? & ? & _)|(? & ? & _)]]; done.
           ++ left. right. exists t, w. split; [|done]. cbn.
              apply list_lookup_insert_eq. by eapply lookup_lt_Some.
      * unfold turns_left. cbn [st_shared st_workers].
        pose proof (weight_insert ws t _ w Hw) as HW.
        destruct Hw' as [[-> Heq]|[(x & -> & Hne)|(p & -> & Hne & _)]];
          cbn [weight] in HW; destruct (s_err sh); lia.
Qed.

End invariants.

Lemma pending_all_replicate i n e :
  pending_all i (replicate n (AtLock e)) = 0%nat.
Proof.
  unfold pending_all. induction n as [|n IH]; [done|].
  rewrite replicate_S, fmap_cons. cbn [sum_list pending]. by rewrite IH.
Qed.

Lemma pending_all_finished i ws :
  Forall (λ w, w = Done) ws → pending_all i ws = 0%nat.
Proof.
  unfold pending_all. induction 1 as [|w ws -> _ IH]; [done|].
  rewrite fmap_cons. cbn [sum_list pending]. by rewrite IH.
Qed.

Lemma init_inv i_ opts size : traversal_inv size (init_state i_ opts).
Proof.
  unfold init_state. split_and!.
  - split; [done|]. cbn. apply Forall_replicate. done.
  - intros i. cbn [st_calls st_workers]. rewrite pending_all_replicate.
    change (visits i []) with 0%nat. split; [lia|]. lia.
  - right. split.
    + intros i Hi. cbn [st_shared s_index] in Hi. lia.
    + cbn. apply Forall_replicate. done.
Qed.

Lemma step_length i_ fn opts useFast st st' :
  step i_ fn opts useFast st st' →
  length (st_workers st') = length (st_workers st).
Proof.
  intros [t Ht]. unfold thread_step in Ht.
  destruct (st_workers st !! t) as [[e|li le lp e|]|]; [| |done|done].
  - destruct (claim _ _ _ _ _) as [[sh' w]|]; [|done].
    cbn in Ht. injection Ht as <-. cbn. by rewrite length_insert.
  - destruct (visit _ _ _ _ _ _ _) as [[w cs]|]; [|done].
    cbn in Ht. injection Ht as <-. cbn. by rewrite length_insert.
Qed.

(** What [fill_options] leaves in the options. *)
Lemma fill_options_spec i_ options size :
  Size i_ = Return size → is_int size → int_options options →
  ∃ opts, fill_options i_ options = Return opts ∧
    is_int (OpsPerThread opts) ∧ (1 ≤ size → 1 ≤ OpsPerThread opts) ∧
    1 ≤ NumThreads opts ∧
    (options = None → opts = mkThreadingOptions size 1) ∧
    (∀ o, options = Some o →
       OpsPerThread opts = Z.max 1 (OpsPerThread o) ∧
       NumThreads opts = Z.max 1 (NumThreads o)).
Proof.
  intros Hsize Hint Hopt. pose proof int_consts as [HMin HMax].
  destruct options as [o|]; cbn [fill_options].
  - destruct Hopt as [Ho Hn]. unfold is_int in *.
    eexists. split; [done|]. cbn [OpsPerThread NumThreads].
    destruct (Z.ltb_spec (OpsPerThread o) 1), (Z.ltb_spec (NumThreads o) 1);
      (split_and!; try lia; try done; intros ? [= <-]; lia).
  - rewrite Hsize. cbn [mbind go_bind]. eexists. split; [done|].
    cbn [OpsPerThread NumThreads]. split_and!; try done; lia.
Qed.

Section reachable.
Variable i_ : Interpreter.
Variable fn : option visitor.
Variable opts : ThreadingOptions.
Variable useFast : bool.
Variable size : Z.
Hypothesis Hsize : Size i_ = Return size.
Hypothesis Hsize_int : is_int size.
Hypothesis Hops_int : is_int (OpsPerThread opts).
Hypothesis Hops : 1 ≤ size → 1 ≤ OpsPerThread opts.

Lemma reachable_inv st :
  rtc (step i_ fn opts useFast) (init_state i_ opts) st →
  traversal_inv size st ∧
  length (st_workers st) = Z.to_nat (NumThreads opts).
Proof.
  revert st. apply rtc_ind_r.
  - split; [apply init_inv|]. cbn. by rewrite length_replicate.
  - intros st st' Hr Hstep [IH IHl].
    split; [by eapply step_inv|]. by rewrite (step_length _ _ _ _ _ _ Hstep).
Qed.

Lemma inv_sn st :
  traversal_inv size st → sn (step i_ fn opts useFast) st.
Proof.
  remember (turns_left size st) as n eqn:Hn. revert st Hn.
  induction (lt_wf n) as [n _ IH]. intros st -> Hinv.
  constructor. intros st' Hstep. unfold flip in Hstep.
  destruct (step_inv i_ fn opts useFast size Hsize Hsize_int Hops_int Hops
              _ _ Hinv Hstep) as [Hinv' Hlt].
  by eapply IH.
Qed.

Lemma nsteps_bound n st st' :
  traversal_inv size st →
  nsteps (step i_ fn opts useFast) n st st' →
  (n + turns_left size st' ≤ turns_left size st)%nat.
Proof.
  intros Hinv Hn. revert Hinv.
  induction Hn as [|n st st1 st' Hstep Hn IH]; intros Hinv; [lia|].
  destruct (step_inv i_ fn opts useFast size Hsize Hsize_int Hops_int Hops
              _ _ Hinv Hstep) as [Hinv' Hlt].
  specialize (IH Hinv'). lia.
Qed.

(** When every goroutine has returned and no error is recorded, each index
    below [size] has been visited once and no other index has. *)
Lemma finished_exactly_once st :
  traversal_inv size st → st_workers st ≠ [] →
  finished st → s_err (st_shared st) = None →
  ∀ i, visits i (st_calls st)
       = if bool_decide (0 ≤ i < size) then 1%nat else 0%nat.
Proof.
  intros (Hwf & Hmost & Hlost) Hne Hfin Herr i. unfold finished in Hfin.
  destruct Hlost as [[Hf|(t & w & Hw & He)]|[Hall HDone]].
  - done.
  - rewrite (Forall_lookup_1 _ _ _ _ Hfin Hw) in He. done.
  - destruct (Hmost i) as [H1 H2]. rewrite (pending_all_finished i) in H1, H2 by done.
    assert (size ≤ s_index (st_shared st)) as Hc.
    { destruct (st_workers st) as [|w ws]; [done|].
      inversion Hfin; subst. inversion HDone; subst. auto. }
    case_bool_decide as Hi.
    + specialize (Hall i ltac:(lia)).
      rewrite (pending_all_finished i) in Hall by done. lia.
    + destruct (decide (1 ≤ visits i (st_calls st))%nat) as [Hge|]; [|lia].
      destruct (H2 ltac:(lia)) as [? _]. lia.
Qed.

End reachable.

(** * The traversal engine: panics, progress, termination *)

Lemma run_rtc i_ fn opts useFast sched : ∀ st st',
  run i_ fn opts useFast sched st = Return st' →
  rtc (step i_ fn opts useFast) st st'.
Proof.
  induction sched as [|t sched IH]; intros st st' Hrun; cbn [run] in Hrun.
  - injection Hrun as <-. done.
  - destruct (thread_step i_ fn opts useFast t st) as [[st1|]|] eqn:Ht.
    + cbn [mbind go_bind] in Hrun. eapply rtc_l; [by exists t|]. by apply IH.
    + done.
    + by apply IH.
Qed.

Lemma claim_total i_ opts sh e :
  valid i_ → ∃ r, claim i_ opts false sh e = Return r.
Proof.
  intros Hv. destruct (valid_Size _ Hv) as (size & Hsize & _).
  unfold claim. destruct (s_err sh); [by eexists|].
  destruct e; [by eexists|]. rewrite Hsize. cbn [mbind go_bind].
  destruct (s_index sh >=? size); [by eexists|].
  set (index := wrap _).
  destruct (index <? size); cbn [mbind go_bind].
  2:{ by eexists. }
  unfold refresh, makePoint, increment.
  destruct (OpsPerThread opts >? 1).
  - destruct (PointSafe_total i_ index Hv) as (p & e & -> & _).
    cbn [mbind go_bind]. destruct e; by eexists.
  - destruct (IncrementSafe_total i_ (s_point sh) Hv) as (p & b & e & -> & _).
    cbn [mbind go_bind]. destruct e; [by eexists|]. destruct b; by eexists.
Qed.

Lemma visit_total i_ f li le lp e :
  valid i_ → ∃ r, visit i_ (Some f) false li le lp e = Return r.
Proof.
  intros Hv. unfold visit. destruct (li <? le); [|by eexists].
  cbn [mbind go_bind]. destruct (decide _); [by eexists|].
  unfold increment.
  destruct (IncrementSafe_total i_ lp Hv) as (p & b & x & -> & _).
  cbn [mbind go_bind]. destruct x; [by eexists|]. destruct b; by eexists.
Qed.

Lemma safe_no_crash i_ f opts st :
  valid i_ → ¬ crashes i_ (Some f) opts false st.
Proof.
  intros Hv [t Ht]. unfold thread_step in Ht.
  destruct (st_workers st !! t) as [[e|li le lp e|]|]; [| |done|done].
  - destruct (claim_total i_ opts (st_shared st) e Hv) as [[sh w] Hc].
    rewrite Hc in Ht. done.
  - destruct (visit_total i_ f li le lp e Hv) as [[w cs] Hc].
    rewrite Hc in Ht. done.
Qed.

Lemma safe_progress i_ f opts st :
  valid i_ → finished st ∨ ∃ st', step i_ (Some f) opts false st st'.
Proof.
  intros Hv. destruct (decide (finished st)) as [?|Hnf]; [by left|right].
  apply not_Forall_Exists in Hnf; [|apply _].
  apply Exists_exists in Hnf as (w & Hw & Hnd).
  apply list_elem_of_lookup in Hw as [t Ht].
  pose proof (safe_no_crash i_ f opts st Hv) as Hnc.
  destruct (thread_step i_ (Some f) opts false t st) as [[st'|]|] eqn:E.
  - exists st'. by exists t.
  - exfalso. apply Hnc. by exists t.
  - unfold thread_step in E. rewrite Ht in E. destruct w; try done. by exfalso; apply Hnd.
Qed.

Lemma safe_completes i_ f opts size st :
  valid i_ → Size i_ = Return size → is_int size →
  is_int (OpsPerThread opts) → (1 ≤ size → 1 ≤ OpsPerThread opts) →
  traversal_inv size st →
  ∃ final, rtc (step i_ (Some f) opts false) st final ∧ finished final.
Proof.
  intros Hv Hsize Hint Hoi Hops Hinv.
  pose proof (inv_sn i_ (Some f) opts false size Hsize Hint Hoi Hops st Hinv) as Hsn.
  induction Hsn as [st _ IH].
  destruct (safe_progress i_ f opts st Hv) as [Hfin|[st' Hstep]].
  - by exists st.
  - destruct (step_inv i_ (Some f) opts false size Hsize Hint Hoi Hops
                _ _ Hinv Hstep) as [Hinv' _].
    destruct (IH st' Hstep Hinv') as (final & Hr & Hfin).
    exists final. split; [|done]. by eapply rtc_l.
Qed.

Lemma turns_left_init i_ opts size :
  turns_left size (init_state i_ opts)
  = (4 * Z.to_nat size + Z.to_nat (NumThreads opts))%nat.
Proof.
  unfold turns_left, init_state. cbn [st_shared st_workers s_err s_index].
  rewrite Z.sub_0_r. f_equal.
  induction (Z.to_nat (NumThreads opts)) as [|n IH]; [done|].
  rewrite replicate_S, fmap_cons. cbn [sum_list weight]. by rewrite IH.
Qed.

(** * The traversal engine: each index once *)

(** X10: whatever the function, the options, the mode and the interleaving
    of the goroutines, at every moment of a traversal of an Interpreter made
    by the constructor every index has been handed to [fn] at most once, and
    only indices in [[0, Size())] have; so it is for the calls made when
    [generalMapApply] returns, with an error or without. *)
Theorem traversal_at_most_once (i_ : Interpreter) (fn : option visitor)
    (options : option ThreadingOptions) (useFast : bool) :
  valid i_ → int_options options →
  ∃ opts size, fill_options i_ options = Return opts ∧ Size i_ = Return size ∧
    (∀ st, rtc (step i_ fn opts useFast) (init_state i_ opts) st →
       ∀ i, (visits i (st_calls st) ≤ 1)%nat ∧
            ((1 ≤ visits i (st_calls st))%nat → 0 ≤ i < size)) ∧
    (∀ calls r, generalMapApply i_ fn options useFast calls r →
       ∀ i, (visits i calls ≤ 1)%nat ∧ ((1 ≤ visits i calls)%nat → 0 ≤ i < size)).
Proof.
  intros Hv Hopt. destruct (valid_Size _ Hv) as (size & Hsize & Hint).
  destruct (fill_options_spec i_ options size Hsize Hint Hopt)
    as (opts & Hfill & Hoi & Hops & _).
  exists opts, size. split; [done|]. split; [done|].
  assert (∀ st, rtc (step i_ fn opts useFast) (init_state i_ opts) st →
            ∀ i, (visits i (st_calls st) ≤ 1)%nat ∧
                 ((1 ≤ visits i (st_calls st))%nat → 0 ≤ i < size)) as Hreach.
  { intros st Hr i.
    destruct (reachable_inv i_ fn opts useFast size Hsize Hint Hoi Hops st Hr)
      as [(_ & Hmost & _) _].
    destruct (Hmost i) as [H1 H2]. split; [lia|].
    intros Hi. apply H2. lia. }
  split; [done|].
  intros calls r Hg i. unfold generalMapApply in Hg.
  assert (calls = [] ∨ ∃ final,
            rtc (step i_ fn opts useFast) (init_state i_ opts) final ∧
            calls = st_calls final) as [->|(final & Hr & ->)].
  { destruct useFast, fn; try (by left; destruct Hg);
      destruct Hg as (opts' & final & Hf & Hr & _ & -> & _);
      right; exists final; (split; [|done]); congruence. }
  - change (visits i []) with 0%nat. split; lia.
  - by apply Hreach.
Qed.

Lemma traversal_at_most_once_witness :
  valid (mkInterpreter [2; 3] [2; 6]) ∧
  int_options (Some (mkThreadingOptions 2 2)) ∧
  generalMapApply (mkInterpreter [2; 3] [2; 6])
    (Some (λ _ k, if decide (k = 0) then Some (ForeignError "stop") else None))
    (Some (mkThreadingOptions 2 2)) false
    [([0; 0], 0); ([1; 0], 1); ([0; 1], 2); ([1; 1], 3)]
    (Some (ForeignError "stop")) ∧
  ∃ opts size,
    fill_options (mkInterpreter [2; 3] [2; 6]) (Some (mkThreadingOptions 2 2))
      = Return opts ∧
    Size (mkInterpreter [2; 3] [2; 6]) = Return size ∧
    ∀ i,
      (visits i [([0; 0], 0); ([1; 0], 1); ([0; 1], 2); ([1; 1], 3)]%Z ≤ 1)%nat ∧
      ((1 ≤ visits i [([0; 0], 0); ([1; 0], 1); ([0; 1], 2); ([1; 1], 3)]%Z)%nat →
       0 ≤ i < size).
Proof.
  assert (valid (mkInterpreter [2; 3] [2; 6])) as Hv.
  { split; [repeat constructor; vm_compute; discriminate|reflexivity]. }
  assert (int_options (Some (mkThreadingOptions 2 2))) as Ho.
  { split; vm_compute; split; discriminate. }
  assert (generalMapApply (mkInterpreter [2; 3] [2; 6])
            (Some (λ _ k, if decide (k = 0) then Some (ForeignError "stop")
                          else None))
            (Some (mkThreadingOptions 2 2)) false
            [([0; 0], 0); ([1; 0], 1); ([0; 1], 2); ([1; 1], 3)]
            (Some (ForeignError "stop"))) as Hg.
  { eexists _, _. split; [reflexivity|]. split.
    - apply (run_rtc _ _ _ _ [0; 1; 0; 0; 0; 1; 1; 1]%nat).
      vm_compute. reflexivity.
    - split; [repeat constructor|]. split; reflexivity. }
  split; [exact Hv|]. split; [exact Ho|]. split; [exact Hg|].
  destruct (traversal_at_most_once (mkInterpreter [2; 3] [2; 6])
              (Some (λ _ k, if decide (k = 0) then Some (ForeignError "stop")
                            else None))
              (Some (mkThreadingOptions 2 2)) false Hv Ho)
    as (opts & size & Hf & Hs & _ & Hruns).
  exists opts, size. split; [exact Hf|]. split; [exact Hs|].
  exact (Hruns _ _ Hg).
Defined.

(** X11: whatever the options, the mode and the interleaving of the
    goroutines, when [generalMapApply] returns [nil] on an Interpreter made
    by the constructor, [fn] has been called exactly once with each index in
    [[0, Size())] and never with another index. *)
Theorem traversal_exactly_once (i_ : Interpreter) (fn : option visitor)
    (options : option ThreadingOptions) (useFast : bool)
    (calls : list (list Z * Z)) :
  valid i_ → int_options options →
  generalMapApply i_ fn options useFast calls None →
  ∃ size, Size i_ = Return size ∧
    ∀ i, visits i calls = if bool_decide (0 ≤ i < size) then 1%nat else 0%nat.
Proof.
  intros Hv Hopt Hg. destruct (valid_Size _ Hv) as (size & Hsize & Hint).
  destruct (fill_options_spec i_ options size Hsize Hint Hopt)
    as (opts & Hfill & Hoi & Hops & Hn & _).
  exists size. split; [done|].
  assert (∃ final, rtc (step i_ fn opts useFast) (init_state i_ opts) final ∧
            finished final ∧ calls = st_calls final ∧
            s_err (st_shared final) = None) as (final & Hr & Hfin & -> & Herr).
  { unfold generalMapApply in Hg.
    destruct useFast, fn; try (by destruct Hg);
      destruct Hg as (opts' & final & Hf & Hr & Hfin & -> & Herr);
      exists final; (split_and!; [|done|done|done]); congruence. }
  destruct (reachable_inv i_ fn opts useFast size Hsize Hint Hoi Hops final Hr)
    as [Hinv Hlen].
  apply (finished_exactly_once size final Hinv); [|done|done].
  intros E. rewrite E in Hlen. simpl in Hlen. lia.
Qed.

Lemma traversal_exactly_once_witness :
  valid (mkInterpreter [2; 3] [2; 6]) ∧
  int_options (Some (mkThreadingOptions 2 2)) ∧
  generalMapApply (mkInterpreter [2; 3] [2; 6]) (Some (λ _ _, None))
    (Some (mkThreadingOptions 2 2)) false
    [([0; 0], 0); ([0; 1], 2); ([1; 1], 3); ([1; 0], 1); ([0; 2], 4); ([1; 2], 5)]
    None ∧
  ∃ size, Size (mkInterpreter [2; 3] [2; 6]) = Return size ∧
    ∀ i, visits i [([0; 0], 0); ([0; 1], 2); ([1; 1], 3); ([1; 0], 1);
                   ([0; 2], 4); ([1; 2], 5)]
         = if bool_decide (0 ≤ i < size) then 1%nat else 0%nat.
Proof.
  assert (valid (mkInterpreter [2; 3] [2; 6])) as Hv.
  { split; [repeat constructor; vm_compute; discriminate|reflexivity]. }
  assert (int_options (Some (mkThreadingOptions 2 2))) as Ho.
  { split; vm_compute; split; discriminate. }
  assert (generalMapApply (mkInterpreter [2; 3] [2; 6]) (Some (λ _ _, None))
            (Some (mkThreadingOptions 2 2)) false
            [([0; 0], 0); ([0; 1], 2); ([1; 1], 3); ([1; 0], 1); ([0; 2], 4);
             ([1; 2], 5)] None) as Hg.
  { eexists _, _. split; [reflexivity|]. split.
    - apply (run_rtc _ _ _ _ [0;1;0;1;1;0;0;1;0;1;0;1;0;1;0;1;0;1]%nat).
      vm_compute. reflexivity.
    - split; [repeat constructor|]. split; reflexivity. }
  split; [exact Hv|]. split; [exact Ho|]. split; [exact Hg|].
  exact (traversal_exactly_once _ _ _ _ _ Hv Ho Hg).
Defined.

(** X12: on an Interpreter made by the constructor and with a function that
    is not [nil], [MapApplySafe] always returns: no goroutine ever panics,
    a goroutine that has not returned can always take its next turn, no
    interleaving takes more than [4 * Size() + NumThreads] turns, and so
    some run goes to completion. *)
Theorem MapApplySafe_returns (i_ : Interpreter) (f : visitor)
    (options : option ThreadingOptions) :
  valid i_ → int_options options →
  ∃ opts size, fill_options i_ options = Return opts ∧ Size i_ = Return size ∧
    (∀ st, rtc (step i_ (Some f) opts false) (init_state i_ opts) st →
       ¬ crashes i_ (Some f) opts false st ∧
       (finished st ∨ ∃ st', step i_ (Some f) opts false st st')) ∧
    (∀ n st, nsteps (step i_ (Some f) opts false) n (init_state i_ opts) st →
       (n ≤ 4 * Z.to_nat size + Z.to_nat (NumThreads opts))%nat) ∧
    sn (step i_ (Some f) opts false) (init_state i_ opts) ∧
    ∃ calls r, MapApplySafe i_ (Some f) options calls r.
Proof.
  intros Hv Hopt. destruct (valid_Size _ Hv) as (size & Hsize & Hint).
  destruct (fill_options_spec i_ options size Hsize Hint Hopt)
    as (opts & Hfill & Hoi & Hops & _).
  exists opts, size. split; [done|]. split; [done|]. split_and!.
  - intros st _. split; [by apply safe_no_crash|by apply safe_progress].
  - intros n st Hn.
    pose proof (nsteps_bound i_ (Some f) opts false size Hsize Hint Hoi Hops
                  n _ _ (init_inv i_ opts size) Hn) as Hb.
    rewrite turns_left_init in Hb. lia.
  - eapply inv_sn; try done. apply init_inv.
  - destruct (safe_completes i_ f opts size (init_state i_ opts) Hv Hsize Hint
                Hoi Hops (init_inv i_ opts size)) as (final & Hr & Hfin).
    exists (st_calls final), (s_err (st_shared final)).
    unfold MapApplySafe, generalMapApply. by exists opts, final.
Qed.

Lemma MapApplySafe_returns_witness :
  valid (mkInterpreter [2; 3] [2; 6]) ∧
  int_options (Some (mkThreadingOptions 2 2)) ∧
  ∃ calls r, MapApplySafe (mkInterpreter [2; 3] [2; 6]) (Some (λ _ _, None))
               (Some (mkThreadingOptions 2 2)) calls r.
Proof.
  assert (valid (mkInterpreter [2; 3] [2; 6])) as Hv.
  { split; [repeat constructor; vm_compute; discriminate|reflexivity]. }
  assert (int_options (Some (mkThreadingOptions 2 2))) as Ho.
  { split; vm_compute; split; discriminate. }
  split; [exact Hv|]. split; [exact Ho|].
  destruct (MapApplySafe_returns (mkInterpreter [2; 3] [2; 6]) (λ _ _, None)
              (Some (mkThreadingOptions 2 2)) Hv Ho)
    as (opts & size & _ & _ & _ & _ & _ & H).
  exact H.
Defined.

(** * The traversal engine when the number of points fits an [int] *)

Section exact.
Variable i_ : Interpreter.
Variable useFast : bool.
Hypothesis Hv : valid i_.
Hypothesis Hf : fits i_.

Lemma increment_exact k :
  0 ≤ k → k + 1 < product (Dims i_) →
  increment i_ useFast (decode (Dims i_) k)
  = Return (decode (Dims i_) (k + 1), true, None).
Proof.
  intros Hk Hk1. destruct (valid_inv _ Hv) as (Hne & Hall & HS & Hlen).
  assert (Forall (λ d, 0 < d) (Dims i_)) as Hpos.
  { eapply Forall_impl; [done|]. simpl. lia. }
  pose proof (decode_in_bounds (Dims i_) k Hpos) as Hb.
  unfold increment. destruct useFast.
  - rewrite IncrementFast_spec by done. cbn [mbind go_bind].
    rewrite encode_decode by (done || lia).
    rewrite Z.mod_small by lia. by rewrite bool_decide_true by lia.
  - rewrite IncrementSafe_spec by done.
    rewrite encode_decode by (done || lia).
    rewrite Z.mod_small by lia. by rewrite bool_decide_true by lia.
Qed.

Lemma makePoint_exact k :
  0 ≤ k < product (Dims i_) →
  makePoint i_ useFast k = Return (decode (Dims i_) k, None).
Proof.
  intros Hk. unfold makePoint. destruct useFast.
  - by rewrite Point_fits.
  - by apply PointSafe_fits.
Qed.

Variable fn : option visitor.
Variable opts : ThreadingOptions.
Hypothesis Hops_int : is_int (OpsPerThread opts).
Hypothesis Hops : 1 ≤ OpsPerThread opts.

(** Fetching a batch when the shared index does not wrap around. *)
Lemma claim_exact sh :
  s_err sh = None → 0 ≤ s_index sh < product (Dims i_) →
  s_point sh = decode (Dims i_) (s_index sh) →
  s_index sh + OpsPerThread opts ≤ MaxInt →
  claim i_ opts useFast sh None
  = Return (mkShared (s_index sh + OpsPerThread opts)
              (if s_index sh + OpsPerThread opts <? product (Dims i_)
               then decode (Dims i_) (s_index sh + OpsPerThread opts)
               else s_point sh) None,
            InBatch (s_index sh)
              (Z.min (s_index sh + OpsPerThread opts) (product (Dims i_)))
              (s_point sh) None).
Proof.
  intros Herr Hc Hpt Hfit. pose proof int_consts as [HMin HMax].
  unfold fits in Hf. unfold is_int in Hops_int.
  unfold claim. rewrite Herr, (fits_Size _ Hv Hf). cbn [mbind go_bind].
  destruct (Z.geb_spec (s_index sh) (product (Dims i_))); [lia|].
  rewrite wrap_id by (unfold is_int; lia).
  destruct (Z.ltb_spec (s_index sh + OpsPerThread opts) (product (Dims i_)))
    as [Hin|Hout].
  - unfold refresh.
    destruct (Z.gtb_spec (OpsPerThread opts) 1) as [Hmany|Hone].
    + rewrite makePoint_exact by lia. cbn [mbind go_bind].
      destruct (Z.gtb_spec (s_index sh + OpsPerThread opts) (product (Dims i_)));
        [lia|].
      by rewrite Z.min_l by lia.
    + assert (OpsPerThread opts = 1) as -> by lia.
      rewrite Hpt at 1. rewrite increment_exact by lia. cbn [mbind go_bind].
      destruct (Z.gtb_spec (s_index sh + 1) (product (Dims i_))); [lia|].
      by rewrite Z.min_l by lia.
  - cbn [mbind go_bind].
    destruct (Z.gtb_spec (s_index sh + OpsPerThread opts) (product (Dims i_))).
    + by rewrite Z.min_r by lia.
    + rewrite Z.min_l by lia. repeat f_equal; lia.
Qed.

(** Fetching a batch when the shared index wraps around: the wrapped index
    is negative, and [PointSafe] rejects it. *)
Lemma claim_overflow sh r :
  s_err sh = None → 0 ≤ s_index sh < product (Dims i_) →
  MaxInt < s_index sh + OpsPerThread opts →
  claim i_ opts useFast sh None = Return r →
  useFast = false ∧
  r = (mkShared (wrap (s_index sh + OpsPerThread opts)) [] (Some ErrIndexZero),
       Done).
Proof.
  intros Herr Hc Hover. pose proof int_consts as [HMin HMax].
  unfold fits in Hf. unfold is_int in Hops_int.
  pose proof (wrap_overflow (s_index sh) (OpsPerThread opts)) as Hw.
  unfold claim. rewrite Herr, (fits_Size _ Hv Hf). cbn [mbind go_bind].
  destruct (Z.geb_spec (s_index sh) (product (Dims i_))); [lia|].
  set (index := wrap _) in *.
  destruct (Z.ltb_spec index (product (Dims i_))); [|lia].
  unfold refresh. destruct (Z.gtb_spec (OpsPerThread opts) 1); [|lia].
  assert (PointSafe i_ index = Return ([], Some ErrIndexZero)) as HP.
  { unfold PointSafe, CheckIndex. destruct (Z.ltb_spec index 0); [done|lia]. }
  unfold makePoint, Point. destruct useFast; rewrite HP; cbn; [done|].
  by intros [= <-].
Qed.

(** One turn of the inner loop on a point that agrees with its index. *)
Lemma visit_exact f li le e :
  fn = Some f → 0 ≤ li < le → le ≤ product (Dims i_) →
  visit i_ fn useFast li le (decode (Dims i_) li) e
  = Return (
      let e' := match f (decode (Dims i_) li) li with
                | Some x => Some x
                | None => e
                end in
      if decide (li + 1 = le) then AtLock e'
      else InBatch (li + 1) le (decode (Dims i_) (li + 1)) e',
      [(decode (Dims i_) li, li)]).
Proof.
  intros -> Hli Hle. pose proof int_consts as [HMin HMax]. unfold fits in Hf.
  unfold visit. destruct (Z.ltb_spec li le); [|lia]. cbn [mbind go_bind].
  rewrite wrap_id by (unfold is_int; lia).
  destruct (decide (li + 1 = le)); [done|].
  by rewrite increment_exact by lia.
Qed.

End exact.

Lemma claim_on_error i_ opts useFast sh e x :
  s_err sh = Some x → claim i_ opts useFast sh e = Return (sh, Done).
Proof. intros Herr. unfold claim. by rewrite Herr. Qed.

Lemma claim_local_error i_ opts useFast sh x :
  s_err sh = None →
  claim i_ opts useFast sh (Some x)
  = Return (mkShared (s_index sh) (s_point sh) (Some x), Done).
Proof. intros Herr. unfold claim. by rewrite Herr. Qed.

Lemma claim_exhausted i_ opts useFast sh size :
  Size i_ = Return size → s_err sh = None → size ≤ s_index sh →
  claim i_ opts useFast sh None = Return (sh, Done).
Proof.
  intros Hsize Herr Hc. unfold claim. rewrite Herr, Hsize. cbn [mbind go_bind].
  destruct (Z.geb_spec (s_index sh) size); [done|lia].
Qed.

Lemma last_end_next size ops m :
  1 ≤ ops → 0 ≤ m → m * ops < size → (m + 1) * ops ≤ last_end size ops.
Proof.
  intros Hops Hm Hlt. unfold last_end.
  assert (m + 1 ≤ (size + ops - 1) `div` ops); [|nia].
  apply Z.div_le_lower_bound; lia.
Qed.

Lemma returned_by_app f calls cs e :
  returned_by f calls e → returned_by f (calls ++ cs) e.
Proof.
  intros (p & k & Hin & He). exists p, k. split; [|done].
  apply elem_of_app. by left.
Qed.

Section synced.
Variable i_ : Interpreter.
Variable f : visitor.
Variable opts : ThreadingOptions.
Variable useFast : bool.
Hypothesis Hv : valid i_.
Hypothesis Hf : fits i_.
Hypothesis Hops_int : is_int (OpsPerThread opts).
Hypothesis Hops : 1 ≤ OpsPerThread opts.

Let size := product (Dims i_).
Let ops := OpsPerThread opts.

Lemma init_synced : synced i_ f ops size (init_state i_ opts).
Proof.
  unfold synced, init_state. cbn [st_shared st_workers st_calls s_err s_index s_point].
  split_and!.
  - intros _. split; [exists 0; lia|]. intros _. by rewrite decode_zero.
  - by apply Forall_replicate.
  - constructor.
  - done.
  - apply Forall_replicate. done.
  - right. constructor.
Qed.

Lemma step_synced st st' :
  synced i_ f ops size st →
  step i_ (Some f) opts useFast st st' →
  synced i_ f ops size st'.
Proof.
  destruct st as [sh ws calls].
  intros (Hsh & Hws & Hcalls & Hserr & Hwerr & Hnone) [t Ht].
  pose proof (fits_Size _ Hv Hf) as Hsize.
  unfold size, ops in *. clear size ops.
  unfold thread_step in Ht. cbn [st_workers st_shared st_calls] in *.
  destruct (ws !! t) as [[e|li le lp e|]|] eqn:Hw; [| |done|done].
  - (* the goroutine takes the lock *)
    destruct (claim i_ opts useFast sh e) as [[sh' w]|] eqn:Hcl; [|done].
    cbn [mbind go_bind] in Ht. injection Ht as <-.
    destruct (s_err sh) as [x|] eqn:Herr.
    { rewrite (claim_on_error _ _ _ _ _ x Herr) in Hcl. injection Hcl as <- <-.
      unfold synced. cbn [st_workers st_shared st_calls]. rewrite Herr.
      split_and!; try done.
      - by apply Forall_insert.
      - by apply Forall_insert.
      - left. left. cbn. by rewrite Herr. }
    destruct (Hsh eq_refl) as [(m & Hm & Hc) Hpt].
    destruct e as [x|].
    { rewrite claim_local_error in Hcl by done. injection Hcl as <- <-.
      unfold synced. cbn [st_workers st_shared st_calls s_err].
      split_and!; try done.
      - by apply Forall_insert.
      - intros e [= <-]. left.
        by apply (Forall_lookup_1 _ _ _ _ Hwerr Hw).
      - by apply Forall_insert.
      - left. by left. }
    destruct (decide (product (Dims i_) ≤ s_index sh)) as [Hex|Hin].
    { rewrite (claim_exhausted _ _ _ _ (product (Dims i_))) in Hcl by done.
      injection Hcl as <- <-.
      unfold synced. cbn [st_workers st_shared st_calls]. rewrite Herr.
      split_and!; try done.
      - by apply Forall_insert.
      - by apply Forall_insert.
      - destruct Hnone as [Hfl|?]; [left|by right].
        eapply failing_insert; [done|done|done|]. cbn. by left. }
    assert (0 ≤ s_index sh < product (Dims i_)) as Hrange by nia.
    destruct (decide (s_index sh + OpsPerThread opts ≤ MaxInt)) as [Hfit|Hover].
    + rewrite claim_exact in Hcl by (done || lia || (apply Hpt; lia)).
      injection Hcl as <- <-.
      unfold synced. cbn [st_workers st_shared st_calls s_err s_index s_point].
      split_and!; try done.
      * intros _. split; [exists (m + 1); lia|]. intros Hlt.
        destruct (Z.ltb_spec (s_index sh + OpsPerThread opts) (product (Dims i_)));
          [done|lia].
      * apply Forall_insert; [done|]. split_and!; [lia|lia|lia|by apply Hpt; lia].
      * by apply Forall_insert.
      * destruct Hnone as [Hfl|?]; [left|by right].
        eapply failing_insert; [done|done|done|]. cbn. by left.
    + destruct (claim_overflow i_ useFast Hv Hf opts Hops_int Hops sh (sh', w)
                  Herr Hrange ltac:(lia) Hcl) as [-> Hr].
      injection Hr as -> ->.
      unfold synced. cbn [st_workers st_shared st_calls s_err].
      split_and!; try done.
      * by apply Forall_insert.
      * intros e [= <-]. right. split; [done|].
        pose proof (last_end_next (product (Dims i_)) (OpsPerThread opts) m
                      Hops Hm ltac:(lia)). lia.
      * by apply Forall_insert.
      * left. by left.
  - (* the goroutine visits an index *)
    pose proof (Forall_lookup_1 _ _ _ _ Hws Hw) as (Hli & Hle & ->).
    rewrite (visit_exact i_ useFast Hv Hf (Some f) f) in Ht by done.
    cbn [mbind go_bind] in Ht. injection Ht as <-.
    set (e' := match f (decode (Dims i_) li) li with
               | Some x => Some x
               | None => e
               end).
    set (w' := if decide (li + 1 = le) then AtLock e'
               else InBatch (li + 1) le (decode (Dims i_) (li + 1)) e').
    assert (worker_err w' = e') as Hw'e.
    { unfold w'. by destruct (decide _). }
    unfold synced. cbn [st_workers st_shared st_calls s_err].
    split_and!; try done.
    + apply Forall_insert; [done|]. unfold w'. destruct (decide _); [done|].
      split_and!; try done; lia.
    + apply Forall_app. split; [done|]. repeat constructor; cbn; lia.
    + intros x Hx. destruct (Hserr x Hx) as [?|?]; [left|by right].
      by apply returned_by_app.
    + apply Forall_insert.
      * eapply Forall_impl; [exact Hwerr|]. cbn. intros w Hwx x Hx.
        apply returned_by_app. by apply Hwx.
      * intros x. rewrite Hw'e. unfold e'.
        destruct (f (decode (Dims i_) li) li) as [y|] eqn:Hfy.
        -- intros [= <-]. exists (decode (Dims i_) li), li. split; [|done].
           apply elem_of_app. right. by apply list_elem_of_singleton.
        -- intros ->. apply returned_by_app.
           by apply (Forall_lookup_1 _ _ _ _ Hwerr Hw).
    + destruct (f (decode (Dims i_) li) li) as [y|] eqn:Hfy.
      * left. right. exists t, w'. cbn. split.
        -- apply list_lookup_insert_eq. by eapply lookup_lt_Some.
        -- by rewrite Hw'e.
      * destruct Hnone as [Hfl|Hall].
        -- left. eapply failing_insert; [done|done|done|].
           cbn. rewrite Hw'e. by left.
        -- right. apply Forall_app. split; [done|]. by repeat constructor.
Qed.

Lemma reachable_synced st :
  rtc (step i_ (Some f) opts useFast) (init_state i_ opts) st →
  synced i_ f ops size st.
Proof.
  revert st. apply rtc_ind_r; [apply init_synced|].
  intros st st' _ Hstep IH. by eapply step_synced.
Qed.

End synced.

Lemma last_end_nil size : 1 ≤ size → last_end size size = size.
Proof.
  intros Hs. unfold last_end.
  replace (size + size - 1) with (size - 1 + 1 * size) by lia.
  rewrite Z.div_add by lia. rewrite Z.div_small by lia. lia.
Qed.

Section synced_runs.
Variable i_ : Interpreter.
Variable f : visitor.
Variable opts : ThreadingOptions.
Hypothesis Hv : valid i_.
Hypothesis Hf : fits i_.
Hypothesis Hops_int : is_int (OpsPerThread opts).
Hypothesis Hops : 1 ≤ OpsPerThread opts.
Hypothesis Hlast : last_end (product (Dims i_)) (OpsPerThread opts) ≤ MaxInt.

(** While the shared index cannot wrap around, a turn does the same in both
    modes, and it does not panic. *)
Lemma thread_step_synced useFast t st :
  synced i_ f (OpsPerThread opts) (product (Dims i_)) st →
  thread_step i_ (Some f) opts useFast t st
  = thread_step i_ (Some f) opts false t st ∧
  thread_step i_ (Some f) opts useFast t st ≠ Some Panic.
Proof.
  destruct st as [sh ws calls].
  intros (Hsh & Hws & _).
  pose proof (fits_Size _ Hv Hf) as Hsize.
  unfold thread_step. cbn [st_workers st_shared st_calls] in *.
  destruct (ws !! t) as [[e|li le lp e|]|] eqn:Hw; [| |done|done].
  - assert (∃ r, ∀ b, claim i_ opts b sh e = Return r) as [[sh' w] Hcl].
    { destruct (s_err sh) as [x|] eqn:Herr.
      { eexists. intros b. by eapply claim_on_error. }
      destruct (Hsh eq_refl) as [(m & Hm & Hc) Hpt].
      destruct e as [x|].
      { eexists. intros b. by apply claim_local_error. }
      destruct (decide (product (Dims i_) ≤ s_index sh)) as [Hex|Hin].
      { eexists. intros b. by eapply claim_exhausted. }
      pose proof (last_end_next (product (Dims i_)) (OpsPerThread opts) m
                    Hops Hm ltac:(lia)).
      eexists. intros b. apply claim_exact; try done; try lia; try nia.
      apply Hpt. lia. }
    rewrite !Hcl. done.
  - pose proof (Forall_lookup_1 _ _ _ _ Hws Hw) as (Hli & Hle & ->).
    rewrite !(visit_exact i_ _ Hv Hf (Some f) f) by done. done.
Qed.

Lemma step_mode useFast st st' :
  synced i_ f (OpsPerThread opts) (product (Dims i_)) st →
  step i_ (Some f) opts useFast st st' ↔ step i_ (Some f) opts false st st'.
Proof.
  intros Hs. split; intros [t Ht]; exists t;
    destruct (thread_step_synced useFast t st Hs) as [E _]; congruence.
Qed.

Lemma rtc_mode useFast st :
  rtc (step i_ (Some f) opts useFast) (init_state i_ opts) st ↔
  rtc (step i_ (Some f) opts false) (init_state i_ opts) st.
Proof.
  split.
  - revert st. apply rtc_ind_r; [done|]. intros st st' Hr Hstep IH.
    eapply rtc_r; [done|]. apply (step_mode useFast); [|done].
    by apply (reachable_synced i_ f opts useFast).
  - revert st. apply rtc_ind_r; [done|]. intros st st' Hr Hstep IH.
    eapply rtc_r; [done|]. apply (step_mode useFast); [|done].
    by apply (reachable_synced i_ f opts false).
Qed.

Lemma synced_no_crash useFast st :
  synced i_ f (OpsPerThread opts) (product (Dims i_)) st →
  ¬ crashes i_ (Some f) opts useFast st.
Proof.
  intros Hs [t Ht]. by destruct (thread_step_synced useFast t st Hs) as [_ ?].
Qed.

Lemma synced_progress useFast st :
  synced i_ f (OpsPerThread opts) (product (Dims i_)) st →
  finished st ∨ ∃ st', step i_ (Some f) opts useFast st st'.
Proof.
  intros Hs. destruct (safe_progress i_ f opts st Hv) as [?|[st' Hstep]];
    [by left|right].
  exists st'. by apply step_mode.
Qed.

End synced_runs.

(** * The traversal engine: points, errors and modes *)

Lemma generalMapApply_run i_ f options useFast calls r opts :
  fill_options i_ options = Return opts →
  generalMapApply i_ (Some f) options useFast calls r ↔
  ∃ final, rtc (step i_ (Some f) opts useFast) (init_state i_ opts) final ∧
           finished final ∧ calls = st_calls final ∧
           r = s_err (st_shared final).
Proof.
  intros Hfill. unfold generalMapApply. split.
  - intros H. assert (∃ opts' final, fill_options i_ options = Return opts' ∧
      rtc (step i_ (Some f) opts' useFast) (init_state i_ opts') final ∧
      finished final ∧ calls = st_calls final ∧ r = s_err (st_shared final))
      as (opts' & final & Hf' & H').
    { by destruct useFast. }
    assert (opts' = opts) as -> by congruence. by exists final.
  - intros (final & H). destruct useFast; by exists opts, final.
Qed.

Lemma fits_options i_ options :
  valid i_ → fits i_ → int_options options →
  ∃ opts, fill_options i_ options = Return opts ∧
    is_int (OpsPerThread opts) ∧ 1 ≤ OpsPerThread opts ∧
    1 ≤ NumThreads opts ∧
    (options = None → opts = mkThreadingOptions (product (Dims i_)) 1).
Proof.
  intros Hv Hf Hopt. destruct (valid_inv _ Hv) as (Hne & Hall & HS & Hlen).
  assert (0 < product (Dims i_)) as HP.
  { apply product_pos. eapply Forall_impl; [done|]. simpl. lia. }
  destruct (valid_Size _ Hv) as (size & Hsize & Hint).
  assert (size = product (Dims i_)) as ->.
  { rewrite fits_Size in Hsize by done. congruence. }
  destruct (fill_options_spec i_ options _ Hsize Hint Hopt)
    as (opts & Hfill & Hoi & Hops & Hn & Hnil & _).
  exists opts. split_and!; try done. apply Hops. lia.
Qed.

(** X13: when the number of points fits an [int], whatever the options, the
    mode and the interleaving of the goroutines, every call of [fn] is made
    with an index in [[0, Size())] and with the point of that index: the
    point [PointSafe] returns for the index, which [IndexSafe] maps back to
    the index.  So it is at every moment of a traversal and when
    [generalMapApply] returns. *)
Theorem traversal_points_match (i_ : Interpreter) (f : visitor)
    (options : option ThreadingOptions) (useFast : bool) :
  valid i_ → fits i_ → int_options options →
  ∃ opts, fill_options i_ options = Return opts ∧
    (∀ st, rtc (step i_ (Some f) opts useFast) (init_state i_ opts) st →
       Forall (λ c, PointSafe i_ c.2 = Return (c.1, None) ∧
                    IndexSafe i_ c.1 = Return (c.2, None)) (st_calls st)) ∧
    (∀ calls r, generalMapApply i_ (Some f) options useFast calls r →
       Forall (λ c, PointSafe i_ c.2 = Return (c.1, None) ∧
                    IndexSafe i_ c.1 = Return (c.2, None)) calls).
Proof.
  intros Hv Hf Hopt. destruct (valid_inv _ Hv) as (Hne & Hall & HS & Hlen).
  assert (Forall (λ d, 0 < d) (Dims i_)) as Hpos.
  { eapply Forall_impl; [done|]. simpl. lia. }
  destruct (fits_options i_ options Hv Hf Hopt)
    as (opts & Hfill & Hoi & Hops & _).
  exists opts. split; [done|].
  assert (∀ st, rtc (step i_ (Some f) opts useFast) (init_state i_ opts) st →
       Forall (λ c, PointSafe i_ c.2 = Return (c.1, None) ∧
                    IndexSafe i_ c.1 = Return (c.2, None)) (st_calls st)) as Hreach.
  { intros st Hr.
    destruct (reachable_synced i_ f opts useFast Hv Hf Hoi Hops st Hr)
      as (_ & _ & Hcalls & _).
    eapply Forall_impl; [exact Hcalls|]. cbn. intros [p k] [Hk ->]. cbn in *.
    split; [by apply PointSafe_fits|].
    rewrite IndexSafe_fits by (done || by apply decode_in_bounds).
    by rewrite encode_decode. }
  split; [done|]. intros calls r Hg.
  apply (generalMapApply_run _ _ _ _ _ _ opts Hfill) in Hg
    as (final & Hr & _ & -> & _).
  by apply Hreach.
Qed.

Lemma traversal_points_match_witness :
  valid (mkInterpreter [2; 3] [2; 6]) ∧ fits (mkInterpreter [2; 3] [2; 6]) ∧
  int_options (Some (mkThreadingOptions 2 2)) ∧
  generalMapApply (mkInterpreter [2; 3] [2; 6]) (Some (λ _ _, None))
    (Some (mkThreadingOptions 2 2)) false
    [([0; 0], 0); ([0; 1], 2); ([1; 1], 3); ([1; 0], 1); ([0; 2], 4); ([1; 2], 5)]
    None ∧
  (∃ opts,
     fill_options (mkInterpreter [2; 3] [2; 6]) (Some (mkThreadingOptions 2 2))
     = Return opts) ∧
  Forall (λ c, PointSafe (mkInterpreter [2; 3] [2; 6]) c.2 = Return (c.1, None) ∧
               IndexSafe (mkInterpreter [2; 3] [2; 6]) c.1 = Return (c.2, None))
    [([0; 0], 0); ([0; 1], 2); ([1; 1], 3); ([1; 0], 1); ([0; 2], 4); ([1; 2], 5)].
Proof.
  assert (valid (mkInterpreter [2; 3] [2; 6])) as Hv.
  { split; [repeat constructor; vm_compute; discriminate|reflexivity]. }
  assert (fits (mkInterpreter [2; 3] [2; 6])) as Hf.
  { vm_compute. discriminate. }
  assert (int_options (Some (mkThreadingOptions 2 2))) as Ho.
  { split; vm_compute; split; discriminate. }
  assert (generalMapApply (mkInterpreter [2; 3] [2; 6]) (Some (λ _ _, None))
            (Some (mkThreadingOptions 2 2)) false
            [([0; 0], 0); ([0; 1], 2); ([1; 1], 3); ([1; 0], 1); ([0; 2], 4);
             ([1; 2], 5)] None) as Hg.
  { eexists _, _. split; [reflexivity|]. split.
    - apply (run_rtc _ _ _ _ [0;1;0;1;1;0;0;1;0;1;0;1;0;1;0;1;0;1]%nat).
      vm_compute. reflexivity.
    - split; [repeat constructor|]. split; reflexivity. }
  split; [exact Hv|]. split; [exact Hf|]. split; [exact Ho|]. split; [exact Hg|].
  destruct (traversal_points_match (mkInterpreter [2; 3] [2; 6]) (λ _ _, None)
              (Some (mkThreadingOptions 2 2)) false Hv Hf Ho)
    as (opts & H & _ & Hruns).
  split; [exists opts; exact H|]. exact (Hruns _ _ Hg).
Defined.

(** X14: when the number of points fits an [int] and [generalMapApply]
    returns: an error it returns is an error [fn] returned on one of the
    calls made, passed along as it is, unless it is the [ErrIndexZero] met
    when the shared index wraps around (the least multiple of [OpsPerThread]
    that is not below [Size()] exceeds the largest [int]; this cannot happen
    with [nil] options); when it returns [nil], [fn] returned [nil] on every
    call made; and when [fn] never returns an error and the shared index
    cannot wrap around, it returns [nil]. *)
Theorem traversal_errors (i_ : Interpreter) (f : visitor)
    (options : option ThreadingOptions) (useFast : bool)
    (calls : list (list Z * Z)) (r : option error) :
  valid i_ → fits i_ → int_options options →
  generalMapApply i_ (Some f) options useFast calls r →
  ∃ opts size, fill_options i_ options = Return opts ∧ Size i_ = Return size ∧
    (∀ e, r = Some e →
       returned_by f calls e ∨
       (e = ErrIndexZero ∧ MaxInt < last_end size (OpsPerThread opts))) ∧
    (options = None → last_end size (OpsPerThread opts) ≤ MaxInt) ∧
    (r = None → Forall (λ c, f c.1 c.2 = None) calls) ∧
    ((∀ p k, f p k = None) → last_end size (OpsPerThread opts) ≤ MaxInt →
       r = None).
Proof.
  intros Hv Hf Hopt Hg. destruct (valid_inv _ Hv) as (Hne & Hall & HS & Hlen).
  assert (0 < product (Dims i_)) as HP.
  { apply product_pos. eapply Forall_impl; [done|]. simpl. lia. }
  destruct (fits_options i_ options Hv Hf Hopt)
    as (opts & Hfill & Hoi & Hops & _ & Hnil).
  exists opts, (product (Dims i_)). split; [done|].
  split; [by apply fits_Size|].
  apply (generalMapApply_run _ _ _ _ _ _ opts Hfill) in Hg
    as (final & Hr & Hfin & -> & ->).
  destruct (reachable_synced i_ f opts useFast Hv Hf Hoi Hops final Hr)
    as (_ & _ & _ & Hserr & _ & Hnone).
  assert (∀ e, s_err (st_shared final) = Some e →
            returned_by f (st_calls final) e ∨
            (e = ErrIndexZero ∧
             MaxInt < last_end (product (Dims i_)) (OpsPerThread opts))) as Hblame.
  { intros e He. by apply Hserr. }
  split_and!.
  - done.
  - intros Hn. rewrite (Hnil Hn). cbn [OpsPerThread].
    rewrite last_end_nil by lia. unfold fits in Hf. done.
  - intros Herr. destruct Hnone as [[?|(t & w & Hw & He)]|?]; [done| |done].
    unfold finished in Hfin. rewrite (Forall_lookup_1 _ _ _ _ Hfin Hw) in He. done.
  - intros Hnever Hlast. destruct (s_err (st_shared final)) as [e|] eqn:E; [|done].
    destruct (Hblame e eq_refl) as [(p & k & _ & Hpk)|[_ ?]]; [|lia].
    by rewrite Hnever in Hpk.
Qed.

Lemma traversal_errors_witness :
  valid (mkInterpreter [4] [4]) ∧ fits (mkInterpreter [4] [4]) ∧
  int_options (Some (mkThreadingOptions 4 1)) ∧
  generalMapApply (mkInterpreter [4] [4])
    (Some (λ _ k, if decide (k = 1) then Some (ForeignError "first")
                  else if decide (k = 2) then Some (ForeignError "second")
                  else None))
    (Some (mkThreadingOptions 4 1)) false
    [([0], 0); ([1], 1); ([2], 2); ([3], 3)] (Some (ForeignError "second")) ∧
  ∃ opts size,
    fill_options (mkInterpreter [4] [4]) (Some (mkThreadingOptions 4 1))
    = Return opts ∧ Size (mkInterpreter [4] [4]) = Return size.
Proof.
  assert (valid (mkInterpreter [4] [4])) as Hv.
  { split; [repeat constructor; vm_compute; discriminate|reflexivity]. }
  assert (fits (mkInterpreter [4] [4])) as Hf.
  { vm_compute. discriminate. }
  assert (int_options (Some (mkThreadingOptions 4 1))) as Ho.
  { split; vm_compute; split; discriminate. }
  assert (generalMapApply (mkInterpreter [4] [4])
    (Some (λ _ k, if decide (k = 1) then Some (ForeignError "first")
                  else if decide (k = 2) then Some (ForeignError "second")
                  else None))
    (Some (mkThreadingOptions 4 1)) false
    [([0], 0); ([1], 1); ([2], 2); ([3], 3)] (Some (ForeignError "second")))
    as Hg.
  { eexists _, _. split; [reflexivity|]. split.
    - apply (run_rtc _ _ _ _ [0; 0; 0; 0; 0; 0]%nat). vm_compute. reflexivity.
    - split; [repeat constructor|]. split; reflexivity. }
  split; [exact Hv|]. split; [exact Hf|]. split; [exact Ho|]. split; [exact Hg|].
  destruct (traversal_errors _ _ _ _ _ _ Hv Hf Ho Hg)
    as (opts & size & H1 & H2 & _).
  exists opts, size. split; [exact H1|exact H2].
Defined.

Section modes.
Variable i_ : Interpreter.
Variable f : visitor.
Variable options : option ThreadingOptions.
Variable opts : ThreadingOptions.
Variable size : Z.
Hypothesis Hv : valid i_.
Hypothesis Hf : fits i_.
Hypothesis Hopt : int_options options.
Hypothesis Hfill : fill_options i_ options = Return opts.
Hypothesis Hsize : Size i_ = Return size.
Hypothesis Hlast : last_end size (OpsPerThread opts) ≤ MaxInt.

Lemma modes_setup :
  size = product (Dims i_) ∧ is_int size ∧
  is_int (OpsPerThread opts) ∧ 1 ≤ OpsPerThread opts ∧ 1 ≤ NumThreads opts.
Proof.
  destruct (fits_options i_ options Hv Hf Hopt) as (opts' & Hfill' & ? & ? & ? & _).
  assert (opts' = opts) as -> by congruence.
  rewrite fits_Size in Hsize by done. injection Hsize as <-.
  split_and!; try done. pose proof int_consts as [HMin HMax].
  destruct (valid_Size _ Hv) as (s & Hs & Hint).
  rewrite fits_Size in Hs by done. by injection Hs as <-.
Qed.

Lemma generalMapApply_mode useFast calls r :
  generalMapApply i_ (Some f) options useFast calls r ↔
  generalMapApply i_ (Some f) options false calls r.
Proof.
  destruct modes_setup as (-> & Hint & Hoi & Hops & Hn).
  rewrite !(generalMapApply_run _ _ _ _ _ _ opts Hfill).
  split; intros (final & Hr & H); exists final; (split; [|done]);
    by apply (rtc_mode i_ f opts Hv Hf Hoi Hops Hlast useFast).
Qed.

(** With a function that never returns an error, a run that goes to
    completion returns [nil], having called the function once with each
    index and its point. *)
Lemma never_failing_run useFast calls r :
  (∀ p k, f p k = None) →
  generalMapApply i_ (Some f) options useFast calls r →
  r = None ∧
  (∀ i, visits i calls = if bool_decide (0 ≤ i < size) then 1%nat else 0%nat) ∧
  Forall (λ c, PointSafe i_ c.2 = Return (c.1, None) ∧
               IndexSafe i_ c.1 = Return (c.2, None)) calls.
Proof.
  intros Hnever Hg. destruct modes_setup as (-> & Hint & Hoi & Hops & Hn).
  destruct (valid_inv _ Hv) as (Hne & Hall & HS & Hlen).
  assert (Forall (λ d, 0 < d) (Dims i_)) as Hpos.
  { eapply Forall_impl; [done|]. simpl. lia. }
  apply (generalMapApply_run _ _ _ _ _ _ opts Hfill) in Hg
    as (final & Hr & Hfin & -> & ->).
  destruct (reachable_synced i_ f opts useFast Hv Hf Hoi Hops final Hr)
    as (_ & _ & Hcalls & Hserr & _ & _).
  assert (s_err (st_shared final) = None) as Herr.
  { destruct (s_err (st_shared final)) as [e|] eqn:E; [|done].
    destruct (Hserr e eq_refl) as [(p & k & _ & Hpk)|[_ ?]]; [|lia].
    by rewrite Hnever in Hpk. }
  split; [done|]. split.
  - destruct (reachable_inv i_ (Some f) opts useFast _ Hsize Hint Hoi
                ltac:(done) final Hr) as [Hinv Hl].
    apply (finished_exactly_once _ final Hinv); [|done|done].
    intros E. rewrite E in Hl. simpl in Hl. lia.
  - eapply Forall_impl; [exact Hcalls|]. cbn. intros [p k] [Hk ->]. cbn in *.
    split; [by apply PointSafe_fits|].
    rewrite IndexSafe_fits by (done || by apply decode_in_bounds).
    by rewrite encode_decode.
Qed.

Lemma fast_no_crash st :
  rtc (step i_ (Some f) opts true) (init_state i_ opts) st →
  ¬ crashes i_ (Some f) opts true st ∧
  (finished st ∨ ∃ st', step i_ (Some f) opts true st st').
Proof.
  intros Hr. destruct modes_setup as (-> & Hint & Hoi & Hops & Hn).
  pose proof (reachable_synced i_ f opts true Hv Hf Hoi Hops st Hr) as Hs.
  split; [by apply synced_no_crash|by apply synced_progress].
Qed.

Lemma some_run_completes :
  ∃ calls r, generalMapApply i_ (Some f) options false calls r.
Proof.
  destruct modes_setup as (-> & Hint & Hoi & Hops & Hn).
  destruct (safe_completes i_ f opts _ (init_state i_ opts) Hv Hsize Hint
              Hoi ltac:(done) (init_inv i_ opts _)) as (final & Hr & Hfin).
  exists (st_calls final), (s_err (st_shared final)).
  apply (generalMapApply_run _ _ _ _ _ _ opts Hfill). by exists final.
Qed.

End modes.

(** X15: when the number of points fits an [int] and the shared index cannot
    wrap around, the fast mode of [generalMapApply] does what the validating
    mode does: the two modes have the same runs, with the same calls and
    the same returned error, and in the fast mode too no goroutine panics
    and a goroutine that has not returned can take its next turn. *)
Theorem fast_mode_agrees (i_ : Interpreter) (f : visitor)
    (options : option ThreadingOptions) (opts : ThreadingOptions) (size : Z) :
  valid i_ → fits i_ → int_options options →
  fill_options i_ options = Return opts → Size i_ = Return size →
  last_end size (OpsPerThread opts) ≤ MaxInt →
  (∀ calls r, generalMapApply i_ (Some f) options true calls r ↔
              generalMapApply i_ (Some f) options false calls r) ∧
  (∀ st, rtc (step i_ (Some f) opts true) (init_state i_ opts) st →
     ¬ crashes i_ (Some f) opts true st ∧
     (finished st ∨ ∃ st', step i_ (Some f) opts true st st')).
Proof.
  intros Hv Hf Hopt Hfill Hsize Hlast. split.
  - intros calls r. by eapply generalMapApply_mode.
  - intros st Hr. by eapply fast_no_crash.
Qed.

Lemma fast_mode_agrees_witness :
  valid (mkInterpreter [2; 3] [2; 6]) ∧ fits (mkInterpreter [2; 3] [2; 6]) ∧
  int_options (Some (mkThreadingOptions 2 2)) ∧
  last_end 6 2 ≤ MaxInt ∧
  (∀ calls r,
     generalMapApply (mkInterpreter [2; 3] [2; 6]) (Some (λ _ _, None))
       (Some (mkThreadingOptions 2 2)) true calls r ↔
     generalMapApply (mkInterpreter [2; 3] [2; 6]) (Some (λ _ _, None))
       (Some (mkThreadingOptions 2 2)) false calls r).
Proof.
  assert (valid (mkInterpreter [2; 3] [2; 6])) as Hv.
  { split; [repeat constructor; vm_compute; discriminate|reflexivity]. }
  assert (fits (mkInterpreter [2; 3] [2; 6])) as Hf.
  { vm_compute. discriminate. }
  assert (int_options (Some (mkThreadingOptions 2 2))) as Ho.
  { split; vm_compute; split; discriminate. }
  assert (last_end 6 2 ≤ MaxInt) as Hl.
  { vm_compute. discriminate. }
  split; [exact Hv|]. split; [exact Hf|]. split; [exact Ho|]. split; [exact Hl|].
  exact (proj1 (fast_mode_agrees (mkInterpreter [2; 3] [2; 6]) (λ _ _, None)
                  (Some (mkThreadingOptions 2 2)) (mkThreadingOptions 2 2) 6
                  Hv Hf Ho eq_refl eq_refl Hl)).
Defined.

(** X16: when the number of points fits an [int] and the shared index cannot
    wrap around, [MapApply] and [MapApplyFast] with a function that is not
    [nil] have the same runs; a run never ends in [panic(err)], and it has
    called the function exactly once with each index in [[0, Size())] and
    with no other index, each time with the point of the index; and some run
    goes to completion. *)
Theorem MapApply_visits_all (i_ : Interpreter)
    (options : option ThreadingOptions) (opts : ThreadingOptions) (size : Z) :
  valid i_ → fits i_ → int_options options →
  fill_options i_ options = Return opts → Size i_ = Return size →
  last_end size (OpsPerThread opts) ≤ MaxInt →
  (∀ calls out, MapApplyFast i_ options calls out ↔ MapApply i_ options calls out) ∧
  (∀ calls out, MapApply i_ options calls out →
     out = Return () ∧
     (∀ i, visits i calls = if bool_decide (0 ≤ i < size) then 1%nat else 0%nat) ∧
     Forall (λ c, PointSafe i_ c.2 = Return (c.1, None) ∧
                  IndexSafe i_ c.1 = Return (c.2, None)) calls) ∧
  ∃ calls, MapApply i_ options calls (Return ()).
Proof.
  intros Hv Hf Hopt Hfill Hsize Hlast. split_and!.
  - intros calls out. unfold MapApply, MapApplyFast, MapApplySafe.
    split; intros (err & Hg & ->); exists err; (split; [|done]).
    + by apply (proj1 (generalMapApply_mode i_ newFn options opts size Hv Hf
                         Hopt Hfill Hsize Hlast true calls err)).
    + by apply (proj2 (generalMapApply_mode i_ newFn options opts size Hv Hf
                         Hopt Hfill Hsize Hlast true calls err)).
  - intros calls out (err & Hg & ->).
    destruct (never_failing_run i_ newFn options opts size Hv Hf Hopt Hfill
                Hsize Hlast false calls err) as (-> & Hvis & Hpts); done.
  - destruct (some_run_completes i_ newFn options opts size Hv Hf Hopt Hfill Hsize
                Hlast)
      as (cs & r & Hg).
    destruct (never_failing_run i_ newFn options opts size Hv Hf Hopt Hfill
                Hsize Hlast false cs r ltac:(done) Hg) as (-> & _).
    exists cs, None. done.
Qed.

Lemma MapApply_visits_all_witness :
  valid (mkInterpreter [2; 3] [2; 6]) ∧ fits (mkInterpreter [2; 3] [2; 6]) ∧
  int_options None ∧ last_end 6 6 ≤ MaxInt ∧
  ∃ calls, MapApply (mkInterpreter [2; 3] [2; 6]) None calls (Return ()).
Proof.
  assert (valid (mkInterpreter [2; 3] [2; 6])) as Hv.
  { split; [repeat constructor; vm_compute; discriminate|reflexivity]. }
  assert (fits (mkInterpreter [2; 3] [2; 6])) as Hf.
  { vm_compute. discriminate. }
  assert (last_end 6 6 ≤ MaxInt) as Hl.
  { vm_compute. discriminate. }
  split; [exact Hv|]. split; [exact Hf|]. split; [exact I|]. split; [exact Hl|].
  exact (proj2 (proj2 (MapApply_visits_all (mkInterpreter [2; 3] [2; 6]) None
                  (mkThreadingOptions 6 1) 6 Hv Hf I eq_refl eq_refl Hl))).
Defined.

(** * The traversal engine with a single goroutine *)

Lemma calls_upto_snoc i_ n :
  0 ≤ n → calls_upto i_ (n + 1) = calls_upto i_ n ++ [(decode (Dims i_) n, n)].
Proof.
  intros Hn. unfold calls_upto. rewrite seqZ_app by lia.
  rewrite fmap_app. f_equal.
Qed.

Lemma no_failure_join i_ f a b c :
  no_failure i_ f a b → no_failure i_ f b c → no_failure i_ f a c.
Proof.
  intros H1 H2 k Hk. destruct (decide (k < b)); [apply H1|apply H2]; lia.
Qed.

Lemma last_failure_step i_ f lo k e :
  lo ≤ k → last_failure i_ f lo k e →
  last_failure i_ f lo (k + 1)
    (match f (decode (Dims i_) k) k with Some x => Some x | None => e end).
Proof.
  intros Hk He. destruct (f (decode (Dims i_) k) k) as [x|] eqn:Hfk.
  - exists k. split; [lia|]. split; [done|]. intros j Hj. lia.
  - destruct e as [x|]; cbn in *.
    + destruct He as (j & Hj & Hfj & Hno). exists j. split; [lia|].
      split; [done|]. intros i Hi.
      destruct (decide (i = k)) as [->|]; [done|]. apply Hno. lia.
    + intros i Hi. destruct (decide (i = k)) as [->|]; [done|]. apply He. lia.
Qed.

Lemma last_failure_unique i_ f lo hi x y :
  last_failure i_ f lo hi (Some x) → last_failure i_ f lo hi (Some y) → x = y.
Proof.
  intros (j & Hj & Hfj & Hnj) (k & Hk & Hfk & Hnk).
  destruct (Z.lt_trichotomy j k) as [?|[->|?]].
  - rewrite Hnj in Hfk by lia. done.
  - congruence.
  - rewrite Hnk in Hfj by lia. done.
Qed.

Section sequential.
Variable i_ : Interpreter.
Variable f : visitor.
Variable opts : ThreadingOptions.
Variable useFast : bool.
Hypothesis Hv : valid i_.
Hypothesis Hf : fits i_.
Hypothesis Hops_int : is_int (OpsPerThread opts).
Hypothesis Hops : 1 ≤ OpsPerThread opts.
Hypothesis Hone : NumThreads opts = 1.

Lemma init_sequential :
  sequential i_ f (OpsPerThread opts) (product (Dims i_)) (init_state i_ opts).
Proof.
  unfold sequential, init_state. rewrite Hone.
  cbn [st_shared st_workers st_calls s_err s_index s_point].
  exists (AtLock None). split; [done|]. split; [done|].
  assert (0 < product (Dims i_)) as HP.
  { destruct (valid_inv _ Hv) as (Hne & Hall & _).
    apply product_pos. eapply Forall_impl; [done|]. simpl. lia. }
  exists 0, 0. rewrite Z.mul_0_l, Z.min_l by lia.
  split_and!; try done.
  - intros _. by rewrite decode_zero.
  - by left.
  - intros k Hk. lia.
  - intros k Hk. lia.
Qed.

Lemma step_sequential st st' :
  sequential i_ f (OpsPerThread opts) (product (Dims i_)) st →
  step i_ (Some f) opts useFast st st' →
  sequential i_ f (OpsPerThread opts) (product (Dims i_)) st'.
Proof.
  destruct st as [sh ws calls].
  intros (w & Hws & Hw) [t Ht].
  pose proof (fits_Size _ Hv Hf) as Hsize.
  assert (0 < product (Dims i_)) as HP.
  { destruct (valid_inv _ Hv) as (Hne & Hall & _).
    apply product_pos. eapply Forall_impl; [done|]. simpl. lia. }
  unfold thread_step in Ht. cbn [st_workers st_shared st_calls] in *. subst ws.
  destruct t as [|t]; [|done]. cbn [lookup list_lookup] in Ht.
  destruct w as [e|li le lp e|]; [| |done].
  - (* the goroutine takes the lock *)
    destruct Hw as (Herr & m & lo & Hm & Hc & Hpt & Hcalls & Hlo & Hno & Hlast).
    destruct (claim i_ opts useFast sh e) as [[sh' w]|] eqn:Hcl; [|done].
    cbn [mbind go_bind] in Ht. injection Ht as <-.
    unfold sequential. cbn [st_workers st_shared st_calls insert list_insert].
    eexists. split; [done|].
    destruct e as [x|].
    { rewrite claim_local_error in Hcl by done. injection Hcl as <- <-.
      cbn [s_err]. right. left.
      destruct Hlo as [[-> ->]|[-> Hm1]].
      { destruct Hlast as (j & Hj & _). lia. }
      exists (m - 1), x.
      replace ((m - 1) * OpsPerThread opts)
        with (m * OpsPerThread opts - OpsPerThread opts) by lia.
      replace (m * OpsPerThread opts - OpsPerThread opts + OpsPerThread opts)
        with (m * OpsPerThread opts) by lia.
      split_and!; try done; [lia|].
      destruct Hlast as (j & Hj & _). lia. }
    assert (no_failure i_ f 0 (Z.min (m * OpsPerThread opts) (product (Dims i_))))
      as Hall by (by eapply no_failure_join).
    destruct (decide (product (Dims i_) ≤ s_index sh)) as [Hex|Hin].
    { rewrite (claim_exhausted _ _ _ _ (product (Dims i_))) in Hcl by done.
      injection Hcl as <- <-. left. rewrite Z.min_r in Hcalls, Hall by lia.
      done. }
    rewrite Z.min_l in Hcalls, Hall by lia.
    assert (0 ≤ s_index sh < product (Dims i_)) as Hrange by nia.
    destruct (decide (s_index sh + OpsPerThread opts ≤ MaxInt)) as [Hfit|Hover].
    + rewrite claim_exact in Hcl by (done || lia || (apply Hpt; lia)).
      injection Hcl as <- <-. cbn [s_err s_index s_point].
      split; [done|]. exists (m + 1).
      replace ((m + 1) * OpsPerThread opts)
        with (s_index sh + OpsPerThread opts) by lia.
      replace (s_index sh + OpsPerThread opts - OpsPerThread opts)
        with (s_index sh) by lia.
      split_and!; try done; try lia.
      * intros Hlt.
        destruct (Z.ltb_spec (s_index sh + OpsPerThread opts) (product (Dims i_)));
          [done|lia].
      * apply Hpt. lia.
      * by rewrite Hc.
      * by rewrite Hc.
      * intros k Hk. lia.
    + destruct (claim_overflow i_ useFast Hv Hf opts Hops_int Hops sh (sh', w)
                  Herr Hrange ltac:(lia) Hcl) as [-> Hr].
      injection Hr as -> ->. cbn [s_err]. right. right.
      exists m. split_and!; try done; lia.
  - (* the goroutine visits an index *)
    destruct Hw as (Herr & m & Hm & Hc & Hpt & Hli & Hle & -> & Hcalls & Hno & Hlast).
    assert (0 ≤ li) as Hli0 by nia.
    rewrite (visit_exact i_ useFast Hv Hf (Some f) f) in Ht by (done || lia).
    cbn [mbind go_bind] in Ht. injection Ht as <-.
    unfold sequential. cbn [st_workers st_shared st_calls insert list_insert].
    eexists. split; [done|].
    pose proof (last_failure_step i_ f
                  (m * OpsPerThread opts - OpsPerThread opts) li e
                  ltac:(lia) Hlast) as Hlast'.
    cbn zeta. destruct (decide (li + 1 = le)) as [Heq|Hne].
    + split; [done|]. exists m, (m * OpsPerThread opts - OpsPerThread opts).
      rewrite <-Hle, <-Heq.
      split_and!; try done; try lia;
        try (rewrite Hcalls; by rewrite calls_upto_snoc);
        try (right; split; [done|lia]).
    + split; [done|]. exists m.
      split_and!; try done; try lia;
        try (rewrite Hcalls; by rewrite calls_upto_snoc).
Qed.

Lemma reachable_sequential st :
  rtc (step i_ (Some f) opts useFast) (init_state i_ opts) st →
  sequential i_ f (OpsPerThread opts) (product (Dims i_)) st.
Proof.
  revert st. apply rtc_ind_r; [apply init_sequential|].
  intros st st' _ Hstep IH. by eapply step_sequential.
Qed.

Lemma finished_sequential st :
  rtc (step i_ (Some f) opts useFast) (init_state i_ opts) st →
  finished st →
  sequential_outcome i_ f (OpsPerThread opts) (product (Dims i_))
    (st_calls st) (s_err (st_shared st)).
Proof.
  intros Hr Hfin. destruct (reachable_sequential st Hr) as (w & Hws & Hw).
  unfold finished in Hfin. rewrite Hws in Hfin.
  inversion Hfin as [|? ? Hd _].
  assert (w = Done) as -> by exact Hd. exact Hw.
Qed.

End sequential.

Lemma sequential_outcome_bound i_ f ops size calls r :
  1 ≤ ops → 0 < size →
  sequential_outcome i_ f ops size calls r →
  ∃ n, 0 ≤ n ≤ size ∧ calls = calls_upto i_ n.
Proof.
  intros Hops Hsize [(_ & -> & _)|[(m & e & Hm & Hlt & _ & _ & _ & ->)
                                  |(m & Hm & Hlt & _ & _ & _ & ->)]].
  - exists size. split; [lia|done].
  - eexists. split; [|done]. nia.
  - eexists. split; [|done]. nia.
Qed.

Lemma sequential_outcome_failure i_ f ops size calls r m e :
  1 ≤ ops → 0 ≤ m → m * ops + ops ≤ MaxInt →
  no_failure i_ f 0 (m * ops) →
  last_failure i_ f (m * ops) (Z.min (m * ops + ops) size) (Some e) →
  sequential_outcome i_ f ops size calls r →
  calls = calls_upto i_ (Z.min (m * ops + ops) size) ∧ r = Some e.
Proof.
  intros Hops Hm Hfit Hno Hlast Hout.
  pose proof Hlast as (j & Hj & Hfj & Hnj).
  assert (0 ≤ m * ops) as Hmo by nia.
  destruct Hout as [(_ & _ & Hall)|[(m0 & e0 & Hm0 & Hlt0 & Hno0 & Hlast0 & -> & ->)
                                   |(m0 & Hm0 & Hlt0 & Hover & Hno0 & _ & _)]].
  - rewrite Hall in Hfj by lia. done.
  - pose proof Hlast0 as (j0 & Hj0 & Hfj0 & Hnj0).
    assert (m0 = m) as ->.
    { destruct (Z.lt_trichotomy m0 m) as [?|[?|?]]; [|done|].
      - rewrite Hno in Hfj0 by nia. done.
      - rewrite Hno0 in Hfj by nia. done. }
    split; [done|]. f_equal. by eapply last_failure_unique.
  - assert (m < m0) as Hlt by nia.
    assert (m * ops + ops ≤ m0 * ops) as Hle by nia.
    rewrite Hno0 in Hfj by lia. done.
Qed.

Section single.
Variable i_ : Interpreter.
Variable f : visitor.
Variable options : option ThreadingOptions.
Variable opts : ThreadingOptions.
Variable size : Z.
Variable useFast : bool.
Hypothesis Hv : valid i_.
Hypothesis Hf : fits i_.
Hypothesis Hopt : int_options options.
Hypothesis Hfill : fill_options i_ options = Return opts.
Hypothesis Hone : NumThreads opts = 1.
Hypothesis Hsize : Size i_ = Return size.

Lemma single_outcome calls r :
  generalMapApply i_ (Some f) options useFast calls r →
  1 ≤ OpsPerThread opts ∧ 0 < size ∧ size = product (Dims i_) ∧
  sequential_outcome i_ f (OpsPerThread opts) size calls r.
Proof.
  intros Hg.
  destruct (fits_options i_ options Hv Hf Hopt) as (opts' & Hfill' & Hoi & Hops & _).
  assert (opts' = opts) as -> by congruence.
  assert (size = product (Dims i_)) as ->.
  { rewrite fits_Size in Hsize by done. congruence. }
  assert (0 < product (Dims i_)) as HP.
  { destruct (valid_inv _ Hv) as (Hne & Hall & _).
    apply product_pos. eapply Forall_impl; [done|]. simpl. lia. }
  split; [done|]. split; [done|]. split; [done|].
  apply (generalMapApply_run _ _ _ _ _ _ opts Hfill) in Hg
    as (final & Hr & Hfin & -> & ->).
  by apply (finished_sequential i_ f opts useFast).
Qed.

End single.

(** X17: when the number of points fits an [int] and there is a single
    goroutine, [fn] is called with the indices 0, 1, 2, ... in this order,
    each with the point of the index.  When [generalMapApply] returns [nil],
    every index in [[0, Size())] has been visited and [fn] returned [nil] on
    each.  When [fn] returns an error in the batch that starts at
    [m * OpsPerThread], and on no earlier index, every index up to the end of
    that batch is visited and none after it, and the error returned is the
    one [fn] returned last in that batch. *)
Theorem single_worker_run (i_ : Interpreter) (f : visitor)
    (options : option ThreadingOptions) (opts : ThreadingOptions) (size : Z)
    (useFast : bool) (calls : list (list Z * Z)) (r : option error) :
  valid i_ → fits i_ → int_options options →
  fill_options i_ options = Return opts → NumThreads opts = 1 →
  Size i_ = Return size →
  generalMapApply i_ (Some f) options useFast calls r →
  (∃ n, 0 ≤ n ≤ size ∧ calls = calls_upto i_ n) ∧
  (r = None → calls = calls_upto i_ size ∧ no_failure i_ f 0 size) ∧
  (∀ m e, 0 ≤ m →
     m * OpsPerThread opts + OpsPerThread opts ≤ MaxInt →
     no_failure i_ f 0 (m * OpsPerThread opts) →
     last_failure i_ f (m * OpsPerThread opts)
       (Z.min (m * OpsPerThread opts + OpsPerThread opts) size) (Some e) →
     calls = calls_upto i_ (Z.min (m * OpsPerThread opts + OpsPerThread opts) size) ∧
     r = Some e).
Proof.
  intros Hv Hf Hopt Hfill Hone Hsize Hg.
  destruct (single_outcome i_ f options opts size useFast Hv Hf Hopt Hfill Hone
              Hsize calls r Hg) as (Hops & HP & -> & Hout).
  split_and!.
  - by eapply sequential_outcome_bound.
  - intros ->. destruct Hout as [(_ & ? & ?)|[(? & ? & ? & ? & ? & ? & ? & ?)
                                             |(? & ? & ? & ? & ? & ? & ?)]]; done.
  - intros m e Hm Hfit Hno Hlast. by eapply sequential_outcome_failure.
Qed.

Lemma single_worker_run_witness :
  valid (mkInterpreter [4] [4]) ∧ fits (mkInterpreter [4] [4]) ∧
  int_options (Some (mkThreadingOptions 4 1)) ∧
  generalMapApply (mkInterpreter [4] [4])
    (Some (λ _ k, if decide (k = 1) then Some (ForeignError "first")
                  else if decide (k = 2) then Some (ForeignError "second")
                  else None))
    (Some (mkThreadingOptions 4 1)) false
    [([0], 0); ([1], 1); ([2], 2); ([3], 3)] (Some (ForeignError "second")) ∧
  ∃ n, 0 ≤ n ≤ 4 ∧
    [([0], 0); ([1], 1); ([2], 2); ([3], 3)] = calls_upto (mkInterpreter [4] [4]) n.
Proof.
  assert (valid (mkInterpreter [4] [4])) as Hv.
  { split; [repeat constructor; vm_compute; discriminate|reflexivity]. }
  assert (fits (mkInterpreter [4] [4])) as Hf.
  { vm_compute. discriminate. }
  assert (int_options (Some (mkThreadingOptions 4 1))) as Ho.
  { split; vm_compute; split; discriminate. }
  assert (generalMapApply (mkInterpreter [4] [4])
    (Some (λ _ k, if decide (k = 1) then Some (ForeignError "first")
                  else if decide (k = 2) then Some (ForeignError "second")
                  else None))
    (Some (mkThreadingOptions 4 1)) false
    [([0], 0); ([1], 1); ([2], 2); ([3], 3)] (Some (ForeignError "second")))
    as Hg.
  { eexists _, _. split; [reflexivity|]. split.
    - apply (run_rtc _ _ _ _ [0; 0; 0; 0; 0; 0]%nat). vm_compute. reflexivity.
    - split; [repeat constructor|]. split; reflexivity. }
  split; [exact Hv|]. split; [exact Hf|]. split; [exact Ho|]. split; [exact Hg|].
  exact (proj1 (single_worker_run _ _ _ (mkThreadingOptions 4 1) 4 _ _ _
                  Hv Hf Ho eq_refl eq_refl eq_refl Hg)).
Defined.

(** X18: with [nil] options, a function that never returns an error and a
    number of points that fits an [int], [generalMapApply] runs a single
    goroutine with one batch of [Size()] indices: it returns [nil] after
    calling the function once per index, in increasing order from 0 to
    [Size() - 1], each time with the point [PointSafe] returns for the
    index. *)
Theorem nil_options_run (i_ : Interpreter) (f : visitor) (useFast : bool)
    (calls : list (list Z * Z)) (r : option error) :
  valid i_ → fits i_ → (∀ p k, f p k = None) →
  generalMapApply i_ (Some f) None useFast calls r →
  ∃ size, Size i_ = Return size ∧
    fill_options i_ None = Return (mkThreadingOptions size 1) ∧
    r = None ∧ length calls = Z.to_nat size ∧
    ∀ k, 0 ≤ k < size →
      ∃ p, calls !! Z.to_nat k = Some (p, k) ∧ PointSafe i_ k = Return (p, None).
Proof.
  intros Hv Hf Hnever Hg. pose proof (fits_Size _ Hv Hf) as Hsize.
  exists (product (Dims i_)). split; [done|].
  assert (fill_options i_ None
          = Return (mkThreadingOptions (product (Dims i_)) 1)) as Hfill.
  { cbn [fill_options]. by rewrite Hsize. }
  split; [done|].
  destruct (single_outcome i_ f None _ _ useFast Hv Hf I Hfill eq_refl Hsize
              calls r Hg) as (Hops & HP & _ & Hout).
  cbn [OpsPerThread] in *. unfold fits in Hf.
  assert (r = None ∧ calls = calls_upto i_ (product (Dims i_))) as [-> ->].
  { destruct Hout as [(-> & -> & _)|[(m & e & Hm & Hlt & _ & Hlast & _)
                                    |(m & Hm & Hlt & Hover & _)]].
    - done.
    - destruct Hlast as (j & _ & Hfj & _). by rewrite Hnever in Hfj.
    - assert (m = 0) as -> by nia. lia. }
  split; [done|]. unfold calls_upto.
  split; [by rewrite length_fmap, length_seqZ|].
  intros k Hk. exists (decode (Dims i_) k). split; [|by apply PointSafe_fits].
  rewrite list_lookup_fmap, (lookup_seqZ_lt _ _ (Z.to_nat k)) by lia.
  cbn. do 3 f_equal; lia.
Qed.

Lemma nil_options_run_witness :
  valid (mkInterpreter [2; 3] [2; 6]) ∧ fits (mkInterpreter [2; 3] [2; 6]) ∧
  generalMapApply (mkInterpreter [2; 3] [2; 6]) (Some (λ _ _, None)) None false
    [([0; 0], 0); ([1; 0], 1); ([0; 1], 2); ([1; 1], 3); ([0; 2], 4); ([1; 2], 5)]
    None ∧
  ∃ size, Size (mkInterpreter [2; 3] [2; 6]) = Return size ∧
    fill_options (mkInterpreter [2; 3] [2; 6]) None
    = Return (mkThreadingOptions size 1).
Proof.
  assert (valid (mkInterpreter [2; 3] [2; 6])) as Hv.
  { split; [repeat constructor; vm_compute; discriminate|reflexivity]. }
  assert (fits (mkInterpreter [2; 3] [2; 6])) as Hf.
  { vm_compute. discriminate. }
  assert (generalMapApply (mkInterpreter [2; 3] [2; 6]) (Some (λ _ _, None))
            None false
            [([0; 0], 0); ([1; 0], 1); ([0; 1], 2); ([1; 1], 3); ([0; 2], 4);
             ([1; 2], 5)] None) as Hg.
  { eexists _, _. split; [reflexivity|]. split.
    - apply (run_rtc _ _ _ _ [0; 0; 0; 0; 0; 0; 0; 0]%nat). vm_compute. reflexivity.
    - split; [repeat constructor|]. split; reflexivity. }
  split; [exact Hv|]. split; [exact Hf|]. split; [exact Hg|].
  destruct (nil_options_run _ _ _ _ _ Hv Hf (λ _ _, eq_refl) Hg)
    as (size & H1 & H2 & _).
  exists size. split; [exact H1|exact H2].
Defined.

(** * Errors *)

(** X19: when [CheckPoint] returns an error for a point, [IndexSafe] returns
    index 0 with that error, and [IncreaseBySafe] with any change other than
    0 returns [false] with that error and leaves the point as it was,
    whatever the Interpreter. *)
Theorem CheckPoint_error_passed_on (i_ : Interpreter) (p : list Z) (e : error)
    (change : Z) :
  CheckPoint i_ p = Return (Some e) →
  IndexSafe i_ p = Return (0, Some e) ∧
  (change ≠ 0 → IncreaseBySafe i_ p change = Return (p, false, Some e)).
Proof.
  intros Hc.
  assert (IndexSafe i_ p = Return (0, Some e)) as HI.
  { unfold IndexSafe. by rewrite Hc. }
  split; [done|]. intros Hne. unfold IncreaseBySafe.
  rewrite decide_False by done.
  destruct (decide (change = 1)).
  { unfold IncrementSafe. by rewrite Hc. }
  destruct (decide (change = -1)).
  { unfold DecrementSafe. by rewrite Hc. }
  by rewrite HI.
Qed.

Lemma CheckPoint_error_passed_on_witness :
  CheckPoint (mkInterpreter [2; 3] [2; 6]) [0; 5]
    = Return (Some (PointOutOfBoundsError [0; 5] [2; 3] 1)) ∧
  IndexSafe (mkInterpreter [2; 3] [2; 6]) [0; 5]
    = Return (0, Some (PointOutOfBoundsError [0; 5] [2; 3] 1)) ∧
  (4 ≠ 0 →
   IncreaseBySafe (mkInterpreter [2; 3] [2; 6]) [0; 5] 4
   = Return ([0; 5], false, Some (PointOutOfBoundsError [0; 5] [2; 3] 1))).
Proof.
  split; [reflexivity|].
  apply (CheckPoint_error_passed_on (mkInterpreter [2; 3] [2; 6]) [0; 5]).
  reflexivity.
Defined.

(** X20: on [nil] and the errors of this package, [Is] is an equivalence:
    reflexive, symmetric and transitive.  Two values of type [Error] are the
    same for [Is] exactly when they hold the same message, so the error
    variables of the package are told apart from one another; two errors of
    one of the other types of the package are the same for [Is] whatever
    their fields hold; and errors of different types, or an error and
    [nil], are never the same. *)
Theorem Is_equivalence (a b c : option error) :
  package_error a → package_error b → package_error c →
  Is a a = true ∧
  Is a b = Is b a ∧
  (Is a b = true → Is b c = true → Is a c = true) ∧
  (Is a b = true → TypeOf a = TypeOf b) ∧
  (∀ s s', Is (Some (Error s)) (Some (Error s')) = true ↔ s = s') ∧
  (TypeOf a = TypeOf b → TypeOf a ≠ TError → Is a b = true) ∧
  (∀ (i j : nat) x y, error_vars !! i = Some x → error_vars !! j = Some y →
     (Is (Some x) (Some y) = true ↔ i = j)).
Proof.
  unfold package_error. intros Ha Hb Hc. split_and!.
  - destruct a as [[]|]; cbn; try done. by apply bool_decide_eq_true.
  - destruct a as [[]|], b as [[]|]; cbn; try done.
    apply bool_decide_ext. split; congruence.
  - destruct a as [[]|], b as [[]|], c as [[]|]; cbn; try done.
    rewrite !bool_decide_eq_true. congruence.
  - destruct a as [[]|], b as [[]|]; cbn; done.
  - intros s s'. cbn. rewrite bool_decide_eq_true. split; congruence.
  - destruct a as [[]|], b as [[]|]; cbn; done.
  - intros i j x y Hi Hj.
    assert (i < 7)%nat as Hi7 by (apply lookup_lt_Some in Hi; exact Hi).
    assert (j < 7)%nat as Hj7 by (apply lookup_lt_Some in Hj; exact Hj).
    destruct i as [|[|[|[|[|[|[|i]]]]]]]; try (exfalso; lia);
      destruct j as [|[|[|[|[|[|[|j]]]]]]]; try (exfalso; lia);
      cbn in Hi, Hj; injection Hi as <-; injection Hj as <-;
      vm_compute; split; intros ?; done.
Qed.

Lemma Is_equivalence_witness :
  package_error (Some ErrZeroDims) ∧
  package_error (Some (DimsValueError [1; 0] 1)) ∧
  package_error None ∧
  Is (Some ErrZeroDims) (Some (DimsValueError [1; 0] 1))
  = Is (Some (DimsValueError [1; 0] 1)) (Some ErrZeroDims).
Proof.
  assert (package_error (Some ErrZeroDims)) as H1 by discriminate.
  assert (package_error (Some (DimsValueError [1; 0] 1))) as H2 by discriminate.
  assert (package_error None) as H3 by discriminate.
  split; [exact H1|]. split; [exact H2|]. split; [exact H3|].
  destruct (Is_equivalence (Some ErrZeroDims) (Some (DimsValueError [1; 0] 1))
              None H1 H2 H3) as (_ & H & _).
  exact H.
Defined.

(** * Cells of a Tensor *)

(** X21: for a Tensor whose Interpreter is made by the constructor, whose
    number of points fits an [int] and whose [Values] has [Size()] cells:
    on a point that [CheckPoint] rejects, [PointValueSafe] returns [0.0]
    with that error and [PointValue] panics; on a point that passes,
    neither panics and both return the cell at the index of the point;
    every cell is the cell of a point that passes [CheckPoint], and two
    points that pass and have the same index are the same point. *)
Theorem PointValueSafe_cell {float64 : Type} (zero : float64)
    (t : Tensor float64) (size : Z) :
  valid (T_Interpreter t) → fits (T_Interpreter t) →
  Size (T_Interpreter t) = Return size →
  length (Values t) = Z.to_nat size →
  (∀ p e, CheckPoint (T_Interpreter t) p = Return (Some e) →
     PointValueSafe zero t p = Return (zero, Some e) ∧
     PointValue t p = Panic) ∧
  (∀ p, CheckPoint (T_Interpreter t) p = Return None →
     ∃ k v, IndexSafe (T_Interpreter t) p = Return (k, None) ∧ 0 ≤ k < size ∧
       Values t !! Z.to_nat k = Some v ∧
       PointValueSafe zero t p = Return (v, None) ∧
       PointValue t p = Return v) ∧
  (∀ n : nat, (n < length (Values t))%nat →
     ∃ p, CheckPoint (T_Interpreter t) p = Return None ∧
          IndexSafe (T_Interpreter t) p = Return (Z.of_nat n, None)) ∧
  (∀ p q k, IndexSafe (T_Interpreter t) p = Return (k, None) →
     IndexSafe (T_Interpreter t) q = Return (k, None) → p = q).
Proof.
  destruct t as [i_ vals]. cbn [T_Interpreter Values].
  intros Hv Hf Hsize Hlen.
  destruct (valid_inv _ Hv) as (Hne & Hall & HS & Hl).
  assert (Forall (λ d, 0 < d) (Dims i_)) as Hpos.
  { eapply Forall_impl; [done|]. simpl. lia. }
  rewrite fits_Size in Hsize by done. injection Hsize as <-.
  assert (∀ p k, IndexSafe i_ p = Return (k, None) →
            in_bounds (Dims i_) p ∧ k = encode (Dims i_) p) as Hinv.
  { intros p k Hk. destruct (CheckPoint_total i_ p Hl) as [[e|] Hc].
    - unfold IndexSafe in Hk. rewrite Hc in Hk. done.
    - apply valid_CheckPoint in Hc; [|done]. split; [done|].
      rewrite IndexSafe_fits in Hk by done. congruence. }
  split_and!.
  - intros p e Hc. unfold PointValueSafe, PointValue, Index, IndexSafe.
    cbn [T_Interpreter Values]. by rewrite Hc.
  - intros p Hc. apply valid_CheckPoint in Hc; [|done].
    pose proof (encode_bounds _ _ Hc) as Hk.
    destruct (lookup_lt_is_Some_2 vals (Z.to_nat (encode (Dims i_) p)))
      as [v Hval]; [lia|].
    exists (encode (Dims i_) p), v.
    split; [by apply IndexSafe_fits|]. split; [done|]. split; [done|].
    unfold PointValueSafe, PointValue, Index. cbn [T_Interpreter Values].
    rewrite IndexSafe_fits by done. cbn [mbind go_bind].
    unfold index_at. destruct (Z.ltb_spec (encode (Dims i_) p) 0); [lia|].
    by rewrite (index_get_Some _ _ v Hval).
  - intros n Hn. exists (decode (Dims i_) (Z.of_nat n)).
    pose proof (decode_in_bounds (Dims i_) (Z.of_nat n) Hpos) as Hb.
    split; [by apply valid_CheckPoint|].
    rewrite IndexSafe_fits by done. by rewrite encode_decode by (done || lia).
  - intros p q k Hp Hq.
    destruct (Hinv p k Hp) as [Hbp ->]. destruct (Hinv q _ Hq) as [Hbq Heq].
    rewrite <-(decode_encode _ _ Hbp), <-(decode_encode _ _ Hbq). by rewrite Heq.
Qed.

Lemma PointValueSafe_cell_witness :
  valid (mkInterpreter [2; 2] [2; 4]) ∧ fits (mkInterpreter [2; 2] [2; 4]) ∧
  length [true; false; false; true] = Z.to_nat 4 ∧
  ∃ k v,
    IndexSafe (mkInterpreter [2; 2] [2; 4]) [1; 1] = Return (k, None) ∧
    0 ≤ k < 4 ∧ [true; false; false; true] !! Z.to_nat k = Some v ∧
    PointValueSafe false (mkTensor (mkInterpreter [2; 2] [2; 4])
                            [true; false; false; true]) [1; 1]
    = Return (v, None) ∧
    PointValue (mkTensor (mkInterpreter [2; 2] [2; 4])
                  [true; false; false; true]) [1; 1] = Return v.
Proof.
  assert (valid (mkInterpreter [2; 2] [2; 4])) as Hv.
  { split; [repeat constructor; vm_compute; discriminate|reflexivity]. }
  assert (fits (mkInterpreter [2; 2] [2; 4])) as Hf.
  { vm_compute. discriminate. }
  split; [exact Hv|]. split; [exact Hf|]. split; [reflexivity|].
  destruct (PointValueSafe_cell false
              (mkTensor (mkInterpreter [2; 2] [2; 4])
                 [true; false; false; true]) 4 Hv Hf eq_refl eq_refl)
    as (_ & H & _).
  exact (H [1; 1] eq_refl).
Defined.

(** * The traversal engine: once an error is recorded *)

Section sticky.
Variable i_ : Interpreter.
Variable fn : option visitor.
Variable opts : ThreadingOptions.
Variable useFast : bool.
Variable size : Z.
Hypothesis Hsize : Size i_ = Return size.
Hypothesis Hsize_int : is_int size.
Hypothesis Hops_int : is_int (OpsPerThread opts).
Hypothesis Hops : 1 ≤ size → 1 ≤ OpsPerThread opts.

Lemma step_after_error st st' e :
  traversal_inv size st → s_err (st_shared st) = Some e →
  step i_ fn opts useFast st st' →
  st_shared st' = st_shared st ∧
  ∀ i, (visits i (st_calls st') + pending_all i (st_workers st')
        ≤ visits i (st_calls st) + pending_all i (st_workers st))%nat.
Proof.
  destruct st as [sh ws calls].
  intros ([Hcur Hwf] & _) Herr [t Ht].
  unfold thread_step in Ht. cbn [st_workers st_shared st_calls] in *.
  destruct (ws !! t) as [[x|li le lp x|]|] eqn:Hw; [| |done|done].
  - rewrite (claim_on_error _ _ _ _ _ e Herr) in Ht.
    cbn [mbind go_bind] in Ht. injection Ht as <-.
    cbn [st_workers st_shared st_calls]. split; [done|]. intros i.
    pose proof (total_insert i ws t _ Done calls [] Hw) as HT.
    cbn [pending] in HT. change (visits i []) with 0%nat in HT.
    rewrite app_nil_r in HT. lia.
  - pose proof (Forall_lookup_1 _ _ _ _ Hwf Hw) as [Hli Hle]. cbn in Hli, Hle.
    destruct (visit i_ fn useFast li le lp x) as [[w cs]|] eqn:Hvis; [|done].
    cbn [mbind go_bind] in Ht. injection Ht as <-.
    cbn [st_workers st_shared st_calls]. split; [done|]. intros i.
    pose proof (total_insert i ws t _ w calls cs Hw) as HT.
    destruct (visit_cases i_ fn useFast size Hsize_int _ _ _ _ _ _ Hvis Hli Hle)
      as [(Hempty & -> & ->)|(Hlt & -> & f & e' & Hfn & He' & Hw')].
    + change (visits i []) with 0%nat in HT. cbn [pending] in HT.
      revert HT. case_bool_decide; lia.
    + destruct Hw' as [[-> Heq]|[(y & -> & Hne)|(p & -> & Hne & _)]];
        revert HT; unfold pending; rewrite visits_one;
        repeat case_bool_decide; repeat case_decide; lia.
Qed.

Lemma rtc_after_error st st' e :
  traversal_inv size st → s_err (st_shared st) = Some e →
  rtc (step i_ fn opts useFast) st st' →
  st_shared st' = st_shared st ∧
  ∀ i, (visits i (st_calls st') + pending_all i (st_workers st')
        ≤ visits i (st_calls st) + pending_all i (st_workers st))%nat.
Proof.
  intros Hinv Herr Hr. revert Hinv Herr.
  induction Hr as [st|st st1 st' Hstep Hr IH]; intros Hinv Herr.
  - split; [done|]. intros i. lia.
  - destruct (step_after_error _ _ e Hinv Herr Hstep) as [Hsh Hle].
    destruct (step_inv i_ fn opts useFast size Hsize Hsize_int Hops_int Hops
                _ _ Hinv Hstep) as [Hinv' _].
    destruct (IH Hinv') as [Hsh' Hle']; [by rewrite Hsh|].
    split; [congruence|]. intros i. specialize (Hle i). specialize (Hle' i). lia.
Qed.

End sticky.

(** X22: the first error recorded in the shared [err] is the one returned,
    and it stops the handing out of indices: from any moment of a traversal
    at which the shared [err] holds an error, the shared variables never
    change again, whatever the goroutines do, every index visited later had
    already been fetched by a goroutine at that moment, and when
    [generalMapApply] returns it returns that error. *)
Theorem first_recorded_error_wins (i_ : Interpreter) (fn : option visitor)
    (options : option ThreadingOptions) (useFast : bool) :
  valid i_ → int_options options →
  ∃ opts, fill_options i_ options = Return opts ∧
    ∀ st st' e,
      rtc (step i_ fn opts useFast) (init_state i_ opts) st →
      s_err (st_shared st) = Some e →
      rtc (step i_ fn opts useFast) st st' →
      st_shared st' = st_shared st ∧
      (∀ i, (visits i (st_calls st')
             ≤ visits i (st_calls st) + pending_all i (st_workers st))%nat) ∧
      (finished st' → s_err (st_shared st') = Some e).
Proof.
  intros Hv Hopt. destruct (valid_Size _ Hv) as (size & Hsize & Hint).
  destruct (fill_options_spec i_ options size Hsize Hint Hopt)
    as (opts & Hfill & Hoi & Hops & _).
  exists opts. split; [done|]. intros st st' e Hr Herr Hr'.
  destruct (reachable_inv i_ fn opts useFast size Hsize Hint Hoi Hops st Hr)
    as [Hinv _].
  destruct (rtc_after_error i_ fn opts useFast size Hsize Hint Hoi Hops
              st st' e Hinv Herr Hr') as [Hsh Hle].
  split; [done|]. split.
  - intros i. specialize (Hle i). lia.
  - intros _. by rewrite Hsh.
Qed.

Lemma first_recorded_error_wins_witness :
  valid (mkInterpreter [2; 3] [2; 6]) ∧
  int_options (Some (mkThreadingOptions 2 2)) ∧
  fill_options (mkInterpreter [2; 3] [2; 6]) (Some (mkThreadingOptions 2 2))
    = Return (mkThreadingOptions 2 2) ∧
  rtc (step (mkInterpreter [2; 3] [2; 6])
         (Some (λ _ k, if decide (k = 0) then Some (ForeignError "stop") else None))
         (mkThreadingOptions 2 2) false)
    (init_state (mkInterpreter [2; 3] [2; 6]) (mkThreadingOptions 2 2))
    (mkState (mkShared 4 [0; 2] (Some (ForeignError "stop")))
       [Done; InBatch 2 4 [0; 1] None] [([0; 0], 0); ([1; 0], 1)]) ∧
  rtc (step (mkInterpreter [2; 3] [2; 6])
         (Some (λ _ k, if decide (k = 0) then Some (ForeignError "stop") else None))
         (mkThreadingOptions 2 2) false)
    (mkState (mkShared 4 [0; 2] (Some (ForeignError "stop")))
       [Done; InBatch 2 4 [0; 1] None] [([0; 0], 0); ([1; 0], 1)])
    (mkState (mkShared 4 [0; 2] (Some (ForeignError "stop")))
       [Done; Done] [([0; 0], 0); ([1; 0], 1); ([0; 1], 2); ([1; 1], 3)]) ∧
  ∀ i, (visits i [([0; 0], 0); ([1; 0], 1); ([0; 1], 2); ([1; 1], 3)]%Z
        ≤ visits i [([0; 0], 0); ([1; 0], 1)]%Z
          + pending_all i [Done; InBatch 2 4 [0; 1] None]%Z)%nat.
Proof.
  assert (valid (mkInterpreter [2; 3] [2; 6])) as Hv.
  { split; [repeat constructor; vm_compute; discriminate|reflexivity]. }
  assert (int_options (Some (mkThreadingOptions 2 2))) as Ho.
  { split; vm_compute; split; discriminate. }
  assert (rtc (step (mkInterpreter [2; 3] [2; 6])
                 (Some (λ _ k, if decide (k = 0) then Some (ForeignError "stop")
                               else None))
                 (mkThreadingOptions 2 2) false)
            (init_state (mkInterpreter [2; 3] [2; 6]) (mkThreadingOptions 2 2))
            (mkState (mkShared 4 [0; 2] (Some (ForeignError "stop")))
               [Done; InBatch 2 4 [0; 1] None] [([0; 0], 0); ([1; 0], 1)])) as Hr.
  { apply (run_rtc _ _ _ _ [0; 1; 0; 0; 0]%nat). vm_compute. reflexivity. }
  assert (rtc (step (mkInterpreter [2; 3] [2; 6])
                 (Some (λ _ k, if decide (k = 0) then Some (ForeignError "stop")
                               else None))
                 (mkThreadingOptions 2 2) false)
            (mkState (mkShared 4 [0; 2] (Some (ForeignError "stop")))
               [Done; InBatch 2 4 [0; 1] None] [([0; 0], 0); ([1; 0], 1)])
            (mkState (mkShared 4 [0; 2] (Some (ForeignError "stop")))
               [Done; Done]
               [([0; 0], 0); ([1; 0], 1); ([0; 1], 2); ([1; 1], 3)])) as Hr'.
  { apply (run_rtc _ _ _ _ [1; 1; 1]%nat). vm_compute. reflexivity. }
  split; [exact Hv|]. split; [exact Ho|]. split; [reflexivity|].
  split; [exact Hr|]. split; [exact Hr'|].
  destruct (first_recorded_error_wins (mkInterpreter [2; 3] [2; 6])
              (Some (λ _ k, if decide (k = 0) then Some (ForeignError "stop")
                            else None))
              (Some (mkThreadingOptions 2 2)) false Hv Ho)
    as (opts & Hfill & Hall).
  injection Hfill as <-.
  exact (proj1 (proj2 (Hall _ _ _ Hr eq_refl Hr'))).
Defined.

(** * [MapApplySafe]: every index once *)

(** C1, as stated, fails on the shape [[2; 2^63-1; 2^63-3]], which the
    constructor accepts with the running sizes [[2; -2; 6]], so that
    [Size()] is 6.  With a single goroutine, batches of two indices and a
    function that never returns an error, the second batch starts from the
    point [PointSafe] gives for the index 2, which is [[0; 0; -1]];
    [IncrementSafe] rejects it, and [MapApplySafe] returns that error after
    three calls: the indices 3, 4 and 5 are never visited. *)
Lemma MapApplySafe_skips_counterexample :
  NewInterpreterSafe [2; 2 ^ 63 - 1; 2 ^ 63 - 3]
    = Return (mkInterpreter [2; 2 ^ 63 - 1; 2 ^ 63 - 3] [2; -2; 6], None) ∧
  valid (mkInterpreter [2; 2 ^ 63 - 1; 2 ^ 63 - 3] [2; -2; 6]) ∧
  int_options (Some (mkThreadingOptions 2 1)) ∧
  Size (mkInterpreter [2; 2 ^ 63 - 1; 2 ^ 63 - 3] [2; -2; 6]) = Return 6 ∧
  MapApplySafe (mkInterpreter [2; 2 ^ 63 - 1; 2 ^ 63 - 3] [2; -2; 6])
    (Some (λ _ _, None)) (Some (mkThreadingOptions 2 1))
    [([0; 0; 0], 0); ([1; 0; 0], 1); ([0; 0; -1], 2)]
    (Some (PointOutOfBoundsError [0; 0; -1] [2; 2 ^ 63 - 1; 2 ^ 63 - 3] 2)) ∧
  visits 3 [([0; 0; 0], 0); ([1; 0; 0], 1); ([0; 0; -1], 2)] = 0%nat ∧
  visits 4 [([0; 0; 0], 0); ([1; 0; 0], 1); ([0; 0; -1], 2)] = 0%nat ∧
  visits 5 [([0; 0; 0], 0); ([1; 0; 0], 1); ([0; 0; -1], 2)] = 0%nat.
Proof.
  split; [reflexivity|]. split.
  { split; [repeat constructor; vm_compute; discriminate|reflexivity]. }
  split.
  { split; vm_compute; split; discriminate. }
  split; [reflexivity|]. split; [|by vm_compute].
  eexists _, _. split; [reflexivity|]. split.
  - apply (run_rtc _ _ _ _ [0; 0; 0; 0; 0; 0; 0]%nat). vm_compute. reflexivity.
  - split; [repeat constructor|]. split; reflexivity.
Qed.

(** The shared index can wrap around also when the number of points fits an
    [int]: on the shape [[2^63-1]] with two goroutines and batches of
    [2^63-2] indices, the second goroutine to take the lock moves the shared
    index past [MaxInt]; [PointSafe] rejects the wrapped index, and
    [MapApplySafe] returns [ErrIndexZero] although the function never
    returns an error.  The last index is never visited. *)
Lemma MapApplySafe_cursor_wraps :
  valid (mkInterpreter [MaxInt] [MaxInt]) ∧
  fits (mkInterpreter [MaxInt] [MaxInt]) ∧
  int_options (Some (mkThreadingOptions (MaxInt - 1) 2)) ∧
  MaxInt < last_end MaxInt (MaxInt - 1) ∧
  ∃ calls,
    MapApplySafe (mkInterpreter [MaxInt] [MaxInt]) (Some (λ _ _, None))
      (Some (mkThreadingOptions (MaxInt - 1) 2)) calls (Some ErrIndexZero) ∧
    visits (MaxInt - 1) calls = 0%nat.
Proof.
  assert (valid (mkInterpreter [MaxInt] [MaxInt])) as Hv.
  { split; [repeat constructor; vm_compute; discriminate|reflexivity]. }
  split; [exact Hv|]. split; [vm_compute; discriminate|]. split.
  { split; vm_compute; split; discriminate. }
  split; [by vm_compute|].
  set (i_ := mkInterpreter [MaxInt] [MaxInt]) in *.
  set (opts := mkThreadingOptions (MaxInt - 1) 2).
  set (f := (λ _ _, None) : visitor).
  set (st := mkState (mkShared (-4) [] (Some ErrIndexZero))
               [InBatch 0 (MaxInt - 1) [0] None; Done] []).
  assert (Size i_ = Return MaxInt) as Hsize by reflexivity.
  assert (is_int MaxInt) as Hint by (vm_compute; split; discriminate).
  assert (is_int (OpsPerThread opts)) as Hoi by (vm_compute; split; discriminate).
  assert (1 ≤ MaxInt → 1 ≤ OpsPerThread opts) as Hops
    by (intros _; vm_compute; discriminate).
  assert (rtc (step i_ (Some f) opts false) (init_state i_ opts) st) as Hr.
  { apply (run_rtc _ _ _ _ [0; 1]%nat). vm_compute. reflexivity. }
  destruct (reachable_inv i_ (Some f) opts false MaxInt Hsize Hint Hoi Hops st Hr)
    as [Hinv _].
  destruct (safe_completes i_ f opts MaxInt st Hv Hsize Hint Hoi Hops Hinv)
    as (final & Hr' & Hfin).
  destruct (rtc_after_error i_ (Some f) opts false MaxInt Hsize Hint Hoi Hops
              st final ErrIndexZero Hinv eq_refl Hr') as [Hsh Hle].
  exists (st_calls final). split.
  - exists opts, final. split; [reflexivity|]. split; [by etrans|].
    split; [done|]. split; [done|]. by rewrite Hsh.
  - specialize (Hle (MaxInt - 1)).
    assert ((visits (MaxInt - 1) (st_calls st)
             + pending_all (MaxInt - 1) (st_workers st))%nat = 0%nat) as E
      by (by vm_compute).
    lia.
Qed.

(** C1, amended: for every Interpreter made by the constructor, every
    threading configuration ([nil] included) and every function that is not
    [nil], [MapApplySafe] returns whatever the interleaving of the
    goroutines: none panics, one that has not returned can take its next
    turn, and every interleaving ends.  When it returns, no index has been
    visited twice and none outside [[0, Size())]; when it returns [nil], the
    function has been called exactly once with each index in [[0, Size())].
    It returns [nil] in every interleaving when the function never returns
    an error, the number of points fits an [int] and the shared index does
    not wrap around, that is the least multiple of [OpsPerThread] that is
    not below [Size()] is at most [MaxInt], as it is with [nil] options. *)
Theorem MapApplySafe_exactly_once (i_ : Interpreter) (f : visitor)
    (options : option ThreadingOptions) :
  valid i_ → int_options options →
  ∃ opts size, fill_options i_ options = Return opts ∧ Size i_ = Return size ∧
    (∀ st, rtc (step i_ (Some f) opts false) (init_state i_ opts) st →
       ¬ crashes i_ (Some f) opts false st ∧
       (finished st ∨ ∃ st', step i_ (Some f) opts false st st')) ∧
    sn (step i_ (Some f) opts false) (init_state i_ opts) ∧
    (∃ calls r, MapApplySafe i_ (Some f) options calls r) ∧
    (∀ calls r, MapApplySafe i_ (Some f) options calls r →
       (∀ i, (visits i calls ≤ 1)%nat ∧ ((1 ≤ visits i calls)%nat → 0 ≤ i < size)) ∧
       (r = None →
        ∀ i, visits i calls = if bool_decide (0 ≤ i < size) then 1%nat else 0%nat)) ∧
    (fits i_ → last_end size (OpsPerThread opts) ≤ MaxInt →
     (∀ p k, f p k = None) →
     ∀ calls r, MapApplySafe i_ (Some f) options calls r →
       r = None ∧
       ∀ i, visits i calls = if bool_decide (0 ≤ i < size) then 1%nat else 0%nat) ∧
    (fits i_ → options = None → last_end size (OpsPerThread opts) ≤ MaxInt).
Proof.
  intros Hv Hopt. destruct (valid_Size _ Hv) as (size & Hsize & Hint).
  destruct (fill_options_spec i_ options size Hsize Hint Hopt)
    as (opts & Hfill & Hoi & Hops & Hn & Hnil & _).
  exists opts, size. split; [done|]. split; [done|].
  split; [|split; [|split; [|split; [|split]]]].
  - intros st _. split; [by apply safe_no_crash|by apply safe_progress].
  - eapply inv_sn; try done. apply init_inv.
  - destruct (safe_completes i_ f opts size (init_state i_ opts) Hv Hsize Hint
                Hoi Hops (init_inv i_ opts size)) as (final & Hr & Hfin).
    exists (st_calls final), (s_err (st_shared final)).
    unfold MapApplySafe, generalMapApply. by exists opts, final.
  - intros calls r Hg. unfold MapApplySafe in Hg.
    apply (generalMapApply_run _ _ _ _ _ _ opts Hfill) in Hg
      as (final & Hr & Hfin & -> & ->).
    destruct (reachable_inv i_ (Some f) opts false size Hsize Hint Hoi Hops
                final Hr) as [Hinv Hlen].
    split.
    + intros i. destruct Hinv as (_ & Hmost & _).
      destruct (Hmost i) as [H1 H2]. split; [lia|].
      intros Hi. apply H2. lia.
    + intros Herr. apply (finished_exactly_once size final Hinv); [|done|done].
      intros E. rewrite E in Hlen. simpl in Hlen. lia.
  - intros Hf Hlast Hnever calls r Hg.
    destruct (never_failing_run i_ f options opts size Hv Hf Hopt Hfill Hsize
                Hlast false calls r Hnever Hg) as (-> & Hvis & _).
    done.
  - intros Hf ->. rewrite (Hnil eq_refl). cbn [OpsPerThread].
    rewrite (fits_Size _ Hv Hf) in Hsize. injection Hsize as <-.
    destruct (valid_inv _ Hv) as (Hne & Hall & _).
    assert (0 < product (Dims i_)) as HP.
    { apply product_pos. eapply Forall_impl; [done|]. simpl. lia. }
    rewrite last_end_nil by lia. apply Hint.
Qed.

Lemma MapApplySafe_exactly_once_witness :
  valid (mkInterpreter [2; 3] [2; 6]) ∧
  int_options (Some (mkThreadingOptions 2 2)) ∧
  MapApplySafe (mkInterpreter [2; 3] [2; 6]) (Some (λ _ _, None))
    (Some (mkThreadingOptions 2 2))
    [([0; 0], 0); ([0; 1], 2); ([1; 1], 3); ([1; 0], 1); ([0; 2], 4); ([1; 2], 5)]
    None ∧
  ∃ opts size,
    fill_options (mkInterpreter [2; 3] [2; 6]) (Some (mkThreadingOptions 2 2))
      = Return opts ∧
    Size (mkInterpreter [2; 3] [2; 6]) = Return size ∧
    ∀ i, visits i [([0; 0], 0); ([0; 1], 2); ([1; 1], 3); ([1; 0], 1);
                   ([0; 2], 4); ([1; 2], 5)]
         = if bool_decide (0 ≤ i < size) then 1%nat else 0%nat.
Proof.
  assert (valid (mkInterpreter [2; 3] [2; 6])) as Hv.
  { split; [repeat constructor; vm_compute; discriminate|reflexivity]. }
  assert (int_options (Some (mkThreadingOptions 2 2))) as Ho.
  { split; vm_compute; split; discriminate. }
  assert (MapApplySafe (mkInterpreter [2; 3] [2; 6]) (Some (λ _ _, None))
            (Some (mkThreadingOptions 2 2))
            [([0; 0], 0); ([0; 1], 2); ([1; 1], 3); ([1; 0], 1); ([0; 2], 4);
             ([1; 2], 5)] None) as Hg.
  { eexists _, _. split; [reflexivity|]. split.
    - apply (run_rtc _ _ _ _ [0;1;0;1;1;0;0;1;0;1;0;1;0;1;0;1;0;1]%nat).
      vm_compute. reflexivity.
    - split; [repeat constructor|]. split; reflexivity. }
  split; [exact Hv|]. split; [exact Ho|]. split; [exact Hg|].
  destruct (MapApplySafe_exactly_once (mkInterpreter [2; 3] [2; 6]) (λ _ _, None)
              (Some (mkThreadingOptions 2 2)) Hv Ho)
    as (opts & size & Hfill & Hsize & _ & _ & _ & Hruns & _).
  exists opts, size. split; [exact Hfill|]. split; [exact Hsize|].
  exact (proj2 (Hruns _ _ Hg) eq_refl).
Defined.

(** * [MapApplySafe] with a single goroutine: which error is returned *)

Lemma calls_upto_elem i_ n p k :
  (p, k) ∈ calls_upto i_ n → 0 ≤ k < n ∧ p = decode (Dims i_) k.
Proof.
  unfold calls_upto. intros Hin.
  apply list_elem_of_fmap in Hin as (j & [= -> ->] & Hj).
  apply elem_of_seqZ in Hj. split; [lia|done].
Qed.

(** C6, as stated, fails on the shape [[4]] with a single goroutine and one
    batch of four indices, when the function returns an error at the index
    1 and another at the index 2: the four indices are visited and no batch
    follows, but every run returns the error of the index 2, the later of
    the two. *)
Lemma single_worker_first_failure_counterexample :
  valid (mkInterpreter [4] [4]) ∧ fits (mkInterpreter [4] [4]) ∧
  fill_options (mkInterpreter [4] [4]) (Some (mkThreadingOptions 4 1))
    = Return (mkThreadingOptions 4 1) ∧
  MapApplySafe (mkInterpreter [4] [4])
    (Some (λ _ k, if decide (k = 1) then Some (ForeignError "first")
                  else if decide (k = 2) then Some (ForeignError "second")
                  else None))
    (Some (mkThreadingOptions 4 1))
    [([0], 0); ([1], 1); ([2], 2); ([3], 3)] (Some (ForeignError "second")) ∧
  (∀ calls r,
     MapApplySafe (mkInterpreter [4] [4])
       (Some (λ _ k, if decide (k = 1) then Some (ForeignError "first")
                     else if decide (k = 2) then Some (ForeignError "second")
                     else None))
       (Some (mkThreadingOptions 4 1)) calls r →
     calls = [([0], 0); ([1], 1); ([2], 2); ([3], 3)] ∧
     r = Some (ForeignError "second")) ∧
  ForeignError "second" ≠ ForeignError "first".
Proof.
  assert (valid (mkInterpreter [4] [4])) as Hv.
  { split; [repeat constructor; vm_compute; discriminate|reflexivity]. }
  assert (fits (mkInterpreter [4] [4])) as Hf.
  { vm_compute. discriminate. }
  assert (int_options (Some (mkThreadingOptions 4 1))) as Ho.
  { split; vm_compute; split; discriminate. }
  split; [exact Hv|]. split; [exact Hf|]. split; [reflexivity|].
  split; [|split; [|discriminate]].
  - eexists _, _. split; [reflexivity|]. split.
    + apply (run_rtc _ _ _ _ [0; 0; 0; 0; 0; 0]%nat). vm_compute. reflexivity.
    + split; [repeat constructor|]. split; reflexivity.
  - intros calls r Hg.
    destruct (single_outcome _ _ _ (mkThreadingOptions 4 1) 4 false Hv Hf Ho
                eq_refl eq_refl eq_refl calls r Hg) as (_ & _ & _ & Hout).
    eapply (sequential_outcome_failure _ _ _ _ _ _ 0 (ForeignError "second"))
      in Hout as [-> ->]; [done|done|done|by vm_compute|..].
    + intros k Hk. lia.
    + exists 2. split; [by vm_compute|]. split; [reflexivity|].
      intros k Hk. assert (k = 3) as -> by (cbn in Hk; lia). reflexivity.
Qed.

(** Without the condition on the number of points a batch can be cut short:
    on the shape [[2; 2^63-1; 2^63-3]], with a single goroutine and batches
    of two indices, the batch of the indices 2 and 3 starts from the point
    [[0; 0; -1]]; when the function returns an error at both indices, it is
    called at the index 2, [IncrementSafe] then rejects the point, the index
    3 is never visited and the error returned is not one of the
    function's. *)
Lemma single_worker_wrapped_shape :
  valid (mkInterpreter [2; 2 ^ 63 - 1; 2 ^ 63 - 3] [2; -2; 6]) ∧
  ¬ fits (mkInterpreter [2; 2 ^ 63 - 1; 2 ^ 63 - 3] [2; -2; 6]) ∧
  MapApplySafe (mkInterpreter [2; 2 ^ 63 - 1; 2 ^ 63 - 3] [2; -2; 6])
    (Some (λ _ k, if decide (k = 2) then Some (ForeignError "first")
                  else if decide (k = 3) then Some (ForeignError "second")
                  else None))
    (Some (mkThreadingOptions 2 1))
    [([0; 0; 0], 0); ([1; 0; 0], 1); ([0; 0; -1], 2)]
    (Some (PointOutOfBoundsError [0; 0; -1] [2; 2 ^ 63 - 1; 2 ^ 63 - 3] 2)) ∧
  visits 3 [([0; 0; 0], 0); ([1; 0; 0], 1); ([0; 0; -1], 2)] = 0%nat.
Proof.
  split.
  { split; [repeat constructor; vm_compute; discriminate|reflexivity]. }
  split; [by vm_compute|]. split; [|by vm_compute].
  eexists _, _. split; [reflexivity|]. split.
  - apply (run_rtc _ _ _ _ [0; 0; 0; 0; 0; 0; 0]%nat). vm_compute. reflexivity.
  - split; [repeat constructor|]. split; reflexivity.
Qed.

(** C6, amended: in a traversal by a single goroutine of an Interpreter
    whose number of points fits an [int], [MapApplySafe] returns, and when
    the function returned an error on some call, the calls made are those
    for the indices from 0 to the end of the batch in which the function
    first returned an error, each index once and in increasing order: every
    index of that batch is visited and no batch is started after it.  The
    error [MapApplySafe] returns is the one the function returned last in
    that batch. *)
Theorem single_worker_last_failure (i_ : Interpreter) (f : visitor)
    (options : option ThreadingOptions) (opts : ThreadingOptions) (size : Z) :
  valid i_ → fits i_ → int_options options →
  fill_options i_ options = Return opts → NumThreads opts = 1 →
  Size i_ = Return size →
  (∃ calls r, MapApplySafe i_ (Some f) options calls r) ∧
  (∀ calls r, MapApplySafe i_ (Some f) options calls r →
     (∃ p k, (p, k) ∈ calls ∧ f p k ≠ None) →
     ∃ m e, 0 ≤ m ∧ m * OpsPerThread opts < size ∧
       no_failure i_ f 0 (m * OpsPerThread opts) ∧
       last_failure i_ f (m * OpsPerThread opts)
         (Z.min (m * OpsPerThread opts + OpsPerThread opts) size) (Some e) ∧
       calls = calls_upto i_ (Z.min (m * OpsPerThread opts + OpsPerThread opts) size) ∧
       r = Some e) ∧
  (∀ calls r m e, MapApplySafe i_ (Some f) options calls r →
     0 ≤ m → m * OpsPerThread opts + OpsPerThread opts ≤ MaxInt →
     no_failure i_ f 0 (m * OpsPerThread opts) →
     last_failure i_ f (m * OpsPerThread opts)
       (Z.min (m * OpsPerThread opts + OpsPerThread opts) size) (Some e) →
     calls = calls_upto i_ (Z.min (m * OpsPerThread opts + OpsPerThread opts) size) ∧
     r = Some e).
Proof.
  intros Hv Hf Hopt Hfill Hone Hsize.
  destruct (valid_Size _ Hv) as (size' & Hsize' & Hint).
  assert (size' = size) as -> by congruence.
  destruct (fill_options_spec i_ options size Hsize Hint Hopt)
    as (opts' & Hfill' & Hoi & Hops & _).
  assert (opts' = opts) as -> by congruence.
  split; [|split].
  - destruct (safe_completes i_ f opts size (init_state i_ opts) Hv Hsize Hint
                Hoi Hops (init_inv i_ opts size)) as (final & Hr & Hfin).
    exists (st_calls final), (s_err (st_shared final)).
    unfold MapApplySafe, generalMapApply. by exists opts, final.
  - intros calls r Hg (p & k & Hin & Hfail).
    destruct (single_outcome i_ f options opts size false Hv Hf Hopt Hfill Hone
                Hsize calls r Hg) as (Hops1 & HP & _ & Hout).
    destruct Hout as [(_ & -> & Hno)|[(m & e & Hm & Hlt & Hno & Hlast & -> & ->)
                                    |(m & Hm & Hlt & _ & Hno & _ & ->)]].
    + apply calls_upto_elem in Hin as [Hk ->]. by rewrite Hno in Hfail.
    + by exists m, e.
    + apply calls_upto_elem in Hin as [Hk ->]. by rewrite Hno in Hfail.
  - intros calls r m e Hg Hm Hfit Hno Hlast.
    destruct (single_outcome i_ f options opts size false Hv Hf Hopt Hfill Hone
                Hsize calls r Hg) as (Hops1 & HP & _ & Hout).
    by eapply sequential_outcome_failure.
Qed.

Lemma single_worker_last_failure_witness :
  valid (mkInterpreter [4] [4]) ∧ fits (mkInterpreter [4] [4]) ∧
  int_options (Some (mkThreadingOptions 4 1)) ∧
  MapApplySafe (mkInterpreter [4] [4])
    (Some (λ _ k, if decide (k = 1) then Some (ForeignError "first")
                  else if decide (k = 2) then Some (ForeignError "second")
                  else None))
    (Some (mkThreadingOptions 4 1))
    [([0], 0); ([1], 1); ([2], 2); ([3], 3)] (Some (ForeignError "second")) ∧
  ∃ m e, 0 ≤ m ∧
    [([0], 0); ([1], 1); ([2], 2); ([3], 3)]
    = calls_upto (mkInterpreter [4] [4]) (Z.min (m * 4 + 4) 4) ∧
    Some (ForeignError "second") = Some e.
Proof.
  assert (valid (mkInterpreter [4] [4])) as Hv.
  { split; [repeat constructor; vm_compute; discriminate|reflexivity]. }
  assert (fits (mkInterpreter [4] [4])) as Hf.
  { vm_compute. discriminate. }
  assert (int_options (Some (mkThreadingOptions 4 1))) as Ho.
  { split; vm_compute; split; discriminate. }
  assert (MapApplySafe (mkInterpreter [4] [4])
    (Some (λ _ k, if decide (k = 1) then Some (ForeignError "first")
                  else if decide (k = 2) then Some (ForeignError "second")
                  else None))
    (Some (mkThreadingOptions 4 1))
    [([0], 0); ([1], 1); ([2], 2); ([3], 3)] (Some (ForeignError "second")))
    as Hg.
  { eexists _, _. split; [reflexivity|]. split.
    - apply (run_rtc _ _ _ _ [0; 0; 0; 0; 0; 0]%nat). vm_compute. reflexivity.
    - split; [repeat constructor|]. split; reflexivity. }
  split; [exact Hv|]. split; [exact Hf|]. split; [exact Ho|]. split; [exact Hg|].
  destruct (proj1 (proj2 (single_worker_last_failure _ _ _ (mkThreadingOptions 4 1)
                            4 Hv Hf Ho eq_refl eq_refl eq_refl)) _ _ Hg)
    as (m & e & Hm & _ & _ & _ & Hcalls & Hr).
  { exists [1], 1. split; [|discriminate]. apply list_elem_of_lookup.
    by exists 1%nat. }
  exists m, e. split; [exact Hm|]. split; [exact Hcalls|exact Hr].
Defined.

(** * [MapApplySafe] with [nil] options *)

(** [Size()] is never above the number of points. *)
Lemma Size_le_product i_ size :
  valid i_ → Size i_ = Return size → is_int size ∧ size ≤ product (Dims i_).
Proof.
  intros Hv Hsize. destruct (valid_Size _ Hv) as (s & Hs & Hint).
  assert (s = size) as -> by congruence. split; [done|].
  destruct (decide (product (Dims i_) ≤ MaxInt)) as [Hf|Hn].
  - rewrite (fits_Size _ Hv Hf) in Hsize. injection Hsize as <-. lia.
  - unfold is_int in Hint. lia.
Qed.

(** One turn of the inner loop on the point counted up to its index, whether
    or not the number of points fits an [int]. *)
Lemma visit_counting i_ useFast f li le e :
  valid i_ → 0 ≤ li < le → le ≤ MaxInt → le ≤ product (Dims i_) →
  visit i_ (Some f) useFast li le (decode (Dims i_) li) e
  = Return (
      let e' := match f (decode (Dims i_) li) li with
                | Some x => Some x
                | None => e
                end in
      if decide (li + 1 = le) then AtLock e'
      else InBatch (li + 1) le (decode (Dims i_) (li + 1)) e',
      [(decode (Dims i_) li, li)]).
Proof.
  intros Hv Hli Hle HP. pose proof int_consts as [HMin HMax].
  unfold visit. destruct (Z.ltb_spec li le); [|lia]. cbn [mbind go_bind].
  rewrite wrap_id by (unfold is_int; lia).
  destruct (decide (li + 1 = le)); [done|].
  by rewrite increment_exact by (done || lia).
Qed.

Section nil_options.
Variable i_ : Interpreter.
Variable f : visitor.
Variable size : Z.
Hypothesis Hv : valid i_.
Hypothesis Hsize : Size i_ = Return size.
Hypothesis Hnever : ∀ p k, f p k = None.

Lemma init_one_batch :
  one_batch i_ size (init_state i_ (mkThreadingOptions size 1)).
Proof.
  split; [done|]. left. unfold init_state.
  cbn [st_shared st_workers st_calls s_index s_point NumThreads].
  by rewrite decode_zero.
Qed.

Lemma step_one_batch st st' :
  one_batch i_ size st →
  step i_ (Some f) (mkThreadingOptions size 1) false st st' →
  one_batch i_ size st'.
Proof.
  destruct (Size_le_product _ _ Hv Hsize) as [Hint Hle].
  pose proof Hint as [HMin HMax].
  destruct st as [[idx pt err] ws calls]. intros [Herr Hst] [t Ht].
  unfold thread_step in Ht.
  cbn [st_shared st_workers st_calls s_index s_point s_err] in *. subst err.
  destruct Hst as [(-> & -> & -> & ->)|[(k & Hk & -> & -> & ->)
                  |[(-> & Hpos & -> & ->)|(-> & ->)]]];
    (destruct t as [|t]; [|done]); cbn [lookup list_lookup] in Ht.
  - (* the batch is fetched *)
    unfold claim in Ht. cbn [s_err s_index s_point OpsPerThread] in Ht.
    rewrite Hsize in Ht. cbn [mbind go_bind] in Ht.
    destruct (Z.geb_spec 0 size) as [Hnone|Hsome].
    + cbn [mbind go_bind] in Ht. injection Ht as <-.
      split; [done|]. do 3 right. split; [done|].
      cbn [st_calls]. unfold calls_upto, seqZ.
      by rewrite Z2Nat.nonpos by lia.
    + rewrite Z.add_0_l, wrap_id in Ht by done.
      rewrite Z.ltb_irrefl in Ht. cbn [mbind go_bind] in Ht.
      destruct (Z.gtb_spec size size); [lia|].
      injection Ht as <-. split; [done|]. right. left.
      exists 0. split; [lia|]. by split.
  - (* one index of the batch *)
    rewrite visit_counting in Ht by (done || lia). cbn [mbind go_bind] in Ht.
    rewrite Hnever in Ht. cbn zeta in Ht. injection Ht as <-.
    split; [done|]. cbn [st_shared st_workers st_calls s_index].
    rewrite <-calls_upto_snoc by lia.
    destruct (decide (k + 1 = size)) as [E|E]; cbn [insert list_insert].
    + do 2 right. left. rewrite E. split_and!; [done|lia|done|done].
    + right. left. exists (k + 1). split; [lia|]. by split.
  - (* no index is left *)
    rewrite (claim_exhausted _ _ _ _ size) in Ht by (done || cbn; lia).
    cbn [mbind go_bind] in Ht. injection Ht as <-.
    split; [done|]. do 3 right. by split.
  - done.
Qed.

Lemma reachable_one_batch st :
  rtc (step i_ (Some f) (mkThreadingOptions size 1) false)
      (init_state i_ (mkThreadingOptions size 1)) st →
  one_batch i_ size st.
Proof.
  revert st. apply rtc_ind_r; [apply init_one_batch|].
  intros st st' _ Hstep IH. by eapply step_one_batch.
Qed.

Lemma finished_one_batch st :
  one_batch i_ size st → finished st →
  s_err (st_shared st) = None ∧ st_calls st = calls_upto i_ size.
Proof.
  intros [Herr Hst] Hfin. split; [done|]. unfold finished in Hfin.
  destruct Hst as [(Hw & _)|[(k & _ & Hw & _)|[(Hw & _)|(_ & Hc)]]];
    [rewrite Hw in Hfin; by inversion Hfin..|done].
Qed.
End nil_options.

(** C8, as stated, fails on the shape [[2; 2^63-1; 2^63-3]], whose running
    sizes are [[2; -2; 6]]: with [nil] options and a function that never
    returns an error, [MapApplySafe] returns [nil] after one call per index,
    in increasing order, but the call for the index 2 is made with the point
    [[0; 1; 0]], reached by two increments, while [PointSafe] returns
    [[0; 0; -1]] for the index 2. *)
Lemma nil_options_points_counterexample :
  valid (mkInterpreter [2; 2 ^ 63 - 1; 2 ^ 63 - 3] [2; -2; 6]) ∧
  fill_options (mkInterpreter [2; 2 ^ 63 - 1; 2 ^ 63 - 3] [2; -2; 6]) None
    = Return (mkThreadingOptions 6 1) ∧
  MapApplySafe (mkInterpreter [2; 2 ^ 63 - 1; 2 ^ 63 - 3] [2; -2; 6])
    (Some (λ _ _, None)) None
    [([0; 0; 0], 0); ([1; 0; 0], 1); ([0; 1; 0], 2); ([1; 1; 0], 3);
     ([0; 2; 0], 4); ([1; 2; 0], 5)] None ∧
  PointSafe (mkInterpreter [2; 2 ^ 63 - 1; 2 ^ 63 - 3] [2; -2; 6]) 2
    = Return ([0; 0; -1], None) ∧
  [0; 1; 0] ≠ [0; 0; -1].
Proof.
  split.
  { split; [repeat constructor; vm_compute; discriminate|reflexivity]. }
  split; [reflexivity|]. split; [|split; [reflexivity|discriminate]].
  eexists _, _. split; [reflexivity|]. split.
  - apply (run_rtc _ _ _ _ [0; 0; 0; 0; 0; 0; 0; 0]%nat). vm_compute. reflexivity.
  - split; [repeat constructor|]. split; reflexivity.
Qed.

(** C8, amended: when [MapApplySafe] is called with [nil] options and a
    function that is not [nil] and never returns an error, it runs a single
    goroutine with [OpsPerThread] equal to [Size()], one batch that holds
    every index: it returns [nil], and the function is called exactly once
    per index, in increasing order from 0 to [Size() - 1], each time with
    the point that counts up to the index from the zero point, dimension 0
    first (the mixed-radix digits of the index).  When the number of points
    fits an [int], that point is the one [PointSafe] returns for the
    index. *)
Theorem MapApplySafe_nil_options (i_ : Interpreter) (f : visitor) :
  valid i_ → (∀ p k, f p k = None) →
  ∃ size, Size i_ = Return size ∧
    fill_options i_ None = Return (mkThreadingOptions size 1) ∧
    (∃ calls, MapApplySafe i_ (Some f) None calls None) ∧
    (∀ calls r, MapApplySafe i_ (Some f) None calls r →
       r = None ∧ calls = calls_upto i_ size ∧
       length calls = Z.to_nat size ∧
       (∀ k, 0 ≤ k < size →
          calls !! Z.to_nat k = Some (decode (Dims i_) k, k)) ∧
       (∀ i, visits i calls = if bool_decide (0 ≤ i < size) then 1%nat else 0%nat)) ∧
    (fits i_ → ∀ k, 0 ≤ k < size →
       PointSafe i_ k = Return (decode (Dims i_) k, None)).
Proof.
  intros Hv Hnever. destruct (valid_Size _ Hv) as (size & Hsize & Hint).
  exists size. split; [done|].
  assert (fill_options i_ None = Return (mkThreadingOptions size 1)) as Hfill.
  { cbn [fill_options]. by rewrite Hsize. }
  split; [done|].
  assert (∀ calls r, MapApplySafe i_ (Some f) None calls r →
            r = None ∧ calls = calls_upto i_ size) as Hruns.
  { intros calls r Hg. unfold MapApplySafe in Hg.
    apply (generalMapApply_run _ _ _ _ _ _ _ Hfill) in Hg
      as (final & Hr & Hfin & -> & ->).
    apply (finished_one_batch i_ size); [|done].
    by apply (reachable_one_batch i_ f). }
  split; [|split].
  - destruct (safe_completes i_ f (mkThreadingOptions size 1) size
                (init_state i_ (mkThreadingOptions size 1)) Hv Hsize Hint
                Hint (λ H, H) (init_inv i_ _ size)) as (final & Hr & Hfin).
    exists (st_calls final).
    assert (MapApplySafe i_ (Some f) None (st_calls final)
              (s_err (st_shared final))) as Hg.
    { unfold MapApplySafe, generalMapApply. by eexists _, final. }
    destruct (Hruns _ _ Hg) as [Hnone _]. by rewrite Hnone in Hg.
  - intros calls r Hg. destruct (Hruns _ _ Hg) as [-> ->].
    split; [done|]. split; [done|]. unfold calls_upto. split; [|split].
    + by rewrite length_fmap, length_seqZ.
    + intros k Hk.
      rewrite list_lookup_fmap, (lookup_seqZ_lt _ _ (Z.to_nat k)) by lia.
      cbn. do 3 f_equal; lia.
    + destruct (Hruns _ _ Hg) as [_ E]. unfold MapApplySafe in Hg.
      apply (generalMapApply_run _ _ _ _ _ _ _ Hfill) in Hg
        as (final & Hr & Hfin & Hc & Herr).
      destruct (reachable_inv i_ (Some f) (mkThreadingOptions size 1) false size
                  Hsize Hint Hint (λ H, H) final Hr) as [Hinv Hlen].
      fold (calls_upto i_ size). rewrite Hc.
      apply (finished_exactly_once size final Hinv); [|done|done].
      intros E'. rewrite E' in Hlen. simpl in Hlen. lia.
  - intros Hf k Hk. rewrite (fits_Size _ Hv Hf) in Hsize. injection Hsize as <-.
    by apply PointSafe_fits.
Qed.

Lemma MapApplySafe_nil_options_witness :
  valid (mkInterpreter [2; 3] [2; 6]) ∧
  MapApplySafe (mkInterpreter [2; 3] [2; 6]) (Some (λ _ _, None)) None
    [([0; 0], 0); ([1; 0], 1); ([0; 1], 2); ([1; 1], 3); ([0; 2], 4); ([1; 2], 5)]
    None ∧
  ∃ size, Size (mkInterpreter [2; 3] [2; 6]) = Return size ∧
    fill_options (mkInterpreter [2; 3] [2; 6]) None
    = Return (mkThreadingOptions size 1) ∧
    [([0; 0], 0); ([1; 0], 1); ([0; 1], 2); ([1; 1], 3); ([0; 2], 4); ([1; 2], 5)]
    = calls_upto (mkInterpreter [2; 3] [2; 6]) size.
Proof.
  assert (valid (mkInterpreter [2; 3] [2; 6])) as Hv.
  { split; [repeat constructor; vm_compute; discriminate|reflexivity]. }
  assert (MapApplySafe (mkInterpreter [2; 3] [2; 6]) (Some (λ _ _, None))
            None
            [([0; 0], 0); ([1; 0], 1); ([0; 1], 2); ([1; 1], 3); ([0; 2], 4);
             ([1; 2], 5)] None) as Hg.
  { eexists _, _. split; [reflexivity|]. split.
    - apply (run_rtc _ _ _ _ [0; 0; 0; 0; 0; 0; 0; 0]%nat). vm_compute. reflexivity.
    - split; [repeat constructor|]. split; reflexivity. }
  split; [exact Hv|]. split; [exact Hg|].
  destruct (MapApplySafe_nil_options (mkInterpreter [2; 3] [2; 6]) (λ _ _, None)
              Hv (λ _ _, eq_refl)) as (size & H1 & H2 & _ & H4 & _).
  exists size. split; [exact H1|]. split; [exact H2|].
  exact (proj1 (proj2 (H4 _ _ Hg))).
Defined.
